(** * hakrawler: a shallow embedding of the crawl driver

    The development follows [hakrawler.go]: the helpers of Go's [strings]
    package that the program calls, the header parser [parseHeaders], the
    scope set-up of [main], the three [OnHTML] handlers with [printResult],
    the de-duplicating consumer loop with [isUnique] and the shutdown
    protocol around the [results] channel.

    A Go [string] is a sequence of bytes: it is a Rocq [string]. *)

From Stdlib Require Import Ascii String List Arith ZArith Lia Bool.
From stdpp Require Import base option list gmap strings.

Local Open Scope stdpp_scope.

(** ** Go's [strings] package, as far as the program uses it *)

Module strings.

(** [strings.HasPrefix(s, prefix)] *)
Fixpoint HasPrefix (s prefix : string) : bool :=
  match prefix, s with
  | EmptyString, _ => true
  | String p prefix', String c s' =>
      if Ascii.eqb c p then HasPrefix s' prefix' else false
  | String _ _, EmptyString => false
  end.

(** [strings.Index(s, substr)]: the byte offset of the first instance of
    [substr] in [s]; Go's [-1] is [None]. *)
Fixpoint Index (s substr : string) {struct s} : option nat :=
  if HasPrefix s substr then Some 0
  else match s with
       | EmptyString => None
       | String _ s' => S <$> Index s' substr
       end.

(** [strings.Contains(s, substr)] is [Index(s, substr) >= 0]. *)
Definition Contains (s substr : string) : bool :=
  match Index s substr with Some _ => true | None => false end.

(** The slices [s[:n]] and [s[n:]]. *)
Fixpoint take (n : nat) (s : string) : string :=
  match n, s with
  | S n', String c s' => String c (take n' s')
  | _, _ => EmptyString
  end.

Fixpoint drop (n : nat) (s : string) : string :=
  match n, s with
  | S n', String _ s' => drop n' s'
  | _, _ => s
  end.

(** The loop of [genSplit(s, sep, 0, n)] for a non-empty separator: [k]
    is the number of iterations left ([n - 1 - i] in the source); every
    iteration cuts [s] at the first instance of [sep] and stops when there
    is none.  The empty-separator branch ([explode]) is never taken by
    this program, whose separators are the constants [";;"], [": "] and
    [":"]. *)
Fixpoint genSplit (k : nat) (s sep : string) : list string :=
  match k with
  | 0 => [s]
  | S k' =>
      match Index s sep with
      | None => [s]
      | Some m => take m s :: genSplit k' (drop (m + String.length sep) s) sep
      end
  end.

(** [strings.Count(s, substr)], non-overlapping instances, [substr]
    non-empty.  The source loops until [Index] misses; every round drops
    at least one byte, so [String.length s] rounds are enough. *)
Fixpoint count_loop (k : nat) (s substr : string) : nat :=
  match k with
  | 0 => 0
  | S k' =>
      match Index s substr with
      | None => 0
      | Some i => S (count_loop k' (drop (i + String.length substr) s) substr)
      end
  end.

Definition Count (s substr : string) : nat :=
  count_loop (String.length s) s substr.

(** [strings.Split(s, sep)] is [genSplit(s, sep, 0, -1)]: [n] becomes
    [Count(s, sep) + 1]. *)
Definition Split (s sep : string) : list string :=
  genSplit (Count s sep) s sep.

(** [strings.SplitN(s, sep, n)] for [n > 0]: [n] is capped at
    [len(s) + 1] and the loop runs [n - 1] times. *)
Definition SplitN (s sep : string) (n : nat) : list string :=
  genSplit (Nat.min n (String.length s + 1) - 1) s sep.

(** [strings.Join(elems, sep)] *)
Fixpoint Join (elems : list string) (sep : string) : string :=
  match elems with
  | [] => ""
  | [e] => e
  | e :: rest => e +:+ sep +:+ Join rest sep
  end.

(** [strings.ReplaceAll(s, old, new)] for a one-byte [old]. *)
Fixpoint ReplaceAll1 (s : string) (old : ascii) (new : string) : string :=
  match s with
  | EmptyString => ""
  | String c s' =>
      (if Ascii.eqb c old then new else String c "") +:+ ReplaceAll1 s' old new
  end.

(** White space as [strings.TrimSpace] sees it.  The ASCII fast path
    uses the table [asciiSpace]; from the first byte [>= 0x80] on the
    source switches to [unicode.IsSpace] on decoded runes.  A rune is
    white space exactly when its UTF-8 encoding is one of the byte
    sequences below (U+0085, U+00A0, U+1680, U+2000..U+200A, U+2028,
    U+2029, U+202F, U+205F, U+3000). *)
Definition asciiSpace (c : ascii) : bool :=
  match c with
  | "009" | "010" | "011" | "012" | "013" | " " => true
  | _ => false
  end%char.

Definition between (lo hi : nat) (c : ascii) : bool :=
  (lo <=? nat_of_ascii c) && (nat_of_ascii c <=? hi).

Definition isByte (n : nat) (c : ascii) : bool := nat_of_ascii c =? n.

(** The length of the white-space rune at the head of [s], [0] if the
    head is none. *)
Definition spaceLen (s : string) : nat :=
  match s with
  | String a (String b (String c _)) =>
      if asciiSpace a then 1
      else if isByte 194 a && (isByte 133 b || isByte 160 b) then 2
      else if isByte 225 a && isByte 154 b && isByte 128 c then 3
      else if isByte 226 a && isByte 128 b
              && (between 128 138 c || isByte 168 c || isByte 169 c || isByte 175 c) then 3
      else if isByte 226 a && isByte 129 b && isByte 159 c then 3
      else if isByte 227 a && isByte 128 b && isByte 128 c then 3
      else 0
  | String a (String b EmptyString) =>
      if asciiSpace a then 1
      else if isByte 194 a && (isByte 133 b || isByte 160 b) then 2
      else 0
  | String a EmptyString => if asciiSpace a then 1 else 0
  | EmptyString => 0
  end.

(** The same for the rune at the end of a string given in reverse. *)
Definition spaceLenRev (r : string) : nat :=
  match r with
  | String c (String b (String a _)) =>
      if asciiSpace c then 1
      else if isByte 194 b && (isByte 133 c || isByte 160 c) then 2
      else if isByte 225 a && isByte 154 b && isByte 128 c then 3
      else if isByte 226 a && isByte 128 b
              && (between 128 138 c || isByte 168 c || isByte 169 c || isByte 175 c) then 3
      else if isByte 226 a && isByte 129 b && isByte 159 c then 3
      else if isByte 227 a && isByte 128 b && isByte 128 c then 3
      else 0
  | String c (String b EmptyString) =>
      if asciiSpace c then 1
      else if isByte 194 b && (isByte 133 c || isByte 160 c) then 2
      else 0
  | String c EmptyString => if asciiSpace c then 1 else 0
  | EmptyString => 0
  end.

Fixpoint trimWith (len : string -> nat) (fuel : nat) (s : string) : string :=
  match fuel with
  | 0 => s
  | S fuel' =>
      match len s with
      | 0 => s
      | n => trimWith len fuel' (drop n s)
      end
  end.

Fixpoint rev (s : string) : string :=
  match s with
  | EmptyString => ""
  | String c s' => rev s' +:+ String c ""
  end.

Definition TrimLeft (s : string) : string :=
  trimWith spaceLen (String.length s) s.

Definition TrimRight (s : string) : string :=
  rev (trimWith spaceLenRev (String.length s) (rev s)).

(** [strings.TrimSpace(s)] *)
Definition TrimSpace (s : string) : string := TrimRight (TrimLeft s).

(** [strings.HasSuffix(s, suffix)] *)
Definition HasSuffix (s suffix : string) : bool :=
  HasPrefix (rev s) (rev suffix).

(** [strings.LastIndex(s, substr)]: the offset of the last instance. *)
Fixpoint LastIndex (s substr : string) {struct s} : option nat :=
  match s with
  | EmptyString => if HasPrefix s substr then Some 0 else None
  | String _ s' =>
      match LastIndex s' substr with
      | Some i => Some (S i)
      | None => if HasPrefix s substr then Some 0 else None
      end
  end.

(** [strings.Cut(s, sep)]: the text before and after the first [sep]. *)
Definition Cut (s sep : string) : string * string * bool :=
  match Index s sep with
  | Some i => (take i s, drop (i + String.length sep) s, true)
  | None => (s, "", false)
  end.

(** [strings.ToLower] on the ASCII letters; the program lowers URL
    schemes only, which [getScheme] restricts to ASCII. *)
Definition lowerByte (c : ascii) : ascii :=
  if between 65 90 c then ascii_of_nat (nat_of_ascii c + 32) else c.

Fixpoint ToLower (s : string) : string :=
  match s with
  | EmptyString => ""
  | String c s' => String (lowerByte c) (ToLower s')
  end.

(** A string made of white-space runes only. *)
Inductive allSpace : string → Prop :=
| allSpace_nil : allSpace ""
| allSpace_rune r s :
    0 < String.length r → spaceLen r = String.length r → allSpace s →
    allSpace (r +:+ s).

(** [sub] occurs in [s] at byte offset [m]. *)
Definition occurs_at (s sub : string) (m : nat) : Prop :=
  ∃ a b, s = a +:+ sub +:+ b ∧ String.length a = m.

(** [sub] occurs somewhere in [s]. *)
Definition occurs (s sub : string) : Prop := ∃ a b, s = a +:+ sub +:+ b.

(** [e] is cut at the first instance of [sep] into [a] and [b]. *)
Definition first_cut (sep e a b : string) : Prop :=
  e = a +:+ sep +:+ b ∧
  ∀ a' b', e = a' +:+ sep +:+ b' → String.length a ≤ String.length a'.

End strings.

(** ** Outcomes of a Go call *)

(** A call returns normally, returns an error value, or panics. *)
Inductive result (A : Type) : Type :=
| Ok (a : A)
| Err (msg : string)
| Panic (msg : string).
Arguments Ok {A} a.
Arguments Err {A} msg.
Arguments Panic {A} msg.

(** [xs[i]] on a slice: out of range is a run-time panic. *)
Definition index {A : Type} (xs : list A) (i : nat) : result A :=
  match xs !! i with
  | Some x => Ok x
  | None => Panic "index out of range"
  end.

(** ** [parseHeaders] *)

(** The package variable [headers map[string]string]; [None] is the nil
    map it holds until [parseHeaders] allocates one. *)
Abbreviation Headers := (option (gmap string string)).

(** The [if / else if / else] of the loop body: the parts of one entry,
    [None] for [continue]. *)
Definition headerParts (header : string) : option (list string) :=
  if strings.Contains header ": " then Some (strings.SplitN header ": " 2)
  else if strings.Contains header ":" then Some (strings.SplitN header ":" 2)
  else None.

(** One iteration of [for _, header := range rawHeaders]. *)
Definition parseHeader (m : gmap string string) (header : string)
  : result (gmap string string) :=
  match headerParts header with
  | None => Ok m
  | Some parts =>
      match index parts 0, index parts 1 with
      | Ok name, Ok value =>
          Ok (<[strings.TrimSpace name := strings.TrimSpace value]> m)
      | _, _ => Panic "index out of range"
      end
  end.

Fixpoint parseHeaderLoop (m : gmap string string) (entries : list string)
  : result (gmap string string) :=
  match entries with
  | [] => Ok m
  | header :: rest =>
      match parseHeader m header with
      | Ok m' => parseHeaderLoop m' rest
      | other => other
      end
  end.

(** [parseHeaders rawHeaders headers] is the new value of the package
    variable on a nil error. *)
Definition parseHeaders (rawHeaders : string) (headers : Headers)
  : result Headers :=
  if negb (String.eqb rawHeaders "") then
    if negb (strings.Contains rawHeaders ":") then
      Err "headers flag not formatted properly (no colon to separate header and value)"
    else
      match parseHeaderLoop ∅ (strings.Split rawHeaders ";;") with
      | Ok m => Ok (Some m)
      | Err e => Err e
      | Panic e => Panic e
      end
  else Ok headers.


(** What the flag's help text promises for one entry of the list: the
    name and the value are the two sides of the first [": "], or of the
    first [":"] when there is no [": "], both trimmed; an entry without
    a colon contributes nothing. *)
Inductive entry_adds (m : gmap string string) (e : string)
  : gmap string string → Prop :=
| adds_colon_space a b :
    strings.first_cut ": " e a b →
    entry_adds m e (<[strings.TrimSpace a := strings.TrimSpace b]> m)
| adds_colon a b :
    ¬ strings.occurs e ": " → strings.first_cut ":" e a b →
    entry_adds m e (<[strings.TrimSpace a := strings.TrimSpace b]> m)
| adds_nothing :
    ¬ strings.occurs e ":" → entry_adds m e m.

Inductive entries_add (m : gmap string string)
  : list string → gmap string string → Prop :=
| entries_nil : entries_add m [] m
| entries_cons e es m1 m2 :
    entry_adds m e m1 → entries_add m1 es m2 → entries_add m (e :: es) m2.

(** ** Go's [net/url], as far as [extractHostname] and colly's
    [AbsoluteURL] and [scrape] use it (Go 1.19 and later) *)

Module url.
Import strings.

Inductive encoding : Type :=
| encodePath
| encodePathSegment
| encodeHost
| encodeZone
| encodeUserPassword
| encodeQueryComponent
| encodeFragment.

Definition isHostMode (mode : encoding) : bool :=
  match mode with encodeHost | encodeZone => true | _ => false end.

Definition isAlnum (c : ascii) : bool :=
  between 97 122 c || between 65 90 c || between 48 57 c.

Definition isDigit (c : ascii) : bool := between 48 57 c.

Definition isAlpha (c : ascii) : bool := between 97 122 c || between 65 90 c.

(** Membership of a byte in a set written as a string. *)
Fixpoint oneOf (c : ascii) (set : string) : bool :=
  match set with
  | EmptyString => false
  | String d set' => Ascii.eqb c d || oneOf c set'
  end.

(** The double quote, which [shouldEscape] lets through in a host. *)
Definition dquote : ascii := ascii_of_nat 34.

(** [shouldEscape(c, mode)] *)
Definition shouldEscape (c : ascii) (mode : encoding) : bool :=
  if isAlnum c then false
  else if isHostMode mode && (oneOf c "!$&'()*+,;=:[]<>" || Ascii.eqb c dquote)
  then false
  else if oneOf c "-_.~" then false
  else if oneOf c "$&+,/:;=?@" then
    match mode with
    | encodePath => Ascii.eqb c "?"
    | encodePathSegment => oneOf c "/;,?"
    | encodeUserPassword => oneOf c "@/?:"
    | encodeQueryComponent => true
    | encodeFragment => false
    | encodeHost | encodeZone => true
    end
  else
    match mode with
    | encodeFragment => negb (oneOf c "!()*")
    | _ => true
    end.

Definition ishex (c : ascii) : bool :=
  between 48 57 c || between 97 102 c || between 65 70 c.

Definition unhex (c : ascii) : nat :=
  if between 48 57 c then nat_of_ascii c - 48
  else if between 97 102 c then nat_of_ascii c - 97 + 10
  else if between 65 70 c then nat_of_ascii c - 65 + 10
  else 0.

Definition upperhex (n : nat) : ascii :=
  if n <? 10 then ascii_of_nat (48 + n) else ascii_of_nat (65 + (n - 10)).

(** [unescape(s, mode)]: the first pass of the source checks every
    escape and every host byte, the second decodes; an error of the first
    pass is an error here at the same byte. *)
Fixpoint unescape (s : string) (mode : encoding) : result string :=
  match s with
  | EmptyString => Ok ""
  | String c rest =>
      if Ascii.eqb c "%" then
        match rest with
        | String h1 (String h2 rest') =>
            if negb (ishex h1 && ishex h2) then Err "invalid URL escape"
            else if match mode with encodeHost => true | _ => false end
                    && (unhex h1 <? 8) && negb (Ascii.eqb h1 "2" && Ascii.eqb h2 "5")
            then Err "invalid URL escape"
            else
              let v := ascii_of_nat (unhex h1 * 16 + unhex h2) in
              if match mode with encodeZone => true | _ => false end
                 && negb (Ascii.eqb h1 "2" && Ascii.eqb h2 "5")
                 && negb (Ascii.eqb v " ") && shouldEscape v encodeHost
              then Err "invalid URL escape"
              else
                match unescape rest' mode with
                | Ok t => Ok (String v t)
                | other => other
                end
        | _ => Err "invalid URL escape"
        end
      else if isHostMode mode && (nat_of_ascii c <? 128) && shouldEscape c encodeHost
      then Err "invalid character in host name"
      else
        match unescape rest mode with
        | Ok t =>
            Ok (String (if Ascii.eqb c "+"
                           && match mode with encodeQueryComponent => true | _ => false end
                        then " "%char else c) t)
        | other => other
        end
  end.

(** [escape(s, mode)] *)
Fixpoint escape (s : string) (mode : encoding) : string :=
  match s with
  | EmptyString => ""
  | String c rest =>
      (if shouldEscape c mode then
         if Ascii.eqb c " " && match mode with encodeQueryComponent => true | _ => false end
         then "+"
         else String "%" (String (upperhex (nat_of_ascii c / 16))
                            (String (upperhex (nat_of_ascii c mod 16)) ""))
       else String c "") +:+ escape rest mode
  end.

(** [validEncoded(s, mode)] *)
Fixpoint validEncoded (s : string) (mode : encoding) : bool :=
  match s with
  | EmptyString => true
  | String c rest =>
      (oneOf c "!$&'()*+,;=:@[]%" || negb (shouldEscape c mode))
      && validEncoded rest mode
  end.

Record Userinfo : Type := {
  username : string;
  password : string;
  passwordSet : bool
}.

Record URL : Type := {
  Scheme : string;
  Opaque : string;
  User : option Userinfo;
  Host : string;
  Path : string;
  RawPath : string;
  OmitHost : bool;
  ForceQuery : bool;
  RawQuery : string;
  Fragment : string;
  RawFragment : string
}.

(** [new(URL)] *)
Definition zero : URL :=
  {| Scheme := ""; Opaque := ""; User := None; Host := ""; Path := "";
     RawPath := ""; OmitHost := false; ForceQuery := false; RawQuery := "";
     Fragment := ""; RawFragment := "" |}.

Definition nonEmpty (s : string) : bool := negb (String.eqb s "").

(** [s[lo:hi]] *)
Definition slice (s : string) (lo hi : nat) : string := take (hi - lo) (drop lo s).

(** [stringContainsCTLByte(s)] *)
Fixpoint stringContainsCTLByte (s : string) : bool :=
  match s with
  | EmptyString => false
  | String c rest =>
      (nat_of_ascii c <? 32) || (nat_of_ascii c =? 127) || stringContainsCTLByte rest
  end.

(** The loop of [getScheme(rawURL)]; [i] is the index of the head of [s]
    in [rawURL]. *)
Fixpoint getSchemeFrom (s : string) (i : nat) (rawURL : string)
  : result (string * string) :=
  match s with
  | EmptyString => Ok ("", rawURL)
  | String c s' =>
      if isAlpha c then getSchemeFrom s' (S i) rawURL
      else if isDigit c || oneOf c "+-." then
        if i =? 0 then Ok ("", rawURL) else getSchemeFrom s' (S i) rawURL
      else if Ascii.eqb c ":" then
        if i =? 0 then Err "missing protocol scheme"
        else Ok (take i rawURL, drop (S i) rawURL)
      else Ok ("", rawURL)
  end.

Definition getScheme (rawURL : string) : result (string * string) :=
  getSchemeFrom rawURL 0 rawURL.

Fixpoint allDigits (s : string) : bool :=
  match s with
  | EmptyString => true
  | String c rest => isDigit c && allDigits rest
  end.

(** [validOptionalPort(port)] *)
Definition validOptionalPort (port : string) : bool :=
  match port with
  | EmptyString => true
  | String c rest => Ascii.eqb c ":" && allDigits rest
  end.

(** [validUserinfo(s)] *)
Fixpoint validUserinfo (s : string) : bool :=
  match s with
  | EmptyString => true
  | String c rest =>
      (isAlnum c || oneOf c "-._:~!$&'()*+,;=%@") && validUserinfo rest
  end.

(** [parseHost(host)] *)
Definition parseHost (host : string) : result string :=
  let plain := unescape host encodeHost in
  if HasPrefix host "[" then
    match LastIndex host "]" with
    | None => Err "missing ']' in host"
    | Some i =>
        if negb (validOptionalPort (drop (i + 1) host)) then
          Err "invalid port after host"
        else
          match Index (take i host) "%25" with
          | Some zone =>
              match unescape (take zone host) encodeHost with
              | Ok host1 =>
                  match unescape (slice host zone i) encodeZone with
                  | Ok host2 =>
                      match unescape (drop i host) encodeHost with
                      | Ok host3 => Ok (host1 +:+ host2 +:+ host3)
                      | other => other
                      end
                  | other => other
                  end
              | other => other
              end
          | None => plain
          end
    end
  else
    match LastIndex host ":" with
    | Some i =>
        if negb (validOptionalPort (drop i host)) then
          Err "invalid port after host"
        else plain
    | None => plain
    end.

(** [parseAuthority(authority)] *)
Definition parseAuthority (authority : string)
  : result (option Userinfo * string) :=
  let at_ := LastIndex authority "@" in
  match parseHost (match at_ with
                   | None => authority
                   | Some i => drop (i + 1) authority
                   end) with
  | Err e => Err e
  | Panic e => Panic e
  | Ok host =>
      match at_ with
      | None => Ok (None, host)
      | Some i =>
          let userinfo := take i authority in
          if negb (validUserinfo userinfo) then Err "net/url: invalid userinfo"
          else if negb (Contains userinfo ":") then
            match unescape userinfo encodeUserPassword with
            | Ok u =>
                Ok (Some {| username := u; password := ""; passwordSet := false |},
                    host)
            | Err e => Err e
            | Panic e => Panic e
            end
          else
            let '(name, pass, _) := Cut userinfo ":" in
            match unescape name encodeUserPassword with
            | Ok u =>
                match unescape pass encodeUserPassword with
                | Ok pw =>
                    Ok (Some {| username := u; password := pw; passwordSet := true |},
                        host)
                | Err e => Err e
                | Panic e => Panic e
                end
            | Err e => Err e
            | Panic e => Panic e
            end
      end
  end.

(** [u.setPath(p)] *)
Definition setPath (u : URL) (p : string) : result URL :=
  match unescape p encodePath with
  | Ok path =>
      Ok {| Scheme := Scheme u; Opaque := Opaque u; User := User u;
            Host := Host u; Path := path;
            RawPath := if String.eqb p (escape path encodePath) then "" else p;
            OmitHost := OmitHost u; ForceQuery := ForceQuery u;
            RawQuery := RawQuery u; Fragment := Fragment u;
            RawFragment := RawFragment u |}
  | Err e => Err e
  | Panic e => Panic e
  end.

(** [u.setFragment(f)] *)
Definition setFragment (u : URL) (f : string) : result URL :=
  match unescape f encodeFragment with
  | Ok frag =>
      Ok {| Scheme := Scheme u; Opaque := Opaque u; User := User u;
            Host := Host u; Path := Path u; RawPath := RawPath u;
            OmitHost := OmitHost u; ForceQuery := ForceQuery u;
            RawQuery := RawQuery u; Fragment := frag;
            RawFragment :=
              if String.eqb f (escape frag encodeFragment) then "" else f |}
  | Err e => Err e
  | Panic e => Panic e
  end.

(** [parse(rawURL, viaRequest)] *)
Definition parse (rawURL : string) (viaRequest : bool) : result URL :=
  if stringContainsCTLByte rawURL then
    Err "net/url: invalid control character in URL"
  else if String.eqb rawURL "" && viaRequest then Err "empty url"
  else if String.eqb rawURL "*" then
    Ok {| Scheme := ""; Opaque := ""; User := None; Host := ""; Path := "*";
          RawPath := ""; OmitHost := false; ForceQuery := false;
          RawQuery := ""; Fragment := ""; RawFragment := "" |}
  else
    match getScheme rawURL with
    | Err e => Err e
    | Panic e => Panic e
    | Ok (scheme0, rest0) =>
        let scheme := ToLower scheme0 in
        let force := HasSuffix rest0 "?" && (Count rest0 "?" =? 1) in
        let '(rest1, query) :=
          if force then (take (String.length rest0 - 1) rest0, "")
          else let '(r, q, _) := Cut rest0 "?" in (r, q) in
        let finish (user : option Userinfo) (host rest : string) (omit : bool) :=
          setPath {| Scheme := scheme; Opaque := ""; User := user; Host := host;
                     Path := ""; RawPath := ""; OmitHost := omit;
                     ForceQuery := force; RawQuery := query; Fragment := "";
                     RawFragment := "" |} rest in
        if negb (HasPrefix rest1 "/") && nonEmpty scheme then
          Ok {| Scheme := scheme; Opaque := rest1; User := None; Host := "";
                Path := ""; RawPath := ""; OmitHost := false;
                ForceQuery := force; RawQuery := query; Fragment := "";
                RawFragment := "" |}
        else if negb (HasPrefix rest1 "/") && viaRequest then
          Err "invalid URI for request"
        else if negb (HasPrefix rest1 "/")
                && Contains (let '(segment, _, _) := Cut rest1 "/" in segment) ":"
        then Err "first path segment in URL cannot contain colon"
        else if (nonEmpty scheme || negb viaRequest && negb (HasPrefix rest1 "///"))
                && HasPrefix rest1 "//" then
          let authority0 := drop 2 rest1 in
          let '(authority, rest2) :=
            match Index authority0 "/" with
            | Some i => (take i authority0, drop i authority0)
            | None => (authority0, "")
            end in
          match parseAuthority authority with
          | Ok (user, host) => finish user host rest2 false
          | Err e => Err e
          | Panic e => Panic e
          end
        else if nonEmpty scheme && HasPrefix rest1 "/" then
          finish None "" rest1 true
        else finish None "" rest1 false
    end.

(** [url.Parse(rawURL)] *)
Definition Parse (rawURL : string) : result URL :=
  let '(u, frag, _) := Cut rawURL "#" in
  match parse u false with
  | Ok url => if String.eqb frag "" then Ok url else setFragment url frag
  | other => other
  end.

(** [u.EscapedPath()] *)
Definition EscapedPath (u : URL) : string :=
  if nonEmpty (RawPath u) && validEncoded (RawPath u) encodePath
     && match unescape (RawPath u) encodePath with
        | Ok p => String.eqb p (Path u)
        | _ => false
        end
  then RawPath u
  else if String.eqb (Path u) "*" then "*"
  else escape (Path u) encodePath.

(** [u.EscapedFragment()] *)
Definition EscapedFragment (u : URL) : string :=
  if nonEmpty (RawFragment u) && validEncoded (RawFragment u) encodeFragment
     && match unescape (RawFragment u) encodeFragment with
        | Ok f => String.eqb f (Fragment u)
        | _ => false
        end
  then RawFragment u
  else escape (Fragment u) encodeFragment.

(** [ui.String()] *)
Definition Userinfo_String (ui : Userinfo) : string :=
  escape (username ui) encodeUserPassword
  +:+ (if passwordSet ui then ":" +:+ escape (password ui) encodeUserPassword
       else "").

Definition isSome {A : Type} (o : option A) : bool :=
  match o with Some _ => true | None => false end.

(** [u.String()]: the pieces are appended in the order the source
    writes them to its buffer. *)
Definition String_ (u : URL) : string :=
  let buf1 := if nonEmpty (Scheme u) then Scheme u +:+ ":" else "" in
  let buf2 :=
    if nonEmpty (Opaque u) then buf1 +:+ Opaque u
    else
      let auth :=
        if nonEmpty (Scheme u) || nonEmpty (Host u) || isSome (User u) then
          if OmitHost u && String.eqb (Host u) "" && negb (isSome (User u)) then ""
          else
            (if nonEmpty (Host u) || nonEmpty (Path u) || isSome (User u)
             then "//" else "")
            +:+ match User u with
                | Some ui => Userinfo_String ui +:+ "@"
                | None => ""
                end
            +:+ (if nonEmpty (Host u) then escape (Host u) encodeHost else "")
        else "" in
      let path := EscapedPath u in
      let slash :=
        if nonEmpty path && negb (HasPrefix path "/") && nonEmpty (Host u)
        then "/" else "" in
      let buf := buf1 +:+ auth +:+ slash in
      let dot :=
        if String.eqb buf ""
           && Contains (let '(segment, _, _) := Cut path "/" in segment) ":"
        then "./" else "" in
      buf +:+ dot +:+ path in
  buf2
  +:+ (if ForceQuery u || nonEmpty (RawQuery u) then "?" +:+ RawQuery u else "")
  +:+ (if nonEmpty (Fragment u) then "#" +:+ EscapedFragment u else "").

(** [splitHostPort(hostPort)], the host half *)
Definition splitHost (hostPort : string) : string :=
  let host :=
    match LastIndex hostPort ":" with
    | Some colon =>
        if validOptionalPort (drop colon hostPort) then take colon hostPort
        else hostPort
    | None => hostPort
    end in
  if HasPrefix host "[" && HasSuffix host "]"
  then slice host 1 (String.length host - 1)
  else host.

(** [u.Hostname()] *)
Definition Hostname (u : URL) : string := splitHost (Host u).

(** One round of the loop of [resolvePath] on the element [elem]; the
    state is the buffer [dst] and the flag [first]. *)
Definition resolveStep (st : string * bool) (elem : string) : string * bool :=
  let '(dst, first) := st in
  if String.eqb elem "." then (dst, false)
  else if String.eqb elem ".." then
    let str := drop 1 dst in
    match LastIndex str "/" with
    | None => ("/", true)
    | Some index => ("/" +:+ take index str, first)
    end
  else ((if first then dst else dst +:+ "/") +:+ elem, false).

(** [resolvePath(base, ref)] *)
Definition resolvePath (base ref : string) : string :=
  let full :=
    if String.eqb ref "" then base
    else if negb (HasPrefix ref "/") then
      match LastIndex base "/" with
      | Some i => take (i + 1) base +:+ ref
      | None => ref
      end
    else ref in
  if String.eqb full "" then ""
  else
    let elems := Split full "/" in
    let '(dst, _) := fold_left resolveStep elems ("/", true) in
    let last_ := List.last elems "" in
    let dst' :=
      if String.eqb last_ "." || String.eqb last_ ".." then dst +:+ "/" else dst in
    if (1 <? String.length dst') && HasPrefix (drop 1 dst') "/" then drop 1 dst'
    else dst'.

(** [url.setPath(p)] with the error dropped, as [ResolveReference] calls
    it. *)
Definition setPath_ (u : URL) (p : string) : URL :=
  match setPath u p with Ok u' => u' | _ => u end.

(** [u.ResolveReference(ref)] *)
Definition ResolveReference (u ref : URL) : URL :=
  let scheme := if String.eqb (Scheme ref) "" then Scheme u else Scheme ref in
  if nonEmpty (Scheme ref) || nonEmpty (Host ref) || isSome (User ref) then
    setPath_ {| Scheme := scheme; Opaque := Opaque ref; User := User ref;
                Host := Host ref; Path := Path ref; RawPath := RawPath ref;
                OmitHost := OmitHost ref; ForceQuery := ForceQuery ref;
                RawQuery := RawQuery ref; Fragment := Fragment ref;
                RawFragment := RawFragment ref |}
             (resolvePath (EscapedPath ref) "")
  else if nonEmpty (Opaque ref) then
    {| Scheme := scheme; Opaque := Opaque ref; User := None; Host := "";
       Path := ""; RawPath := RawPath ref; OmitHost := OmitHost ref;
       ForceQuery := ForceQuery ref; RawQuery := RawQuery ref;
       Fragment := Fragment ref; RawFragment := RawFragment ref |}
  else
    let inherit :=
      String.eqb (Path ref) "" && negb (ForceQuery ref)
      && String.eqb (RawQuery ref) "" in
    let inheritFrag := inherit && String.eqb (Fragment ref) "" in
    setPath_ {| Scheme := scheme; Opaque := Opaque ref; User := User u;
                Host := Host u; Path := Path ref; RawPath := RawPath ref;
                OmitHost := OmitHost ref; ForceQuery := ForceQuery ref;
                RawQuery := if inherit then RawQuery u else RawQuery ref;
                Fragment := if inheritFrag then Fragment u else Fragment ref;
                RawFragment :=
                  if inheritFrag then RawFragment u else RawFragment ref |}
             (resolvePath (EscapedPath u) (EscapedPath ref)).

(** The method [u.Parse(ref)] *)
Definition ParseRef (u : URL) (ref : string) : result URL :=
  match Parse ref with
  | Ok refURL => Ok (ResolveReference u refURL)
  | other => other
  end.

End url.

(** ** Go's [unicode/utf8]: what a valid encoding is *)

Module utf8.

Definition between := strings.between.

(** The encoding of U+FFFD, the rune that decoding gives for a byte that
    is not part of a valid encoding. *)
Definition RuneError : string :=
  String (ascii_of_nat 239) (String (ascii_of_nat 191)
    (String (ascii_of_nat 189) EmptyString)).

(** A continuation byte. *)
Definition cont (c : ascii) : bool := between 128 191 c.

(** The first two bytes of a three-byte encoding: no overlong form, no
    surrogate. *)
Definition three (b0 b1 : ascii) : bool :=
  (between 224 224 b0 && between 160 191 b1)
  || (between 225 236 b0 && cont b1)
  || (between 237 237 b0 && between 128 159 b1)
  || (between 238 239 b0 && cont b1).

(** The first two bytes of a four-byte encoding: no overlong form,
    nothing above U+10FFFF. *)
Definition four (b0 b1 : ascii) : bool :=
  (between 240 240 b0 && between 144 191 b1)
  || (between 241 243 b0 && cont b1)
  || (between 244 244 b0 && between 128 143 b1).

(** [utf8.ValidString(s)] *)
Fixpoint ValidString (s : string) : bool :=
  match s with
  | EmptyString => true
  | String b0 s1 =>
      if Nat.ltb (nat_of_ascii b0) 128 then ValidString s1
      else
        match s1 with
        | String b1 s2 =>
            if between 194 223 b0 then cont b1 && ValidString s2
            else
              match s2 with
              | String b2 s3 =>
                  if three b0 b1 then cont b2 && ValidString s3
                  else
                    match s3 with
                    | String b3 s4 =>
                        four b0 b1 && cont b2 && cont b3 && ValidString s4
                    | EmptyString => false
                    end
              | EmptyString => false
              end
        | EmptyString => false
        end
  end.

End utf8.

(** ** Go's [regexp]: the syntax the scope pattern is written in, and
    [Match] *)

Module regexp.
Import strings.

(** Regular expressions over bytes.  [AnyNotNL] is the dot of the
    syntax, which does not match a newline; [AnyByte] is any byte at
    all. *)
Inductive Regexp : Type :=
| NoMatch
| EmptyMatch
| Literal (c : ascii)
| AnyNotNL
| AnyByte
| Concat (r1 r2 : Regexp)
| Alternate (r1 r2 : Regexp)
| Star (r : Regexp).

Definition Plus (r : Regexp) : Regexp := Concat r (Star r).
Definition Quest (r : Regexp) : Regexp := Alternate r EmptyMatch.

Definition isMeta (c : ascii) : bool := url.oneOf c "\.+*?()|[]{}^$".

(** The bytes an escape may quote: ASCII, not a letter or a digit. *)
Definition isPunct (c : ascii) : bool :=
  (nat_of_ascii c <? 128) && negb (url.isAlnum c).

(** A recursive-descent parser for the part of the syntax made of
    literals, [.], escaped punctuation, groups, [|] and the postfix
    operators [*], [+], [?] (with an optional non-greedy [?], which does
    not change what matches).  It yields [None] on a syntax error (a
    repetition with nothing to repeat, stacked repetitions, an unclosed
    group) and on the constructs left out: classes, counted repetition,
    anchors, flags, escapes of letters and digits.  [n] bounds the
    recursion depth. *)
Fixpoint parseAlt (n : nat) (s : string) : option (Regexp * string) :=
  match n with
  | 0 => None
  | S n' =>
      match parseCat n' s with
      | Some (r1, String c rest) =>
          if Ascii.eqb c "|" then
            match parseAlt n' rest with
            | Some (r2, rest') => Some (Alternate r1 r2, rest')
            | None => None
            end
          else Some (r1, String c rest)
      | other => other
      end
  end
with parseCat (n : nat) (s : string) : option (Regexp * string) :=
  match n with
  | 0 => None
  | S n' =>
      match s with
      | EmptyString => Some (EmptyMatch, s)
      | String c _ =>
          if Ascii.eqb c "|" || Ascii.eqb c ")" then Some (EmptyMatch, s)
          else
            match parseRepeat n' s with
            | Some (r1, rest) =>
                match parseCat n' rest with
                | Some (r2, rest') => Some (Concat r1 r2, rest')
                | None => None
                end
            | None => None
            end
      end
  end
with parseRepeat (n : nat) (s : string) : option (Regexp * string) :=
  match n with
  | 0 => None
  | S n' =>
      match parseAtom n' s with
      | Some (r, String c rest) =>
          if url.oneOf c "*+?" then
            let r' := if Ascii.eqb c "*" then Star r
                      else if Ascii.eqb c "+" then Plus r else Quest r in
            let rest' := if HasPrefix rest "?" then drop 1 rest else rest in
            match rest' with
            | String d _ => if url.oneOf d "*+?" then None else Some (r', rest')
            | EmptyString => Some (r', rest')
            end
          else Some (r, String c rest)
      | other => other
      end
  end
with parseAtom (n : nat) (s : string) : option (Regexp * string) :=
  match n with
  | 0 => None
  | S n' =>
      match s with
      | EmptyString => None
      | String c rest =>
          if Ascii.eqb c "(" then
            if HasPrefix rest "?" then None
            else
              match parseAlt n' rest with
              | Some (r, String d rest') =>
                  if Ascii.eqb d ")" then Some (r, rest') else None
              | _ => None
              end
          else if Ascii.eqb c "." then Some (AnyNotNL, rest)
          else if Ascii.eqb c "\" then
            match rest with
            | String d rest' => if isPunct d then Some (Literal d, rest') else None
            | EmptyString => None
            end
          else if isMeta c then None
          else Some (Literal c, rest)
      end
  end.

(** [regexp.Compile(expr)] on that part of the syntax.  The parser of
    the source decodes the pattern rune by rune and refuses one that is
    not valid UTF-8. *)
Definition Compile (expr : string) : option Regexp :=
  if utf8.ValidString expr then
    match parseAlt (4 * String.length expr + 8) expr with
    | Some (r, EmptyString) => Some r
    | _ => None
    end
  else None.

(** The patterns whose every construct is in the part of the syntax that
    [parseAlt] has, with the meaning it has there: none of the bytes
    [[]{}^$], no [(?], a backslash only before ASCII punctuation or at
    the end, a dot only before a star (the source matches runes, not
    bytes: [.*] is the same on both, a lone [.] is not), and no
    repetition right after a byte of a multi-byte rune. *)
Fixpoint inSyntax (s : string) : bool :=
  match s with
  | EmptyString => true
  | String c rest =>
      if Ascii.eqb c "\" then
        match rest with
        | String d rest' => isPunct d && inSyntax rest'
        | EmptyString => true
        end
      else if url.oneOf c "[]{}^$" then false
      else if Ascii.eqb c "(" then negb (HasPrefix rest "?") && inSyntax rest
      else if Ascii.eqb c "." then HasPrefix rest "*" && inSyntax rest
      else if Nat.leb 128 (nat_of_ascii c) then
        match rest with
        | String d _ => negb (url.oneOf d "*+?") && inSyntax rest
        | EmptyString => true
        end
      else inSyntax rest
  end.

(** The longest pattern taken as covered.  The parser of the source
    gives up on an expression that nests deeper than 1000 or grows too
    large, which it starts to check at 1000 nodes of the syntax tree; a
    pattern of this length stays below that. *)
Definition maxPattern : nat := 256.

(** The patterns on which [Compile] is the source's [regexp.Compile],
    and [Match] on the compiled expression the source's [Match]: those
    that are not valid UTF-8, which both refuse, and those within the
    syntax above that are not too long and have no U+FFFD in them (which
    the source also matches against a byte of the input that is not
    valid UTF-8). *)
Definition covered (expr : string) : bool :=
  negb (utf8.ValidString expr)
  || (Nat.leb (String.length expr) maxPattern && inSyntax expr
      && negb (Contains expr utf8.RuneError)).

Fixpoint nullable (r : Regexp) : bool :=
  match r with
  | NoMatch | Literal _ | AnyNotNL | AnyByte => false
  | EmptyMatch | Star _ => true
  | Concat r1 r2 => nullable r1 && nullable r2
  | Alternate r1 r2 => nullable r1 || nullable r2
  end.

Fixpoint eqb (r s : Regexp) : bool :=
  match r, s with
  | NoMatch, NoMatch | EmptyMatch, EmptyMatch
  | AnyNotNL, AnyNotNL | AnyByte, AnyByte => true
  | Literal c, Literal d => Ascii.eqb c d
  | Concat r1 r2, Concat s1 s2 | Alternate r1 r2, Alternate s1 s2 =>
      eqb r1 s1 && eqb r2 s2
  | Star r1, Star s1 => eqb r1 s1
  | _, _ => false
  end.

Definition mkConcat (r1 r2 : Regexp) : Regexp :=
  match r1, r2 with
  | NoMatch, _ | _, NoMatch => NoMatch
  | EmptyMatch, r | r, EmptyMatch => r
  | _, _ => Concat r1 r2
  end.

Definition mkAlternate (r1 r2 : Regexp) : Regexp :=
  match r1, r2 with
  | NoMatch, r | r, NoMatch => r
  | _, _ => if eqb r1 r2 then r1 else Alternate r1 r2
  end.

(** The derivative of [r] by the byte [c]. *)
Fixpoint deriv (c : ascii) (r : Regexp) : Regexp :=
  match r with
  | NoMatch | EmptyMatch => NoMatch
  | Literal d => if Ascii.eqb c d then EmptyMatch else NoMatch
  | AnyNotNL => if Ascii.eqb c "010" then NoMatch else EmptyMatch
  | AnyByte => EmptyMatch
  | Concat r1 r2 =>
      if nullable r1 then mkAlternate (mkConcat (deriv c r1) r2) (deriv c r2)
      else mkConcat (deriv c r1) r2
  | Alternate r1 r2 => mkAlternate (deriv c r1) (deriv c r2)
  | Star r1 => mkConcat (deriv c r1) (Star r1)
  end.

(** [r] matches the whole of [s]. *)
Fixpoint matches (r : Regexp) (s : string) : bool :=
  match s with
  | EmptyString => nullable r
  | String c s' => matches (deriv c r) s'
  end.

(** [re.Match(b)]: [b] contains a match of [re] somewhere. *)
Definition Match (re : Regexp) (b : string) : bool :=
  matches (Concat (Star AnyByte) (Concat re (Star AnyByte))) b.

End regexp.

(** ** The program's own type, and [encoding/json] on it *)

Record Result : Type := {
  Source : string;
  URL : string
}.

Module json.
Import strings.

Definition cont (c : ascii) : bool := between 128 191 c.

(** The size of the well-formed UTF-8 sequence at the head of [s], as
    [utf8.DecodeRuneInString] accepts it; [0] when the head is not
    one. *)
Definition runeLen (s : string) : nat :=
  match s with
  | String a (String b rest) =>
      if between 194 223 a && cont b then 2
      else
        match rest with
        | String c rest' =>
            if (isByte 224 a && between 160 191 b
                || (between 225 236 a || between 238 239 a) && cont b
                || isByte 237 a && between 128 159 b) && cont c then 3
            else
              match rest' with
              | String d _ =>
                  if (isByte 240 a && between 144 191 b
                      || between 241 243 a && cont b
                      || isByte 244 a && between 128 143 b) && cont c && cont d
                  then 4 else 0
              | EmptyString => 0
              end
        | EmptyString => 0
        end
  | _ => 0
  end.

Definition lowerhex (n : nat) : ascii :=
  if n <? 10 then ascii_of_nat (48 + n) else ascii_of_nat (97 + (n - 10)).

(** [htmlSafeSet[b]] for [b < 0x80] *)
Definition htmlSafe (c : ascii) : bool :=
  (32 <=? nat_of_ascii c) && negb (url.oneOf c "\<>&" || Ascii.eqb c url.dquote).

(** The body of the loop of the string encoder with [escapeHTML] set (Go
    before 1.22; later releases also shorten the bytes 8 and 12, which a
    URL never holds).  [skip] counts the bytes of a multi-byte rune still
    to copy. *)
Fixpoint encodeBytes (s : string) (skip : nat) : string :=
  match s with
  | EmptyString => ""
  | String c rest =>
      match skip with
      | S k => String c (encodeBytes rest k)
      | 0 =>
          if nat_of_ascii c <? 128 then
            (if htmlSafe c then String c ""
             else if Ascii.eqb c "\" || Ascii.eqb c url.dquote then String "\" (String c "")
             else if Ascii.eqb c "010" then "\n"
             else if Ascii.eqb c "013" then "\r"
             else if Ascii.eqb c "009" then "\t"
             else "\u00" +:+ String (lowerhex (nat_of_ascii c / 16))
                                (String (lowerhex (nat_of_ascii c mod 16)) ""))
            +:+ encodeBytes rest 0
          else
            match runeLen s with
            | 0 => "\ufffd" +:+ encodeBytes rest 0
            | S k =>
                if HasPrefix s (String (ascii_of_nat 226) (String (ascii_of_nat 128)
                                  (String (ascii_of_nat 168) "")))
                then "\u2028" +:+ encodeBytes rest 2
                else if HasPrefix s (String (ascii_of_nat 226) (String (ascii_of_nat 128)
                                       (String (ascii_of_nat 169) "")))
                then "\u2029" +:+ encodeBytes rest 2
                else String c (encodeBytes rest k)
            end
      end
  end.

Definition quote (s : string) : string :=
  String url.dquote (encodeBytes s 0) +:+ String url.dquote "".

(** [json.Marshal(Result{...})], which cannot fail on two strings. *)
Definition Marshal (r : Result) : string :=
  "{" +:+ quote "Source" +:+ ":" +:+ quote (Source r) +:+ ","
  +:+ quote "URL" +:+ ":" +:+ quote (URL r) +:+ "}".

End json.

(** ** Go's [int] *)

(** A 64-bit [int]: arithmetic wraps around. *)
Definition wrap64 (z : Z) : Z := ((z + 2 ^ 63) mod 2 ^ 64 - 2 ^ 63)%Z.

(** ** colly v2, as far as the program configures and calls it *)

Module colly.
Import strings.

Inductive Error : Type :=
| ErrMissingURL
| ErrMaxDepth
| ErrForbiddenURL
| ErrNoURLFiltersMatch
| ErrForbiddenDomain
| ErrAlreadyVisited
| ErrParse (msg : string).

(** The fields of [Collector] that the program sets or that decide
    whether a request is made.  A nil slice and an empty one are the
    empty list: the library tests them alike. *)
Record Collector : Type := {
  UserAgent : string;
  Headers : option (gmap string string);
  MaxDepth : Z;
  AllowedDomains : list string;
  DisallowedDomains : list string;
  DisallowedURLFilters : list regexp.Regexp;
  URLFilters : list regexp.Regexp;
  AllowURLRevisit : bool;
  MaxBodySize : Z;
  Async : bool;
  Parallelism : Z;
  (** [redirectHandler != nil]; the one handler the program installs
      answers [http.ErrUseLastResponse]. *)
  redirectHandler : bool
}.

(** [NewCollector()] before its options: the values [Init] sets. *)
Definition NewCollector : Collector :=
  {| UserAgent := "colly - https://github.com/gocolly/colly/v2";
     Headers := None; MaxDepth := 0; AllowedDomains := [];
     DisallowedDomains := []; DisallowedURLFilters := []; URLFilters := [];
     AllowURLRevisit := false; MaxBodySize := 10 * 1024 * 1024;
     Async := false; Parallelism := 0; redirectHandler := false |}.

Record Request : Type := {
  URL : url.URL;
  Depth : Z;
  (** set from a [<base href>] of the page, nil otherwise *)
  baseURL : option url.URL
}.

Definition inList (x : string) (xs : list string) : bool :=
  existsb (String.eqb x) xs.

(** [c.isDomainAllowed(domain)] *)
Definition isDomainAllowed (c : Collector) (domain : string) : bool :=
  if inList domain (DisallowedDomains c) then false
  else match AllowedDomains c with
       | [] => true
       | ds => inList domain ds
       end.

(** [isMatchingFilter(fs, d)] *)
Definition isMatchingFilter (fs : list regexp.Regexp) (d : string) : bool :=
  existsb (fun r => regexp.Match r d) fs.

(** [c.requestCheck(u, "GET", depth, true)]: the error, or the visited
    store with [u] added.  The store keeps a 64-bit hash of [u]; it is
    modelled by the set of the URLs themselves. *)
Definition requestCheck (c : Collector) (visited : gset string) (u : string)
    (depth : Z) : Error + gset string :=
  if String.eqb u "" then inl ErrMissingURL
  else if ((0 <? MaxDepth c) && (MaxDepth c <? depth))%Z then inl ErrMaxDepth
  else if negb (Nat.eqb (length (DisallowedURLFilters c)) 0)
          && isMatchingFilter (DisallowedURLFilters c) u then inl ErrForbiddenURL
  else if negb (Nat.eqb (length (URLFilters c)) 0)
          && negb (isMatchingFilter (URLFilters c) u) then inl ErrNoURLFiltersMatch
  else if negb (AllowURLRevisit c) then
    if bool_decide (u ∈ visited) then inl ErrAlreadyVisited
    else inr ({[u]} ∪ visited)
  else inr visited.

Definition withScheme (u : url.URL) (scheme : string) : url.URL :=
  {| url.Scheme := scheme; url.Opaque := url.Opaque u; url.User := url.User u;
     url.Host := url.Host u; url.Path := url.Path u; url.RawPath := url.RawPath u;
     url.OmitHost := url.OmitHost u; url.ForceQuery := url.ForceQuery u;
     url.RawQuery := url.RawQuery u; url.Fragment := url.Fragment u;
     url.RawFragment := url.RawFragment u |}.

Definition withoutFragment (u : url.URL) : url.URL :=
  {| url.Scheme := url.Scheme u; url.Opaque := url.Opaque u; url.User := url.User u;
     url.Host := url.Host u; url.Path := url.Path u; url.RawPath := url.RawPath u;
     url.OmitHost := url.OmitHost u; url.ForceQuery := url.ForceQuery u;
     url.RawQuery := url.RawQuery u; url.Fragment := "";
     url.RawFragment := url.RawFragment u |}.

(** [c.store.Visited(uHash)], the call with which [requestCheck] ends
    when [c.store.IsVisited(uHash)] has answered no.  The store locks
    each of the two calls by itself, not the pair. *)
Definition markVisited (c : Collector) (visited : gset string) (u : string)
  : gset string :=
  if AllowURLRevisit c then visited else {[u]} ∪ visited.

(** [c.scrape] after [requestCheck], up to the point where it starts
    the fetch ([wg.Add(1); go c.fetch(...)]): the error it returns, or
    the request it makes. *)
Definition request (c : Collector) (u : string) (depth : Z) : Error + Request :=
  match url.Parse u with
  | Ok parsed =>
      let parsedURL :=
        if String.eqb (url.Scheme parsed) "" then withScheme parsed "http"
        else parsed in
      if negb (isDomainAllowed c (url.Hostname parsedURL)) then
        inl ErrForbiddenDomain
      else inr {| URL := parsedURL; Depth := depth; baseURL := None |}
  | Err e | Panic e => inl (ErrParse e)
  end.

(** [c.scrape(u, "GET", depth, nil, ctx, nil, true)] when nothing else
    touches the store meanwhile: the error it returns, or the request it
    makes, and the visited store after it.  The program leaves
    [IgnoreRobotsTxt] at its default [true]. *)
Definition scrape (c : Collector) (visited : gset string) (u : string)
    (depth : Z) : (Error + Request) * gset string :=
  match requestCheck c visited u depth with
  | inl e => (inl e, visited)
  | inr visited' => (request c u depth, visited')
  end.

(** [r.AbsoluteURL(u)] *)
Definition AbsoluteURL (r : Request) (u : string) : string :=
  if HasPrefix u "#" then ""
  else
    let base := match baseURL r with Some b => b | None => URL r end in
    match url.ParseRef base u with
    | Ok absURL =>
        let absURL := withoutFragment absURL in
        url.String_ (if String.eqb (url.Scheme absURL) "//"
                     then withScheme absURL (url.Scheme (URL r)) else absURL)
    | _ => ""
    end.

(** [c.Visit(URL)]: the seed is scraped at depth 1. *)
Definition Visit (c : Collector) (visited : gset string) (URL : string)
  : (Error + Request) * gset string :=
  scrape c visited URL 1.

(** [r.Visit(URL)] *)
Definition Request_Visit (c : Collector) (visited : gset string) (r : Request)
    (URL : string) : (Error + Request) * gset string :=
  scrape c visited (AbsoluteURL r URL) (wrap64 (Depth r + 1)).

(** What [checkRedirectFunc] lets the HTTP client do with a redirect to
    [target]: [true] when it is followed. *)
Definition followsRedirect (c : Collector) (target : url.URL) : bool :=
  isDomainAllowed c (url.Hostname target) && negb (redirectHandler c).

End colly.

(** ** hakrawler: start-up, scope and the [OnHTML] callbacks *)

(** The command-line flags, by the names of the variables of [main]. *)
Record Flags : Type := {
  urll : string;
  threads : Z;
  depth : Z;
  maxSize : Z;
  insecure : bool;
  subsInScope : bool;
  showJson : bool;
  showSource : bool;
  rawHeaders : string;
  unique : bool;
  proxy : string;
  timeout : Z;
  disableRedirects : bool
}.

(** [extractHostname(urlString)] *)
Definition extractHostname (urlString : string) : result string :=
  match url.Parse urlString with
  | Ok u => Ok (url.Hostname u)
  | Err e => Err e
  | Panic e => Panic e
  end.

(** [allowed_domains]: the hostname, and the value of a [Host] header
    when the map is not nil and has one. *)
Definition allowed_domains (headers : Headers) (hostname : string) : list string :=
  [hostname] ++
  match headers with
  | Some m => match m !! "Host" with Some val => [val] | None => [] end
  | None => []
  end.

(** The argument of [regexp.MustCompile]. *)
Definition scopePattern (hostname : string) : string :=
  ".*(\.|\/\/)" +:+ strings.ReplaceAll1 hostname "." "\." +:+ "((#|\/|\?).*)?".

(** The collector as [main] configures it, up to [c.Limit].
    [regexp.MustCompile] panics on a pattern that does not compile. *)
Definition newCollector (f : Flags) (headers : Headers) (hostname : string)
  : result colly.Collector :=
  let c0 := colly.NewCollector in
  let filters :=
    if subsInScope f then
      match regexp.Compile (scopePattern hostname) with
      | Some re => Ok [re]
      | None => Panic "regexp: Compile"
      end
    else Ok (colly.URLFilters c0) in
  match filters with
  | Ok fs =>
      Ok {| colly.UserAgent :=
              "Mozilla/5.0 (Windows NT 10.0; Win64; x64) AppleWebKit/537.36 (KHTML, like Gecko) Chrome/104.0.0.0 Safari/537.36";
            colly.Headers := headers;
            colly.MaxDepth := depth f;
            colly.AllowedDomains :=
              if subsInScope f then [] else allowed_domains headers hostname;
            colly.DisallowedDomains := colly.DisallowedDomains c0;
            colly.DisallowedURLFilters := colly.DisallowedURLFilters c0;
            colly.URLFilters := fs;
            colly.AllowURLRevisit := colly.AllowURLRevisit c0;
            colly.MaxBodySize :=
              if (maxSize f =? -1)%Z then colly.MaxBodySize c0
              else wrap64 (maxSize f * 1024);
            colly.Async := true;
            colly.Parallelism := threads f;
            colly.redirectHandler := disableRedirects f |}
  | Err e => Err e
  | Panic e => Panic e
  end.

(** What a callback does, in order: it sends a line on [results], or it
    asks the collector to visit a link.  [Visiting u depth] is a visit
    under way: [requestCheck] has found [u] unvisited and has not yet
    marked it. *)
Inductive effect : Type :=
| Send (line : string)
| Visit (link : string)
| Visiting (u : string) (depth : Z).

(** [printResult] up to its send: the line it builds, [None] when the
    absolute URL is empty. *)
Definition resultLine (link sourceName : string) (showSource showJson : bool)
    (r : colly.Request) : option string :=
  let result := colly.AbsoluteURL r link in
  if negb (String.eqb result "") then
    Some (if showJson then json.Marshal {| Source := sourceName; URL := result |}
          else if showSource then "[" +:+ sourceName +:+ "] " +:+ result
          else result)
  else None.

(** [printResult(link, sourceName, showSource, showJson, results, e)] *)
Definition printResult (link sourceName : string) (showSource showJson : bool)
    (r : colly.Request) : list effect :=
  match resultLine link sourceName showSource showJson r with
  | Some line => [Send line]
  | None => []
  end.

(** The three selectors registered with [c.OnHTML]. *)
Inductive Selector : Type :=
| a_href
| script_src
| form_action.

(** The callback of a selector on an element whose attribute ([href],
    [src], [action]) has the value [attr], on the page of request [r]. *)
Definition onHTML (f : Flags) (sel : Selector) (r : colly.Request) (attr : string)
  : list effect :=
  match sel with
  | a_href => printResult attr "href" (showSource f) (showJson f) r ++ [Visit attr]
  | script_src => printResult attr "script" (showSource f) (showJson f) r
  | form_action => printResult attr "form" (showSource f) (showJson f) r
  end.

(** The elements of a parsed page that the selectors match, each list in
    document order, by the value of the selected attribute. *)
Record Page : Type := {
  hrefs : list string;
  srcs : list string;
  actions : list string
}.

(** The attribute values that a selector picks on a page. *)
Definition selected (sel : Selector) (p : Page) : list string :=
  match sel with
  | a_href => hrefs p
  | script_src => srcs p
  | form_action => actions p
  end.

(** The callbacks run in the order they were registered, each over all
    the elements it matches. *)
Definition pageEffects (f : Flags) (r : colly.Request) (p : Page) : list effect :=
  concat (map (onHTML f a_href r) (hrefs p))
  ++ concat (map (onHTML f script_src r) (srcs p))
  ++ concat (map (onHTML f form_action r) (actions p)).

(** ** The consumer: [isUnique] and the two [range] loops *)

(** [isUnique(url)] on the map [sm]: the answer and the map after it. *)
Definition isUnique (url : string) (sm : gset string) : bool * gset string :=
  if bool_decide (url ∈ sm) then (false, sm) else (true, {[url]} ∪ sm).

(** One receive of [for res := range results]: the map and the lines
    written to [w] after it.  With [*unique] the first loop takes every
    value, and the second finds the channel closed and empty. *)
Definition consume (uniq : bool) (st : gset string * list string) (res : string)
  : gset string * list string :=
  let '(sm, out) := st in
  if uniq then
    let '(fresh, sm') := isUnique res sm in
    (sm', if fresh then out ++ [res] else out)
  else (sm, out ++ [res]).

(** The lines written for the values received, in order. *)
Definition written (uniq : bool) (received : list string) : list string :=
  snd (fold_left (consume uniq) received (∅, [])).

(** ** The goroutines around the [results] channel *)

(** Where the goroutine started by [main] stands. *)
Inductive SupPC : Type :=
| SupReturned     (* [extractHostname] failed: logged, returned *)
| SupStart        (* before [if *timeout == -1] *)
| SupMark         (* in [c.Visit(url)], the seed found unvisited *)
| SupWait         (* in [c.Wait()], no timeout *)
| SupSelect       (* in the [select] *)
| SupClose        (* before [close(results)] *)
| SupDone.

(** Where the goroutine of the timeout branch stands. *)
Inductive InnerPC : Type :=
| InnerNone
| InnerStart      (* before [c.Visit(url)] *)
| InnerMark       (* in [c.Visit(url)], the seed found unvisited *)
| InnerWait       (* in [c.Wait()] *)
| InnerSent       (* after [finished <- 0] *)
| InnerDone.      (* its value was received *)

(** A fetch goroutine of the collector: its request, and the effects of
    the callbacks it still has to run, [None] while the response is
    awaited. *)
Record Worker : Type := {
  req : colly.Request;
  todo : option (list effect)
}.

(** The shared state: the two goroutines of [main], the collector's
    fetch goroutines (the wait group counts them), its visited store, the
    requests made so far with their depths, the buffer of [results] and
    whether it is closed, how often [close(results)] ran, the lines whose
    send found the channel closed (the panic [printResult] recovers from),
    the map [sm], the lines written to standard output, the exit code once
    [main] has returned, and whether a panic went unrecovered. *)
Record State : Type := {
  sup : SupPC;
  inner : InnerPC;
  workers : list Worker;
  visited : gset string;
  fetched : list (url.URL * Z);
  results : list string;
  closed : bool;
  closes : nat;
  lateSends : list string;
  sm : gset string;
  stdout : list string;
  exited : option Z;
  panicked : bool
}.

Definition set_sup (v : SupPC) (s : State) : State :=
  {| sup := v; inner := inner s; workers := workers s; visited := visited s; fetched := fetched s; results := results s; closed := closed s; closes := closes s; lateSends := lateSends s; sm := sm s; stdout := stdout s; exited := exited s; panicked := panicked s |}.

Definition set_inner (v : InnerPC) (s : State) : State :=
  {| sup := sup s; inner := v; workers := workers s; visited := visited s; fetched := fetched s; results := results s; closed := closed s; closes := closes s; lateSends := lateSends s; sm := sm s; stdout := stdout s; exited := exited s; panicked := panicked s |}.

Definition set_workers (v : list Worker) (s : State) : State :=
  {| sup := sup s; inner := inner s; workers := v; visited := visited s; fetched := fetched s; results := results s; closed := closed s; closes := closes s; lateSends := lateSends s; sm := sm s; stdout := stdout s; exited := exited s; panicked := panicked s |}.

Definition set_visited (v : gset string) (s : State) : State :=
  {| sup := sup s; inner := inner s; workers := workers s; visited := v; fetched := fetched s; results := results s; closed := closed s; closes := closes s; lateSends := lateSends s; sm := sm s; stdout := stdout s; exited := exited s; panicked := panicked s |}.

Definition set_fetched (v : list (url.URL * Z)) (s : State) : State :=
  {| sup := sup s; inner := inner s; workers := workers s; visited := visited s; fetched := v; results := results s; closed := closed s; closes := closes s; lateSends := lateSends s; sm := sm s; stdout := stdout s; exited := exited s; panicked := panicked s |}.

Definition set_results (v : list string) (s : State) : State :=
  {| sup := sup s; inner := inner s; workers := workers s; visited := visited s; fetched := fetched s; results := v; closed := closed s; closes := closes s; lateSends := lateSends s; sm := sm s; stdout := stdout s; exited := exited s; panicked := panicked s |}.

Definition set_closed (v : bool) (s : State) : State :=
  {| sup := sup s; inner := inner s; workers := workers s; visited := visited s; fetched := fetched s; results := results s; closed := v; closes := closes s; lateSends := lateSends s; sm := sm s; stdout := stdout s; exited := exited s; panicked := panicked s |}.

Definition set_closes (v : nat) (s : State) : State :=
  {| sup := sup s; inner := inner s; workers := workers s; visited := visited s; fetched := fetched s; results := results s; closed := closed s; closes := v; lateSends := lateSends s; sm := sm s; stdout := stdout s; exited := exited s; panicked := panicked s |}.

Definition set_lateSends (v : list string) (s : State) : State :=
  {| sup := sup s; inner := inner s; workers := workers s; visited := visited s; fetched := fetched s; results := results s; closed := closed s; closes := closes s; lateSends := v; sm := sm s; stdout := stdout s; exited := exited s; panicked := panicked s |}.

Definition set_sm (v : gset string) (s : State) : State :=
  {| sup := sup s; inner := inner s; workers := workers s; visited := visited s; fetched := fetched s; results := results s; closed := closed s; closes := closes s; lateSends := lateSends s; sm := v; stdout := stdout s; exited := exited s; panicked := panicked s |}.

Definition set_stdout (v : list string) (s : State) : State :=
  {| sup := sup s; inner := inner s; workers := workers s; visited := visited s; fetched := fetched s; results := results s; closed := closed s; closes := closes s; lateSends := lateSends s; sm := sm s; stdout := v; exited := exited s; panicked := panicked s |}.

Definition set_exited (v : option Z) (s : State) : State :=
  {| sup := sup s; inner := inner s; workers := workers s; visited := visited s; fetched := fetched s; results := results s; closed := closed s; closes := closes s; lateSends := lateSends s; sm := sm s; stdout := stdout s; exited := v; panicked := panicked s |}.

Definition set_panicked (v : bool) (s : State) : State :=
  {| sup := sup s; inner := inner s; workers := workers s; visited := visited s; fetched := fetched s; results := results s; closed := closed s; closes := closes s; lateSends := lateSends s; sm := sm s; stdout := stdout s; exited := exited s; panicked := v |}.


(** The state after [c.Visit(url)] or [e.Request.Visit(link)] returned
    [res]: a request that passed the checks is fetched by a new goroutine. *)
Definition afterScrape (res : (colly.Error + colly.Request) * gset string)
    (s : State) : State :=
  let s := set_visited (snd res) s in
  match fst res with
  | inl _ => s
  | inr r =>
      set_workers (workers s ++ [{| req := r; todo := None |}])
        (set_fetched (fetched s ++ [(colly.URL r, colly.Depth r)]) s)
  end.

(** [workers[i] = w] *)
Definition setWorker (i : nat) (w : Worker) (s : State) : State :=
  set_workers (<[i := w]> (workers s)) s.

Definition withURL (r : colly.Request) (u : url.URL) (base : option url.URL)
  : colly.Request :=
  {| colly.URL := u; colly.Depth := colly.Depth r; colly.baseURL := base |}.

(** [e.Request.Visit(link)] up to the answer of [c.store.IsVisited]: on
    an error the visit is over, otherwise it goes on with the absolute
    URL and the depth it has computed. *)
Definition visitChecked (c : colly.Collector) (visited : gset string)
    (r : colly.Request) (link : string) : list effect :=
  let u := colly.AbsoluteURL r link in
  let d := wrap64 (colly.Depth r + 1) in
  match colly.requestCheck c visited u d with
  | inl _ => []
  | inr _ => [Visiting u d]
  end.

(** The consumer takes [res] from the channel. *)
Definition receive (uniq : bool) (res : string) (s : State) : State :=
  let st := consume uniq (sm s, stdout s) res in
  set_sm (fst st) (set_stdout (snd st) s).

Section steps.
Variable f : Flags.
Variable c : colly.Collector.

(** One atomic step of one goroutine.  Nothing runs once [main] has
    returned or a panic has ended the process.  A visit is two steps,
    since the fetch goroutines run their callbacks side by side and the
    visited store is locked for one call at a time: the checks of
    [requestCheck] up to the answer of [c.store.IsVisited], then
    [c.store.Visited] and the rest of [c.scrape], on the store as it is
    by then. *)
Inductive step : State -> State -> Prop :=
(* the goroutine of main, without timeout: c.Visit(url), the checks *)
| step_visit s :
    sup s = SupStart -> timeout f = (-1)%Z ->
    step s (set_sup (match colly.requestCheck c (visited s) (urll f) 1 with
                     | inl _ => SupWait
                     | inr _ => SupMark
                     end) s)
(* c.Visit(url), from c.store.Visited on *)
| step_visit_mark s :
    sup s = SupMark ->
    step s (set_sup SupWait
              (afterScrape (colly.request c (urll f) 1,
                            colly.markVisited c (visited s) (urll f)) s))
(* c.Wait() returns when no fetch is left *)
| step_wait s :
    sup s = SupWait -> workers s = [] ->
    step s (set_sup SupClose s)
(* with a timeout: go func() {...}() *)
| step_spawn s :
    sup s = SupStart -> timeout f <> (-1)%Z ->
    step s (set_sup SupSelect (set_inner InnerStart s))
| step_inner_visit s :
    inner s = InnerStart ->
    step s (set_inner (match colly.requestCheck c (visited s) (urll f) 1 with
                       | inl _ => InnerWait
                       | inr _ => InnerMark
                       end) s)
| step_inner_mark s :
    inner s = InnerMark ->
    step s (set_inner InnerWait
              (afterScrape (colly.request c (urll f) 1,
                            colly.markVisited c (visited s) (urll f)) s))
(* c.Wait(); finished <- 0 *)
| step_inner_wait s :
    inner s = InnerWait -> workers s = [] ->
    step s (set_inner InnerSent s)
(* case <-finished: close(finished) *)
| step_finished s :
    sup s = SupSelect -> inner s = InnerSent ->
    step s (set_sup SupClose (set_inner InnerDone s))
(* case <-time.After(...) *)
| step_timeout s :
    sup s = SupSelect ->
    step s (set_sup SupClose s)
(* close(results); closing a closed channel panics *)
| step_close s :
    sup s = SupClose ->
    step s (set_sup SupDone
              (if closed s then set_panicked true s
               else set_closed true (set_closes (S (closes s)) s)))
(* a response arrives: the redirects followed, the base, the page *)
| step_response s i w hops base page r :
    workers s !! i = Some w -> todo w = None ->
    Forall (fun h => colly.followsRedirect c h = true) hops ->
    r = withURL (req w) (List.last hops (colly.URL (req w))) base ->
    step s (setWorker i {| req := r; todo := Some (pageEffects f r page) |}
              (set_fetched (fetched s ++ map (fun h => (h, colly.Depth r)) hops) s))
(* results <- result, buffer not full *)
| step_send s i w line rest :
    workers s !! i = Some w -> todo w = Some (Send line :: rest) ->
    closed s = false -> (Z.of_nat (length (results s)) < threads f)%Z ->
    step s (setWorker i {| req := req w; todo := Some rest |}
              (set_results (results s ++ [line]) s))
(* results <- result, handed to the waiting receiver *)
| step_handoff s i w line rest :
    workers s !! i = Some w -> todo w = Some (Send line :: rest) ->
    closed s = false -> results s = [] ->
    step s (setWorker i {| req := req w; todo := Some rest |}
              (receive (unique f) line s))
(* results <- result on the closed channel: panic, recovered *)
| step_late_send s i w line rest :
    workers s !! i = Some w -> todo w = Some (Send line :: rest) ->
    closed s = true ->
    step s (setWorker i {| req := req w; todo := Some rest |}
              (set_lateSends (lateSends s ++ [line]) s))
(* e.Request.Visit(link), the checks *)
| step_link s i w link rest :
    workers s !! i = Some w -> todo w = Some (Visit link :: rest) ->
    step s (setWorker i {| req := req w;
                           todo := Some (visitChecked c (visited s) (req w) link
                                         ++ rest) |} s)
(* e.Request.Visit(link), from c.store.Visited on *)
| step_link_mark s i w u d rest :
    workers s !! i = Some w -> todo w = Some (Visiting u d :: rest) ->
    step s (afterScrape (colly.request c u d, colly.markVisited c (visited s) u)
              (setWorker i {| req := req w; todo := Some rest |} s))
(* the fetch goroutine ends: wg.Done() *)
| step_done s i w :
    workers s !! i = Some w -> todo w = Some [] ->
    step s (set_workers (delete i (workers s)) s)
(* for res := range results *)
| step_recv s res rest :
    results s = res :: rest ->
    step s (set_results rest (receive (unique f) res s))
(* the channel is closed and drained: main returns *)
| step_exit s :
    results s = [] -> closed s = true ->
    step s (set_exited (Some 0%Z) s).

(** A step of the running process. *)
Definition run_step (s s' : State) : Prop :=
  exited s = None /\ panicked s = false /\ step s s'.

End steps.

(** ** [main] up to the crawl *)

(** The state in which the goroutine of [main] starts. *)
Definition initial (pc : SupPC) : State :=
  {| sup := pc; inner := InnerNone; workers := []; visited := ∅;
     fetched := []; results := []; closed := false; closes := 0;
     lateSends := []; sm := ∅; stdout := []; exited := None;
     panicked := false |}.

(** [make(chan string, size)] does not panic.  The runtime's [makechan]
    panics when [size] is negative or the buffer, 16 bytes for each
    string, does not fit below [maxAlloc] together with the 96 bytes of
    the channel itself; [maxAlloc] is [2^48] on the 64-bit platforms with
    48 address bits, [linux/amd64] among them.  The allocation itself is
    taken to succeed: running out of memory is a fatal error of the
    runtime that is left out here. *)
Definition chanSizeOK (size : Z) : bool :=
  ((0 <=? size) && (16 * size <=? 2 ^ 48 - 96))%Z.

(** How [main] gets to the crawl: [os.Exit] after a header error, an
    unrecovered panic ([make] with a size out of range, [MustCompile]),
    the goroutine returning right after [log.Println] when the seed does
    not parse, or the crawl with the collector configured.  [Uncovered]
    stands for a [-subs] pattern outside the part of the syntax of
    regular expressions that is modelled: nothing is said of such a
    run. *)
Inductive Startup : Type :=
| Exit (code : Z)
| Crash (msg : string)
| Returned
| Uncovered
| Crawl (headers : Headers) (hostname : string) (c : colly.Collector).

Definition main_startup (f : Flags) : Startup :=
  match parseHeaders (rawHeaders f) None with
  | Err _ => Exit 1
  | Panic e => Crash e
  | Ok headers =>
      if negb (chanSizeOK (threads f)) then Crash "makechan: size out of range"
      else
        match extractHostname (urll f) with
        | Err _ => Returned
        | Panic e => Crash e
        | Ok hostname =>
            if subsInScope f && negb (regexp.covered (scopePattern hostname))
            then Uncovered
            else
              match newCollector f headers hostname with
              | Ok c => Crawl headers hostname c
              | Err e | Panic e => Crash e
              end
        end
  end.

(** The states a run of the crawl goes through. *)
Definition reachable (f : Flags) (c : colly.Collector) (s : State) : Prop :=
  rtc (run_step f c) (initial SupStart) s.

(** The source of a selector, as the callbacks name it. *)
Definition sourceName (sel : Selector) : string :=
  match sel with
  | a_href => "href"
  | script_src => "script"
  | form_action => "form"
  end.

(** ** Schedules: runs written down step by step *)

#[global] Instance SupPC_eq_dec : EqDecision SupPC.
Proof. solve_decision. Defined.

#[global] Instance InnerPC_eq_dec : EqDecision InnerPC.
Proof. solve_decision. Defined.

(** The name of a step, with what the environment chooses in it. *)
Inductive action : Type :=
| AVisit
| AMark
| AWait
| ASpawn
| AInnerVisit
| AInnerMark
| AInnerWait
| AFinished
| ATimeout
| AClose
| AResponse (i : nat) (hops : list url.URL) (base : option url.URL) (page : Page)
| ASend (i : nat)
| AHandoff (i : nat)
| ALateSend (i : nat)
| ALink (i : nat)
| ALinkMark (i : nat)
| ADone (i : nat)
| ARecv
| AExit.

Definition guard (b : bool) (s : State) : option State :=
  if b then Some s else None.

(** The head effect of worker [i], with the worker and the effects after
    it. *)
Definition headEffect (i : nat) (s : State) : option (Worker * effect * list effect) :=
  match workers s !! i with
  | Some w =>
      match todo w with
      | Some (e :: rest) => Some (w, e, rest)
      | _ => None
      end
  | None => None
  end.

(** The state after the step named [a], when that step is enabled. *)
Definition act (f : Flags) (c : colly.Collector) (a : action) (s : State)
  : option State :=
  match a with
  | AVisit =>
      guard (bool_decide (sup s = SupStart) && (timeout f =? -1)%Z)
        (set_sup (match colly.requestCheck c (visited s) (urll f) 1 with
                  | inl _ => SupWait
                  | inr _ => SupMark
                  end) s)
  | AMark =>
      guard (bool_decide (sup s = SupMark))
        (set_sup SupWait
           (afterScrape (colly.request c (urll f) 1,
                         colly.markVisited c (visited s) (urll f)) s))
  | AWait =>
      guard (bool_decide (sup s = SupWait) && bool_decide (workers s = []))
        (set_sup SupClose s)
  | ASpawn =>
      guard (bool_decide (sup s = SupStart) && negb (timeout f =? -1)%Z)
        (set_sup SupSelect (set_inner InnerStart s))
  | AInnerVisit =>
      guard (bool_decide (inner s = InnerStart))
        (set_inner (match colly.requestCheck c (visited s) (urll f) 1 with
                    | inl _ => InnerWait
                    | inr _ => InnerMark
                    end) s)
  | AInnerMark =>
      guard (bool_decide (inner s = InnerMark))
        (set_inner InnerWait
           (afterScrape (colly.request c (urll f) 1,
                         colly.markVisited c (visited s) (urll f)) s))
  | AInnerWait =>
      guard (bool_decide (inner s = InnerWait) && bool_decide (workers s = []))
        (set_inner InnerSent s)
  | AFinished =>
      guard (bool_decide (sup s = SupSelect) && bool_decide (inner s = InnerSent))
        (set_sup SupClose (set_inner InnerDone s))
  | ATimeout =>
      guard (bool_decide (sup s = SupSelect)) (set_sup SupClose s)
  | AClose =>
      guard (bool_decide (sup s = SupClose))
        (set_sup SupDone
           (if closed s then set_panicked true s
            else set_closed true (set_closes (S (closes s)) s)))
  | AResponse i hops base page =>
      match workers s !! i with
      | Some w =>
          let r := withURL (req w) (List.last hops (colly.URL (req w))) base in
          guard (match todo w with None => true | Some _ => false end
                 && forallb (colly.followsRedirect c) hops)
            (setWorker i {| req := r; todo := Some (pageEffects f r page) |}
               (set_fetched (fetched s ++ map (fun h => (h, colly.Depth r)) hops) s))
      | None => None
      end
  | ASend i =>
      match headEffect i s with
      | Some (w, Send line, rest) =>
          guard (negb (closed s) && (Z.of_nat (length (results s)) <? threads f)%Z)
            (setWorker i {| req := req w; todo := Some rest |}
               (set_results (results s ++ [line]) s))
      | _ => None
      end
  | AHandoff i =>
      match headEffect i s with
      | Some (w, Send line, rest) =>
          guard (negb (closed s) && bool_decide (results s = []))
            (setWorker i {| req := req w; todo := Some rest |}
               (receive (unique f) line s))
      | _ => None
      end
  | ALateSend i =>
      match headEffect i s with
      | Some (w, Send line, rest) =>
          guard (closed s)
            (setWorker i {| req := req w; todo := Some rest |}
               (set_lateSends (lateSends s ++ [line]) s))
      | _ => None
      end
  | ALink i =>
      match headEffect i s with
      | Some (w, Visit link, rest) =>
          Some (setWorker i {| req := req w;
                               todo := Some (visitChecked c (visited s) (req w) link
                                             ++ rest) |} s)
      | _ => None
      end
  | ALinkMark i =>
      match headEffect i s with
      | Some (w, Visiting u d, rest) =>
          Some (afterScrape (colly.request c u d, colly.markVisited c (visited s) u)
                  (setWorker i {| req := req w; todo := Some rest |} s))
      | _ => None
      end
  | ADone i =>
      match workers s !! i with
      | Some w =>
          match todo w with
          | Some [] => Some (set_workers (delete i (workers s)) s)
          | _ => None
          end
      | None => None
      end
  | ARecv =>
      match results s with
      | res :: rest => Some (set_results rest (receive (unique f) res s))
      | [] => None
      end
  | AExit =>
      guard (bool_decide (results s = []) && closed s) (set_exited (Some 0%Z) s)
  end.

(** A schedule is run while the process lives. *)
Fixpoint exec (f : Flags) (c : colly.Collector) (acts : list action) (s : State)
  : option State :=
  match acts with
  | [] => Some s
  | a :: acts' =>
      match exited s, panicked s with
      | None, false =>
          match act f c a s with
          | Some s' => exec f c acts' s'
          | None => None
          end
      | _, _ => None
      end
  end.

(** ** Sample configurations *)

(** The defaults of the flags, with [-u http://h/]. *)
Definition flags0 : Flags :=
  {| urll := "http://h/"; threads := 8; depth := 2; maxSize := -1;
     insecure := false; subsInScope := false; showJson := false;
     showSource := false; rawHeaders := ""; unique := false; proxy := "";
     timeout := -1; disableRedirects := false |}.

Definition with_urll (u : string) (f : Flags) : Flags :=
  {| urll := u; threads := threads f; depth := depth f; maxSize := maxSize f;
     insecure := insecure f; subsInScope := subsInScope f;
     showJson := showJson f; showSource := showSource f;
     rawHeaders := rawHeaders f; unique := unique f; proxy := proxy f;
     timeout := timeout f; disableRedirects := disableRedirects f |}.

Definition with_depth (d : Z) (f : Flags) : Flags :=
  {| urll := urll f; threads := threads f; depth := d; maxSize := maxSize f;
     insecure := insecure f; subsInScope := subsInScope f;
     showJson := showJson f; showSource := showSource f;
     rawHeaders := rawHeaders f; unique := unique f; proxy := proxy f;
     timeout := timeout f; disableRedirects := disableRedirects f |}.

Definition with_timeout (t : Z) (f : Flags) : Flags :=
  {| urll := urll f; threads := threads f; depth := depth f; maxSize := maxSize f;
     insecure := insecure f; subsInScope := subsInScope f;
     showJson := showJson f; showSource := showSource f;
     rawHeaders := rawHeaders f; unique := unique f; proxy := proxy f;
     timeout := t; disableRedirects := disableRedirects f |}.

Definition with_subs (b : bool) (f : Flags) : Flags :=
  {| urll := urll f; threads := threads f; depth := depth f; maxSize := maxSize f;
     insecure := insecure f; subsInScope := b;
     showJson := showJson f; showSource := showSource f;
     rawHeaders := rawHeaders f; unique := unique f; proxy := proxy f;
     timeout := timeout f; disableRedirects := disableRedirects f |}.

Definition with_rawHeaders (h : string) (f : Flags) : Flags :=
  {| urll := urll f; threads := threads f; depth := depth f; maxSize := maxSize f;
     insecure := insecure f; subsInScope := subsInScope f;
     showJson := showJson f; showSource := showSource f;
     rawHeaders := h; unique := unique f; proxy := proxy f;
     timeout := timeout f; disableRedirects := disableRedirects f |}.

(** The collector of a configuration that gets as far as the crawl; the
    bare collector stands in for the others. *)
Definition collectorOf (f : Flags) : colly.Collector :=
  match main_startup f with
  | Crawl _ _ c => c
  | _ => colly.NewCollector
  end.

(** The request of a page at [u], at depth [d]. *)
Definition pageAt (u : string) (d : Z) : colly.Request :=
  {| colly.URL := match url.Parse u with Ok p => p | _ => url.zero end;
     colly.Depth := d; colly.baseURL := None |}.

Definition onePage (hs ss acts : list string) : Page :=
  {| hrefs := hs; srcs := ss; actions := acts |}.

(** The state a schedule leads to from the start of the crawl (the
    initial state when the schedule cannot be run). *)
Definition run (f : Flags) (acts : list action) : State :=
  default (initial SupStart) (exec f (collectorOf f) acts (initial SupStart)).

(** [-timeout 1]: the seed page has one link; the timer fires while its
    callbacks are still to run. *)
Definition flagsTimeout : Flags := with_timeout 1 flags0.

Definition timeoutSchedule : list action :=
  [ASpawn; AInnerVisit; AInnerMark; AResponse 0 [] None (onePage ["/a"] [] []);
   ATimeout; AClose; ALateSend 0].

(** The same, but [main] returns before the fetch goroutine has sent
    anything. *)
Definition timeoutExitSchedule : list action :=
  [ASpawn; AInnerVisit; AInnerMark; AResponse 0 [] None (onePage ["/a"] [] []);
   ATimeout; AClose; AExit].

(** The seed page has a form whose target is on another host. *)
Definition offScopeSchedule : list action :=
  [AVisit; AMark;
   AResponse 0 [] None (onePage [] [] ["http://other.org/login"])].

(** The fixture of the specification: one anchor, one script, one form
    on the seed page, crawled to the end. *)
Definition fixtureSchedule : list action :=
  [AVisit; AMark; AResponse 0 [] None (onePage ["/a"] ["/b.js"] ["/c"]);
   ASend 0; ALink 0; ALinkMark 0; ASend 0; ASend 0; ADone 0;
   AResponse 0 [] None (onePage [] [] []); ADone 0;
   AWait; AClose; ARecv; ARecv; ARecv; AExit].

(** [-d 0]: a link of the seed page is followed. *)
Definition flagsDepth0 : Flags := with_depth 0 flags0.

Definition linkSchedule : list action :=
  [AVisit; AMark; AResponse 0 [] None (onePage ["/a"] [] []); ASend 0;
   ALink 0; ALinkMark 0].

(** [-subs] on the seed [http://hostname.com/], whose page links to three
    other hosts. *)
Definition flagsSubs : Flags :=
  with_subs true (with_urll "http://hostname.com/" flags0).

Definition subsSchedule : list action :=
  [AVisit; AMark;
   AResponse 0 [] None
     (onePage ["http://nothostname.com/"; "http://evil-hostname.com/";
               "http://hostname.com.evil.com/"] [] []);
   ASend 0; ALink 0; ASend 0; ALink 0; ASend 0; ALink 0; ALinkMark 0].

(** [-h "Host: example.org"]: the seed page links to that host and to
    another one. *)
Definition flagsHost : Flags := with_rawHeaders "Host: example.org" flags0.

Definition hostSchedule : list action :=
  [AVisit; AMark;
   AResponse 0 [] None (onePage ["http://example.org/x"; "http://other.org/"] [] []);
   ASend 0; ALink 0; ALinkMark 0; ASend 0; ALink 0; ALinkMark 0].

(** [-unique -s]: the same URL as an anchor and as a form target. *)
Definition flagsUniqueSource : Flags :=
  {| urll := "http://h/"; threads := 8; depth := 2; maxSize := -1;
     insecure := false; subsInScope := false; showJson := false;
     showSource := true; rawHeaders := ""; unique := true; proxy := "";
     timeout := -1; disableRedirects := false |}.

Definition uniqueSchedule : list action :=
  [AVisit; AMark; AResponse 0 [] None (onePage ["/x"] [] ["/x"]);
   ASend 0; ALink 0; ALinkMark 0; ASend 0; ADone 0;
   AResponse 0 [] None (onePage [] [] []); ADone 0;
   AWait; AClose; ARecv; ARecv; AExit].


Definition noSeedSchedule : list action := [AVisit; AWait; AClose; AExit].

(** ** What is left to do *)

(** A bound on the steps the fetch goroutines and the consumer still
    need when every pending response comes back empty: a send is one
    step, a visit is two steps and may start a fetch, itself two steps. *)
Definition effectWeight (e : effect) : nat :=
  match e with
  | Send _ => 1
  | Visit _ => 4
  | Visiting _ _ => 3
  end.

Definition workerWeight (w : Worker) : nat :=
  match todo w with
  | None => 2
  | Some es => 1 + sum_list_with effectWeight es
  end.

Definition backlog (s : State) : nat :=
  length (results s) + sum_list_with workerWeight (workers s).

(** A page on which no selector matches, and a failed fetch alike. *)
Definition emptyPage : Page := {| hrefs := []; srcs := []; actions := [] |}.

(** ** Invariants of the goroutines *)

(** The channel is closed exactly while the goroutine of [main] is past
    its [close(results)], which therefore never runs twice. *)
Definition close_inv (s : State) : Prop :=
  panicked s = false
  ∧ (closed s = true ↔ sup s = SupDone)
  ∧ closes s = (if closed s then 1 else 0)
  ∧ (∀ code, exited s = Some code → code = 0%Z ∧ closed s = true).

(** Without a timeout the channel is closed only after [c.Wait()], when
    no fetch goroutine is left: no send can find it closed. *)
Definition wait_inv (s : State) : Prop :=
  inner s = InnerNone
  ∧ sup s ≠ SupSelect
  ∧ lateSends s = []
  ∧ (sup s = SupClose ∨ sup s = SupDone → workers s = []).

(** The depth bound and the domain check that every request made has
    passed, redirects included. *)
Definition depth_ok (c : colly.Collector) (d : Z) : Prop :=
  (0 < colly.MaxDepth c)%Z → (d ≤ colly.MaxDepth c)%Z.

(** The visits under way in a fetch goroutine are within the depth. *)
Definition worker_depth_ok (c : colly.Collector) (w : Worker) : Prop :=
  depth_ok c (colly.Depth (req w))
  ∧ ∀ es u d, todo w = Some es → Visiting u d ∈ es → depth_ok c d.

Definition fetched_inv (c : colly.Collector) (s : State) : Prop :=
  (∀ u d, (u, d) ∈ fetched s →
     depth_ok c d ∧ colly.isDomainAllowed c (url.Hostname u) = true)
  ∧ (∀ w, w ∈ workers s → worker_depth_ok c w).

(** ** Further invariants of the consumer and of the lines sent *)

(** What [isUnique] keeps of the map [sm]: with [-unique] it holds
    exactly the lines written, none of them twice; without, it is never
    touched. *)
Definition unique_inv (f : Flags) (s : State) : Prop :=
  if unique f then NoDup (stdout s) ∧ ∀ x, x ∈ sm s ↔ x ∈ stdout s
  else sm s = ∅.





(** [main] has returned only with the channel closed and drained. *)
Definition exit_inv (s : State) : Prop :=
  ∀ code, exited s = Some code → results s = [] ∧ closed s = true.

(** As long as no request has been made: the visited store is empty
    until the seed is marked, a seed that passed the checks of
    [requestCheck] is one that [c.scrape] then refuses, and there is no
    fetch goroutine and no line anywhere. *)
Definition idle_inv (f : Flags) (c : colly.Collector) (s : State) : Prop :=
  (sup s = SupStart ∨ sup s = SupMark → inner s = InnerNone)
  ∧ (inner s = InnerStart ∨ inner s = InnerMark →
     sup s ≠ SupStart ∧ sup s ≠ SupMark)
  ∧ (sup s = SupStart ∨ inner s = InnerStart → visited s = ∅)
  ∧ (sup s = SupMark ∨ inner s = InnerMark →
     ∃ e, colly.request c (urll f) 1 = inl e)
  ∧ fetched s = [] ∧ workers s = [] ∧ results s = [] ∧ stdout s = []
  ∧ lateSends s = [].

(** [-subs] with a seed that names a user: the scope pattern does not
    match the seed itself. *)
Definition flagsSubsUser : Flags :=
  with_subs true (with_urll "http://user@h.org/" flags0).

(** [-d 3]: the seed page links to [/a] and [/b], and both of these
    pages link to [/c].  The fetch goroutines of [/a] and [/b] run their
    callbacks side by side: each has [/c] checked before the other has
    marked it. *)
Definition flagsRace : Flags := with_depth 3 flags0.

Definition raceSchedule : list action :=
  [AVisit; AMark; AResponse 0 [] None (onePage ["/a"; "/b"] [] []);
   ASend 0; ALink 0; ALinkMark 0; ASend 0; ALink 0; ALinkMark 0;
   AResponse 1 [] None (onePage ["/c"] [] []);
   AResponse 2 [] None (onePage ["/c"] [] []);
   ASend 1; ASend 2; ALink 1; ALink 2; ALinkMark 1; ALinkMark 2].

(** ** What a regular expression matches *)

(** Zero or more strings of [L], one after the other. *)
Inductive regexp_star (L : string → Prop) : string → Prop :=
| star_nil : regexp_star L ""
| star_app a b : L a → regexp_star L b → regexp_star L (a +:+ b).

(** [s], as a whole, is in the language of [r]. *)
Fixpoint regexp_lang (r : regexp.Regexp) (s : string) : Prop :=
  match r with
  | regexp.NoMatch => False
  | regexp.EmptyMatch => s = ""
  | regexp.Literal c => s = String c ""
  | regexp.AnyNotNL => ∃ c, s = String c "" ∧ c ≠ "010"%char
  | regexp.AnyByte => ∃ c, s = String c ""
  | regexp.Concat r1 r2 => ∃ a b, s = a +:+ b ∧ regexp_lang r1 a ∧ regexp_lang r2 b
  | regexp.Alternate r1 r2 => regexp_lang r1 s ∨ regexp_lang r2 s
  | regexp.Star r1 => regexp_star (regexp_lang r1) s
  end.

(** The bytes of [h] as literals in a row, then [k]. *)
Fixpoint literals (h : string) (k : regexp.Regexp) : regexp.Regexp :=
  match h with
  | EmptyString => k
  | String c h' => regexp.Concat (regexp.Literal c) (literals h' k)
  end.

(** What the scope pattern of [-subs] is compiled to when the bytes of
    the hostname stand for themselves: [.*], then [.] or [//], then the
    hostname, then optionally [#], [/] or [?] and [.*]. *)
Definition scopeRegexp (hostname : string) : regexp.Regexp :=
  regexp.Concat (regexp.Star regexp.AnyNotNL)
    (regexp.Concat
       (regexp.Alternate
          (regexp.Concat (regexp.Literal ".") regexp.EmptyMatch)
          (regexp.Concat (regexp.Literal "/")
             (regexp.Concat (regexp.Literal "/") regexp.EmptyMatch)))
       (literals hostname
          (regexp.Concat
             (regexp.Quest
                (regexp.Concat
                   (regexp.Alternate
                      (regexp.Concat (regexp.Literal "#") regexp.EmptyMatch)
                      (regexp.Alternate
                         (regexp.Concat (regexp.Literal "/") regexp.EmptyMatch)
                         (regexp.Concat (regexp.Literal "?") regexp.EmptyMatch)))
                   (regexp.Concat (regexp.Star regexp.AnyNotNL)
                      regexp.EmptyMatch)))
             regexp.EmptyMatch))).

(** A hostname that the pattern takes byte for byte: apart from the dot,
    which [main] escapes, it has none of the bytes that the syntax of
    regular expressions gives a meaning to. *)
Fixpoint plainHost (h : string) : bool :=
  match h with
  | EmptyString => true
  | String c h' => (Ascii.eqb c "." || negb (regexp.isMeta c)) && plainHost h'
  end.


(** The lines that a list of effects sends, in order. *)
Definition sentLines (es : list effect) : list string :=
  omap (λ e, match e with
             | Send line => Some line
             | Visit _ | Visiting _ _ => None
             end) es.

(** ** Ordinary URLs *)

(** Every byte of [s] passes the test [P]. *)
Fixpoint allBytes (P : ascii → bool) (s : string) : bool :=
  match s with
  | EmptyString => true
  | String c s' => P c && allBytes P s'
  end.

(** The bytes of an ordinary host name: letters, digits, [-], [.], [_]
    and [~]. *)
Definition hostByte (c : ascii) : bool := url.isAlnum c || url.oneOf c "-._~".

(** The bytes of an ordinary path: those of a host name, and [/]. *)
Definition pathByte (c : ascii) : bool := hostByte c || Ascii.eqb c "/".

(** An ordinary path: empty, or [/] and more path bytes. *)
Definition plainPath (path : string) : bool :=
  (String.eqb path "" || strings.HasPrefix path "/") && allBytes pathByte path.

(** The URL that an ordinary [scheme://host:port/path] is parsed to. *)
Definition plainURL (scheme host port path : string) : url.URL :=
  {| url.Scheme := strings.ToLower scheme; url.Opaque := ""; url.User := None;
     url.Host := host +:+ port; url.Path := path; url.RawPath := "";
     url.OmitHost := false; url.ForceQuery := false; url.RawQuery := "";
     url.Fragment := ""; url.RawFragment := "" |}.

(** [u] without its fragment. *)
Definition noFragment (u : url.URL) : url.URL :=
  {| url.Scheme := url.Scheme u; url.Opaque := url.Opaque u; url.User := url.User u;
     url.Host := url.Host u; url.Path := url.Path u; url.RawPath := url.RawPath u;
     url.OmitHost := url.OmitHost u; url.ForceQuery := url.ForceQuery u;
     url.RawQuery := url.RawQuery u; url.Fragment := "";
     url.RawFragment := "" |}.

(** ** Lines on their way to standard output *)

(** A fetch goroutine among [ws] still has [line] to send. *)
Definition pendingIn (ws : list Worker) (line : string) : Prop :=
  ∃ i w effs, ws !! i = Some w ∧ todo w = Some effs ∧ Send line ∈ effs.

(** [line] is somewhere between its callback and standard output: still
    to be sent, in the buffer of [results], written, or dropped by a send
    that found the channel closed. *)
Definition held (s : State) (line : string) : Prop :=
  pendingIn (workers s) line ∨ line ∈ results s ∨ line ∈ stdout s
  ∨ line ∈ lateSends s.
(** * Properties *)

Example Split_ex :
  strings.Split "a: b;;c:d;;;e" ";;" = ["a: b"; "c:d"; ";e"].
Proof. reflexivity. Qed.

Example SplitN_ex : strings.SplitN "a: b: c" ": " 2 = ["a"; "b: c"].
Proof. reflexivity. Qed.

Example TrimSpace_ex : strings.TrimSpace "  Host 	" = "Host".
Proof. reflexivity. Qed.

Example parseHeaders_ex :
  parseHeaders "Cookie: foo=bar;;junk;;Host:example.com ;; X : a: b" None
  = Ok (Some (<["X" := "a: b"]> (<["Host" := "example.com"]>
               (<["Cookie" := "foo=bar"]> ∅)))).
Proof. vm_compute. reflexivity. Qed.

(** ** Facts about the [strings] helpers *)

Module strings_facts.
Import strings.

Lemma app_cons c s t : String c s +:+ t = String c (s +:+ t).
Proof. reflexivity. Qed.

Lemma app_nil_l s : "" +:+ s = s.
Proof. reflexivity. Qed.

Lemma app_nil_r s : s +:+ "" = s.
Proof. induction s as [|c s IH]; [done|]. by rewrite app_cons, IH. Qed.

Lemma app_assoc s t u : (s +:+ t) +:+ u = s +:+ t +:+ u.
Proof.
  induction s as [|c s IH]; [done|]. by rewrite !app_cons, IH.
Qed.

Lemma length_app s t :
  String.length (s +:+ t) = String.length s + String.length t.
Proof.
  induction s as [|c s IH]; [done|]. rewrite app_cons. simpl. by rewrite IH.
Qed.

Lemma app_inv_head s t u : s +:+ t = s +:+ u → t = u.
Proof.
  induction s as [|c s IH]; [done|]. rewrite !app_cons. intros [= H]. auto.
Qed.

Lemma app_inj_length s s' t t' :
  String.length s = String.length s' → s +:+ t = s' +:+ t' → s = s' ∧ t = t'.
Proof.
  revert s'; induction s as [|c s IH]; intros [|c' s'] Hl; try done.
  rewrite !app_cons. simpl in Hl. intros [= -> H].
  destruct (IH s') as [-> ->]; auto.
Qed.

Lemma take_drop n s : take n s +:+ drop n s = s.
Proof.
  revert s; induction n as [|n IH]; intros [|c s]; try done.
  simpl. by rewrite app_cons, IH.
Qed.

Lemma take_app a t : take (String.length a) (a +:+ t) = a.
Proof.
  induction a as [|c a IH]; [by destruct t|].
  rewrite app_cons. simpl. by rewrite IH.
Qed.

Lemma drop_app a t : drop (String.length a) (a +:+ t) = t.
Proof. induction a as [|c a IH]; [done|]. by rewrite app_cons. Qed.

Lemma drop_add n k s : drop (n + k) s = drop k (drop n s).
Proof.
  revert s; induction n as [|n IH]; intros s; [done|].
  destruct s as [|c s]; [by destruct k|]. simpl. apply IH.
Qed.

Lemma length_drop n s : String.length (drop n s) = String.length s - n.
Proof.
  revert s; induction n as [|n IH]; intros [|c s]; simpl; auto with lia.
Qed.

Lemma HasPrefix_app p t : HasPrefix (p +:+ t) p = true.
Proof.
  induction p as [|c p IH]; [by destruct t|].
  rewrite app_cons. simpl. by rewrite Ascii.eqb_refl.
Qed.

Lemma HasPrefix_inv s p :
  HasPrefix s p = true → s = p +:+ drop (String.length p) s.
Proof.
  revert s; induction p as [|c p IH]; intros s H; [done|].
  destruct s as [|d s]; [done|]. simpl in H.
  destruct (Ascii.eqb d c) eqn:E; [|done].
  apply Ascii.eqb_eq in E as ->. rewrite app_cons. simpl. f_equal. auto.
Qed.

Lemma occurs_at_0 s sub : occurs_at s sub 0 ↔ HasPrefix s sub = true.
Proof.
  split.
  - intros ([|c a] & b & -> & Hl); [|done].
    rewrite app_nil_l. apply HasPrefix_app.
  - intros H. exists "", (drop (String.length sub) s). split; [|done].
    by apply HasPrefix_inv.
Qed.

Lemma occurs_at_S c s sub m :
  occurs_at (String c s) sub (S m) ↔ occurs_at s sub m.
Proof.
  split.
  - intros ([|d a] & b & Heq & Hl); [done|].
    rewrite app_cons in Heq. injection Heq as -> ->.
    exists a, b. split; [done|]. simpl in Hl. lia.
  - intros (a & b & -> & Hl). exists (String c a), b.
    split; [done|]. simpl. lia.
Qed.

(** [Index] returns the least offset at which [substr] occurs, and
    [None] exactly when it occurs nowhere. *)
Lemma Index_unfold s sub :
  Index s sub =
    if HasPrefix s sub then Some 0
    else match s with
         | EmptyString => None
         | String _ s' => S <$> Index s' sub
         end.
Proof. by destruct s. Qed.

Lemma Index_spec s sub :
  match Index s sub with
  | Some m => occurs_at s sub m ∧ ∀ m', occurs_at s sub m' → m ≤ m'
  | None => ∀ m, ¬ occurs_at s sub m
  end.
Proof.
  induction s as [|c s IH]; rewrite Index_unfold.
  - destruct (HasPrefix "" sub) eqn:E.
    + split; [by apply occurs_at_0|]. intros; lia.
    + intros m ([|? ?] & b & Heq & _); [|done].
      rewrite app_nil_l in Heq. destruct sub; done.
  - destruct (HasPrefix (String c s) sub) eqn:E.
    + split; [by apply occurs_at_0|]. intros; lia.
    + destruct (Index s sub) as [m|]; simpl.
      * destruct IH as [Hocc Hmin]. split; [by apply occurs_at_S|].
        intros [|m'] Hm'.
        -- apply occurs_at_0 in Hm'. congruence.
        -- apply occurs_at_S in Hm'. apply Hmin in Hm'. lia.
      * intros [|m'] Hm'.
        -- apply occurs_at_0 in Hm'. congruence.
        -- apply occurs_at_S in Hm'. by apply IH in Hm'.
Qed.

Lemma Contains_true s sub : Contains s sub = true ↔ occurs s sub.
Proof.
  unfold Contains. pose proof (Index_spec s sub) as H.
  destruct (Index s sub) as [m|].
  - split; [|done]. intros _. destruct H as [(a & b & -> & _) _]. by exists a, b.
  - split; [done|]. intros (a & b & ->). exfalso.
    apply (H (String.length a)). by exists a, b.
Qed.

Lemma Contains_false s sub : Contains s sub = false ↔ ¬ occurs s sub.
Proof.
  rewrite <- Contains_true. destruct (Contains s sub); naive_solver.
Qed.

Lemma Index_first_cut sep e a b :
  first_cut sep e a b → Index e sep = Some (String.length a).
Proof.
  intros [-> Hmin]. pose proof (Index_spec (a +:+ sep +:+ b) sep) as H.
  destruct (Index _ sep) as [m|].
  - destruct H as [(a' & b' & Heq & <-) Hle]. f_equal.
    apply Nat.le_antisymm; [|by eapply Hmin].
    apply Hle. by exists a, b.
  - exfalso. apply (H (String.length a)). by exists a, b.
Qed.

Lemma first_cut_of_Index sep e m :
  Index e sep = Some m →
  first_cut sep e (take m e) (drop (m + String.length sep) e).
Proof.
  intros Hi. pose proof (Index_spec e sep) as H. rewrite Hi in H.
  destruct H as [(a & b & -> & <-) Hmin].
  rewrite take_app, drop_add, drop_app, drop_app. split; [done|].
  intros a' b' Heq. apply Hmin. by exists a', b'.
Qed.

Lemma first_cut_unique sep e a b a' b' :
  first_cut sep e a b → first_cut sep e a' b' → a = a' ∧ b = b'.
Proof.
  intros [-> H1] [Heq H2].
  assert (String.length a = String.length a') as Hl.
  { apply Nat.le_antisymm; [by eapply H1|by eapply H2]. }
  destruct (app_inj_length _ _ _ _ Hl Heq) as [-> Hr].
  split; [done|]. by apply app_inv_head in Hr.
Qed.

Lemma occurs_first_cut sep e : occurs e sep → ∃ a b, first_cut sep e a b.
Proof.
  intros Ho. apply Contains_true in Ho. unfold Contains in Ho.
  destruct (Index e sep) as [m|] eqn:E; [|done].
  eauto using first_cut_of_Index.
Qed.

(** [SplitN(e, sep, 2)] has two parts, around the first [sep], as soon
    as [sep] occurs in [e]. *)
Lemma SplitN_2 sep e a b :
  sep ≠ "" → first_cut sep e a b → SplitN e sep 2 = [a; b].
Proof.
  intros Hsep Hc. pose proof (Index_first_cut _ _ _ _ Hc) as Hi.
  destruct Hc as [-> _]. unfold SplitN.
  assert (1 ≤ String.length (a +:+ sep +:+ b)) as Hl.
  { rewrite !length_app. destruct sep; [done|]. simpl. lia. }
  replace (_ `min` _ - 1) with 1 by lia. simpl. rewrite Hi.
  by rewrite take_app, drop_add, drop_app, drop_app.
Qed.

Lemma SplitN_2_none sep e : ¬ occurs e sep → SplitN e sep 2 = [e].
Proof.
  intros Ho. apply Contains_false in Ho. unfold Contains in Ho.
  unfold SplitN. destruct (_ `min` _ - 1); [done|]. simpl.
  by destruct (Index e sep).
Qed.

Lemma genSplit_not_nil k s sep : genSplit k s sep ≠ [].
Proof. destruct k; simpl; [done|]. by destruct (Index s sep). Qed.

Lemma Join_cons e rest sep :
  rest ≠ [] → Join (e :: rest) sep = e +:+ sep +:+ Join rest sep.
Proof. by destruct rest. Qed.

(** Joining the pieces with the separator gives the input back. *)
Lemma Join_genSplit k s sep : Join (genSplit k s sep) sep = s.
Proof.
  revert s; induction k as [|k IH]; intros s; simpl; [done|].
  destruct (Index s sep) as [m|] eqn:E; [|done].
  rewrite Join_cons by apply genSplit_not_nil. rewrite IH.
  by destruct (first_cut_of_Index _ _ _ E) as [<- _].
Qed.

Lemma first_cut_head_free sep e a b :
  sep ≠ "" → first_cut sep e a b → ¬ occurs a sep.
Proof.
  intros Hsep [-> Hmin] (a1 & b1 & ->).
  specialize (Hmin a1 (b1 +:+ sep +:+ b)).
  rewrite !app_assoc in Hmin. specialize (Hmin eq_refl).
  rewrite !length_app in Hmin. destruct sep; [done|]. simpl in Hmin. lia.
Qed.

(** With the iteration count that [Split] passes, no piece contains the
    separator. *)
Lemma genSplit_count_free sep n s :
  sep ≠ "" → String.length s ≤ n →
  Forall (λ e, ¬ occurs e sep) (genSplit (count_loop n s sep) s sep).
Proof.
  intros Hsep. revert s; induction n as [|n IH]; intros s Hl; simpl.
  - destruct s; [|simpl in Hl; lia]. constructor; [|done].
    intros ([|??] & b & Heq); [|done]. rewrite app_nil_l in Heq.
    by destruct sep.
  - destruct (Index s sep) as [m|] eqn:E; simpl.
    + rewrite E. pose proof (first_cut_of_Index _ _ _ E) as Hc.
      constructor; [by eapply first_cut_head_free|].
      apply IH. rewrite length_drop. destruct sep; [done|]. simpl. lia.
    + constructor; [|done]. apply Contains_false. unfold Contains. by rewrite E.
Qed.

Lemma Join_Split s sep : Join (Split s sep) sep = s.
Proof. apply Join_genSplit. Qed.

Lemma Split_free s sep :
  sep ≠ "" → Forall (λ e, ¬ occurs e sep) (Split s sep).
Proof. intros. by apply genSplit_count_free. Qed.

Lemma rev_app s t : rev (s +:+ t) = rev t +:+ rev s.
Proof.
  induction s as [|c s IH].
  - by rewrite app_nil_l, app_nil_r.
  - rewrite ?app_cons. simpl. by rewrite IH, app_assoc.
Qed.

Lemma rev_involutive s : rev (rev s) = s.
Proof.
  induction s as [|c s IH]; [done|]. simpl. by rewrite rev_app, IH.
Qed.

Lemma length_rev s : String.length (rev s) = String.length s.
Proof.
  induction s as [|c s IH]; [done|]. simpl. rewrite length_app, IH. simpl. lia.
Qed.

Lemma length_take n s : n ≤ String.length s → String.length (take n s) = n.
Proof.
  revert s; induction n as [|n IH]; intros [|c s] H; simpl in *;
    auto with lia.
Qed.

Lemma allSpace_app a b : allSpace a → allSpace b → allSpace (a +:+ b).
Proof.
  induction 1 as [|r s Hr1 Hr2 Hs IH]; intros Hb; [done|].
  rewrite app_assoc. constructor; auto.
Qed.

Lemma isByte_true n c : isByte n c = true → c = ascii_of_nat n.
Proof.
  unfold isByte. intros H%Nat.eqb_eq. rewrite <- H. symmetry.
  apply ascii_nat_embedding.
Qed.

(** Case analysis on the byte tests of [spaceLen] and [spaceLenRev]; a
    byte that passed [isByte] is replaced by its value, which settles the
    other tests on it. *)
Local Ltac bytes_known :=
  repeat match goal with
    | H : _ && _ = true |- _ => apply andb_true_iff in H as [? ?]
    | H : _ || _ = true |- _ => apply orb_true_iff in H as [?|?]
    end;
  repeat match goal with
    | H : isByte _ _ = true |- _ => apply isByte_true in H; subst
    end;
  try (exfalso;
       match goal with
       | H : _ = _ |- _ => vm_compute in H; discriminate H
       end).

Local Ltac bytes :=
  repeat (simplify_eq/=; try done; try lia; try congruence;
          try (split; (done || lia || congruence)); case_match);
  simplify_eq/=; try done; try lia; try congruence;
  try (split; (done || lia || congruence));
  bytes_known.

(** The white-space rune that [spaceLen] finds is the head of the
    string, and no longer than the string. *)
Lemma spaceLen_take s :
  spaceLen s ≤ String.length s
  ∧ spaceLen (take (spaceLen s) s) = spaceLen s.
Proof.
  destruct s as [|a [|b [|c s]]]; unfold spaceLen; simpl; bytes.
Qed.

Lemma spaceLenRev_take r :
  spaceLenRev r ≤ String.length r
  ∧ spaceLen (rev (take (spaceLenRev r) r)) = spaceLenRev r.
Proof.
  destruct r as [|c [|b [|a r]]]; unfold spaceLenRev; simpl; bytes.
Qed.

(** A string that does not start with a white-space rune has no prefix
    that does. *)
Lemma spaceLen_prefix p q : spaceLen (p +:+ q) = 0 → spaceLen p = 0.
Proof.
  destruct p as [|a [|b [|c p]]]; [done|..];
    destruct q as [|x [|y q]]; unfold spaceLen; rewrite ?app_cons, ?app_nil_l;
    simpl; bytes.
Qed.

Lemma trimWith_unfold len fuel s :
  trimWith len (S fuel) s
  = if len s =? 0 then s else trimWith len fuel (drop (len s) s).
Proof. simpl. by destruct (len s). Qed.

Lemma trimWith_spaceLen fuel s :
  ∃ l, s = l +:+ trimWith spaceLen fuel s ∧ allSpace l.
Proof.
  revert s; induction fuel as [|fuel IH]; intros s.
  { exists "". split; [done|constructor]. }
  rewrite trimWith_unfold. destruct (spaceLen s =? 0) eqn:E.
  { exists "". split; [done|constructor]. }
  apply Nat.eqb_neq in E. destruct (spaceLen_take s) as [Hle Hrune].
  destruct (IH (drop (spaceLen s) s)) as (l & Hl & Hsp).
  exists (take (spaceLen s) s +:+ l). split.
  - by rewrite app_assoc, <- Hl, take_drop.
  - constructor; [rewrite length_take; lia|by rewrite length_take|done].
Qed.

Lemma trimWith_spaceLenRev fuel r :
  ∃ l, r = l +:+ trimWith spaceLenRev fuel r ∧ allSpace (rev l).
Proof.
  revert r; induction fuel as [|fuel IH]; intros r.
  { exists "". split; [done|constructor]. }
  rewrite trimWith_unfold. destruct (spaceLenRev r =? 0) eqn:E.
  { exists "". split; [done|constructor]. }
  apply Nat.eqb_neq in E. destruct (spaceLenRev_take r) as [Hle Hrune].
  destruct (IH (drop (spaceLenRev r) r)) as (l & Hl & Hsp).
  exists (take (spaceLenRev r) r +:+ l). split.
  - by rewrite app_assoc, <- Hl, take_drop.
  - rewrite rev_app. apply allSpace_app; [done|].
    rewrite <- (app_nil_r (rev _)).
    constructor; [|by rewrite length_rev, length_take|constructor].
    rewrite length_rev, length_take; lia.
Qed.

(** With fuel for every byte, trimming stops at a string that [len]
    leaves alone. *)
Lemma trimWith_done len fuel s :
  len "" = 0 → (∀ t, len t ≤ String.length t) → String.length s ≤ fuel →
  len (trimWith len fuel s) = 0.
Proof.
  intros H0 Hle. revert s; induction fuel as [|fuel IH]; intros s Hs.
  { destruct s; [done|simpl in Hs; lia]. }
  rewrite trimWith_unfold. destruct (len s =? 0) eqn:E.
  { by apply Nat.eqb_eq in E. }
  apply Nat.eqb_neq in E. apply IH. rewrite length_drop. lia.
Qed.

(** [TrimSpace] cuts a run of white-space runes off each end of its
    argument, and what it returns neither starts nor ends with one. *)
Lemma TrimSpace_spec s :
  ∃ l r, s = l +:+ TrimSpace s +:+ r ∧ allSpace l ∧ allSpace r
         ∧ spaceLen (TrimSpace s) = 0
         ∧ spaceLenRev (rev (TrimSpace s)) = 0.
Proof.
  unfold TrimSpace, TrimRight, TrimLeft.
  destruct (trimWith_spaceLen (String.length s) s) as (l & Hl & Hsl).
  set (t := trimWith spaceLen (String.length s) s) in *.
  assert (spaceLen t = 0) as Ht.
  { apply trimWith_done; [done|intros; apply spaceLen_take|done]. }
  destruct (trimWith_spaceLenRev (String.length t) (rev t)) as (l' & Hl' & Hsl').
  set (x := trimWith spaceLenRev (String.length t) (rev t)) in *.
  assert (t = rev x +:+ rev l') as Ht'.
  { by rewrite <- rev_app, <- Hl', rev_involutive. }
  exists l, (rev l'). split_and!; try done.
  - by rewrite <- Ht'.
  - rewrite Ht' in Ht. by apply spaceLen_prefix in Ht.
  - rewrite rev_involutive. apply trimWith_done;
      [done|intros; apply spaceLenRev_take|by rewrite length_rev].
Qed.
End strings_facts.

(** ** [parseHeaders] *)

Section parseHeaders_facts.
Import strings strings_facts.

Lemma entry_adds_functional m e m1 m2 :
  entry_adds m e m1 → entry_adds m e m2 → m1 = m2.
Proof.
  intros H1 H2.
  destruct H1 as [a b Hc|a b Hn Hc|Hn]; destruct H2 as [a' b' Hc'|a' b' Hn' Hc'|Hn'];
    try (by destruct (first_cut_unique _ _ _ _ _ _ Hc Hc') as [-> ->]);
    try done; exfalso.
  - apply Hn'. destruct Hc as [-> _]. by exists a, b.
  - apply Hn'. destruct Hc as [-> _]. by exists a, (" " +:+ b).
  - apply Hn. destruct Hc' as [-> _]. by exists a', b'.
  - apply Hn'. destruct Hc as [-> _]. by exists a, b.
  - apply Hn. destruct Hc' as [-> _]. by exists a', (" " +:+ b').
  - apply Hn. destruct Hc' as [-> _]. by exists a', b'.
Qed.

Lemma parseHeader_adds m e : ∃ m', parseHeader m e = Ok m' ∧ entry_adds m e m'.
Proof.
  unfold parseHeader, headerParts.
  destruct (Contains e ": ") eqn:E1.
  - apply Contains_true, occurs_first_cut in E1 as (a & b & Hc).
    rewrite (SplitN_2 ": " e a b) by done. simpl.
    eexists; split; [done|]. by eapply adds_colon_space.
  - apply Contains_false in E1. destruct (Contains e ":") eqn:E2.
    + apply Contains_true, occurs_first_cut in E2 as (a & b & Hc).
      rewrite (SplitN_2 ":" e a b) by done. simpl.
      eexists; split; [done|]. by eapply adds_colon.
    + apply Contains_false in E2. eexists; split; [done|].
      by apply adds_nothing.
Qed.

Lemma parseHeaderLoop_adds es :
  ∀ m, ∃ m', parseHeaderLoop m es = Ok m' ∧ entries_add m es m'.
Proof.
  induction es as [|e es IH]; intros m; simpl.
  - eexists; split; [done|]. constructor.
  - destruct (parseHeader_adds m e) as (m1 & -> & H1).
    destruct (IH m1) as (m2 & -> & H2).
    eexists; split; [done|]. by econstructor.
Qed.

Lemma String_eqb_empty s : String.eqb s "" = false ↔ s ≠ "".
Proof.
  destruct (String.eqb_spec s ""); split; try done; intros; congruence.
Qed.

End parseHeaders_facts.

(** [parseHeaders] on the three kinds of input. *)
Lemma parseHeaders_entries (rawHeaders : string) (headers : Headers) :
  ((∃ msg, parseHeaders rawHeaders headers = Err msg)
     ↔ rawHeaders ≠ "" ∧ ¬ strings.occurs rawHeaders ":")
  ∧ (∀ msg, parseHeaders rawHeaders headers ≠ Panic msg)
  ∧ (rawHeaders = "" → parseHeaders rawHeaders headers = Ok headers)
  ∧ (rawHeaders ≠ "" → strings.occurs rawHeaders ":" →
       let entries := strings.Split rawHeaders ";;" in
       strings.Join entries ";;" = rawHeaders
       ∧ Forall (λ e, ¬ strings.occurs e ";;") entries
       ∧ ∃ m, parseHeaders rawHeaders headers = Ok (Some m)
              ∧ entries_add ∅ entries m).
Proof.
  unfold parseHeaders.
  destruct (String.eqb rawHeaders "") eqn:E0; simpl.
  { apply String.eqb_eq in E0 as ->.
    split; [|split; [|split]]; try done.
    split; [by intros [? ?]|by intros [? _]]. }
  apply String_eqb_empty in E0.
  destruct (strings.Contains rawHeaders ":") eqn:E1; simpl.
  - apply strings_facts.Contains_true in E1.
    destruct (parseHeaderLoop_adds (strings.Split rawHeaders ";;") ∅)
      as (m & Hm & Hadds).
    rewrite Hm. split; [|split; [|split]]; try done.
    + split; [by intros [? ?]|by intros [_ ?]].
    + intros _ _. split; [apply strings_facts.Join_Split|].
      split; [by apply strings_facts.Split_free|]. by exists m.
  - apply strings_facts.Contains_false in E1.
    split; [|split; [|split]]; try done.
    split; [done|]. intros _. by eexists.
Qed.

(** C10.  [parseHeaders] returns an error exactly when its input is not
    empty and holds no colon at all.  It leaves [headers] alone on the empty
    input and never panics on [parts[1]].  On any other input it stores a
    fresh map built from the pieces between the [";;"] separators (joined
    again with [";;"] they give the input back, and none of them contains
    [";;"]): each piece is cut at its first [": "], or at its first [":"]
    when it has no [": "], both sides trimmed with [TrimSpace], and a piece
    without a colon is skipped.  [TrimSpace] takes a run of white-space
    runes off each end, and leaves none at either end. *)
Theorem parseHeaders_spec (rawHeaders : string) (headers : Headers) :
  ((∃ msg, parseHeaders rawHeaders headers = Err msg)
     ↔ rawHeaders ≠ "" ∧ ¬ strings.occurs rawHeaders ":")
  ∧ (∀ msg, parseHeaders rawHeaders headers ≠ Panic msg)
  ∧ (rawHeaders = "" → parseHeaders rawHeaders headers = Ok headers)
  ∧ (rawHeaders ≠ "" → strings.occurs rawHeaders ":" →
       let entries := strings.Split rawHeaders ";;" in
       strings.Join entries ";;" = rawHeaders
       ∧ Forall (λ e, ¬ strings.occurs e ";;") entries
       ∧ ∃ m, parseHeaders rawHeaders headers = Ok (Some m)
              ∧ entries_add ∅ entries m)
  ∧ (∀ s, ∃ l r, s = l +:+ strings.TrimSpace s +:+ r
                 ∧ strings.allSpace l ∧ strings.allSpace r
                 ∧ strings.spaceLen (strings.TrimSpace s) = 0
                 ∧ strings.spaceLenRev (strings.rev (strings.TrimSpace s)) = 0).
Proof.
  destruct (parseHeaders_entries rawHeaders headers) as (? & ? & ? & ?).
  split_and!; try done. apply strings_facts.TrimSpace_spec.
Qed.

Example Split_headers :
  strings.Split "Cookie: foo=bar;;junk;;Host:example.com ;; X : a: b" ";;"
  = ["Cookie: foo=bar"; "junk"; "Host:example.com "; " X : a: b"].
Proof. reflexivity. Qed.

Example parseHeaders_no_colon :
  parseHeaders "Cookie;;Host" None
  = Err "headers flag not formatted properly (no colon to separate header and value)".
Proof. reflexivity. Qed.

(** ** [net/url] on sample inputs *)

Example Parse_http :
  url.String_ <$> (match url.Parse "HTTP://example.com:8080/a/../b?x=1#top" with
                   | Ok u => Some u | _ => None end)
  = Some "http://example.com:8080/a/../b?x=1#top".
Proof. vm_compute. reflexivity. Qed.

Example Resolve_rel :
  (match url.Parse "http://h/dir/page.html?q" with
   | Ok b => match url.ParseRef b "../x/./y.js" with
             | Ok u => url.String_ u | _ => "" end
   | _ => "" end) = "http://h/x/y.js".
Proof. vm_compute. reflexivity. Qed.

Example Parse_bad_scheme : url.Parse "://h" = Err "missing protocol scheme".
Proof. vm_compute. reflexivity. Qed.

Example Parse_colon_segment :
  url.Parse "a:b/c" = Ok {| url.Scheme := "a"; url.Opaque := "b/c"; url.User := None;
    url.Host := ""; url.Path := ""; url.RawPath := ""; url.OmitHost := false;
    url.ForceQuery := false; url.RawQuery := ""; url.Fragment := "";
    url.RawFragment := "" |}.
Proof. vm_compute. reflexivity. Qed.

(** ** [regexp] on sample inputs *)

Example Compile_ex :
  regexp.Compile "a(\.|\/\/)b?" =
  Some (regexp.Concat (regexp.Literal "a")
         (regexp.Concat
            (regexp.Alternate
               (regexp.Concat (regexp.Literal ".") regexp.EmptyMatch)
               (regexp.Concat (regexp.Literal "/")
                  (regexp.Concat (regexp.Literal "/") regexp.EmptyMatch)))
            (regexp.Concat (regexp.Quest (regexp.Literal "b")) regexp.EmptyMatch))).
Proof. vm_compute. reflexivity. Qed.

Example Compile_stacked : regexp.Compile "a**" = None.
Proof. vm_compute. reflexivity. Qed.

(** ** Invariants of the goroutines *)

Create HintDb state discriminated.
#[local] Hint Unfold set_sup set_inner set_workers set_visited set_fetched
  set_results set_closed set_closes set_lateSends set_sm set_stdout
  set_exited set_panicked afterScrape setWorker receive : state.

(** Unfold the state after a step and split on the outcome of the
    checks and of the request. *)
Ltac step_cases H :=
  inversion H; subst; clear H;
  unfold visitChecked in *;
  repeat match goal with
    | |- context [afterScrape (?a, _) _] =>
        lazymatch a with
        | inl _ => fail
        | inr _ => fail
        | _ =>
            let e := fresh "e" in let r' := fresh "r" in
            let E := fresh "Ereq" in
            destruct a as [e|r'] eqn:E
        end
    | |- context [match ?a with inl _ => _ | inr _ => _ end] =>
        lazymatch a with
        | colly.requestCheck _ _ _ _ =>
            let e := fresh "e" in let v := fresh "v" in
            let E := fresh "Echeck" in
            destruct a as [e|v] eqn:E
        end
    end;
  autounfold with state in *; simpl in *.

Section invariants.
Variable f : Flags.
Variable c : colly.Collector.

(** An invariant holds in the initial state and is kept by every step
    of the running process. *)
Lemma reachable_ind (P : State → Prop) :
  P (initial SupStart) →
  (∀ s s', reachable f c s → P s → run_step f c s s' → P s') →
  ∀ s, reachable f c s → P s.
Proof.
  intros H0 Hstep. unfold reachable in *.
  apply rtc_ind_r; [done|]. intros y z Hxy Hyz Py. by eapply Hstep.
Qed.

Lemma close_inv_step s s' : close_inv s → step f c s s' → close_inv s'.
Proof.
  intros (Hp & Hc & Hn & He) Hs. unfold close_inv.
  step_cases Hs; try (split_and!; try done; try tauto;
    rewrite Hc; split; congruence).
  - (* close *)
    destruct Hc as [Hc1 Hc2]. destruct (closed s) eqn:E; simpl.
    + specialize (Hc1 eq_refl). congruence.
    + split_and!; [done|done|by rewrite Hn|].
      intros code Hx. apply He in Hx as [_ ?]. congruence.
  - (* exit *)
    split_and!; try done. by intros code [= <-].
Qed.

Lemma close_inv_reachable s : reachable f c s → close_inv s.
Proof.
  apply reachable_ind.
  - unfold close_inv. simpl. split_and!; try done; split; congruence.
  - intros ? ? _ Hi (_ & _ & Hs). eauto using close_inv_step.
Qed.

(** What a URL that [requestCheck] lets through has passed, and what the
    store is afterwards. *)
Lemma requestCheck_inr visited u d v :
  colly.requestCheck c visited u d = inr v →
  u ≠ ""
  ∧ depth_ok c d
  ∧ (colly.URLFilters c ≠ [] →
       colly.isMatchingFilter (colly.URLFilters c) u = true)
  ∧ (colly.AllowURLRevisit c = false → u ∉ visited)
  ∧ v = colly.markVisited c visited u.
Proof.
  unfold colly.requestCheck, colly.markVisited, depth_ok.
  destruct (String.eqb u "") eqn:Eu; [done|].
  destruct (_ && (colly.MaxDepth c <? d)%Z) eqn:Ed; [done|].
  destruct (_ && colly.isMatchingFilter (colly.DisallowedURLFilters c) u);
    [done|].
  destruct (negb (length (colly.URLFilters c) =? 0)
            && negb (colly.isMatchingFilter (colly.URLFilters c) u)) eqn:Ef;
    [done|].
  intros H. split_and!.
  - intros ->. done.
  - intros Hpos. apply andb_false_iff in Ed as [Ed|Ed]; lia.
  - intros Hne. apply andb_false_iff in Ef as [Ef|Ef].
    + destruct (colly.URLFilters c); [done|]. done.
    + by apply negb_false_iff in Ef.
  - intros Hrev. rewrite Hrev in H. simpl in H.
    destruct (bool_decide (u ∈ visited)) eqn:Ev; [done|].
    by apply bool_decide_eq_false in Ev.
  - destruct (colly.AllowURLRevisit c); simpl in H; [by injection H|].
    destruct (bool_decide (u ∈ visited)); [done|]. by injection H.
Qed.

(** What a request that is made has passed after [requestCheck]. *)
Lemma request_inr u d r :
  colly.request c u d = inr r →
  colly.Depth r = d
  ∧ colly.baseURL r = None
  ∧ colly.isDomainAllowed c (url.Hostname (colly.URL r)) = true.
Proof.
  unfold colly.request.
  destruct (url.Parse u) as [parsed| |]; [|done..]. simpl.
  destruct (negb (colly.isDomainAllowed c _)) eqn:Ea; [done|].
  intros [= <-]. simpl. split_and!; try done. by apply negb_false_iff in Ea.
Qed.

(** A visit that nothing interrupts is one call of [scrape]. *)
Lemma scrape_split visited u d :
  colly.scrape c visited u d
  = match colly.requestCheck c visited u d with
    | inl e => (inl e, visited)
    | inr _ => (colly.request c u d, colly.markVisited c visited u)
    end.
Proof.
  unfold colly.scrape.
  destruct (colly.requestCheck c visited u d) as [e|v] eqn:E; [done|].
  by apply requestCheck_inr in E as (_ & _ & _ & _ & ->).
Qed.

(** What a request that [scrape] makes has passed. *)
Lemma scrape_inr visited u d r visited' :
  colly.scrape c visited u d = (inr r, visited') →
  colly.Depth r = d
  ∧ colly.baseURL r = None
  ∧ u ≠ ""
  ∧ ((0 < colly.MaxDepth c)%Z → (d ≤ colly.MaxDepth c)%Z)
  ∧ (colly.URLFilters c ≠ [] →
       colly.isMatchingFilter (colly.URLFilters c) u = true)
  ∧ colly.isDomainAllowed c (url.Hostname (colly.URL r)) = true.
Proof.
  unfold colly.scrape.
  destruct (colly.requestCheck c visited u d) as [e|v] eqn:E; [done|].
  intros [= Hr _].
  apply requestCheck_inr in E as (? & ? & ? & _).
  apply request_inr in Hr as (? & ? & ?). done.
Qed.

Lemma wait_inv_step s s' :
  timeout f = (-1)%Z → close_inv s → wait_inv s → step f c s s' → wait_inv s'.
Proof.
  intros Ht (_ & Hc & _) (Hi & Hsel & Hl & Hw) Hs. unfold wait_inv.
  assert (closed s = true → workers s = []) as Hcw.
  { intros E. apply Hw. right. by apply Hc. }
  step_cases Hs; try congruence.
  all: try (match goal with
            | |- context [if closed ?x then _ else _] =>
                destruct (closed x) eqn:?; simpl
            end).
  all: try (match goal with
            | Hk : workers _ !! _ = Some _, Hcl : closed _ = true |- _ =>
                rewrite Hcw in Hk by done; done
            end).
  all: split_and!; try done.
  all: intros Hsup.
  all: try (match goal with
            | Hk : workers _ !! _ = Some _ |- _ =>
                rewrite Hw in Hk by done; done
            end).
  all: try congruence.
  all: try (by destruct Hsup).
  all: auto.
Qed.

Lemma wait_inv_reachable s :
  timeout f = (-1)%Z → reachable f c s → wait_inv s.
Proof.
  intros Ht Hr. revert s Hr. apply reachable_ind.
  - unfold wait_inv. simpl. split_and!; try done; intros [?|?]; congruence.
  - intros s s' Hr Hi (_ & _ & Hs).
    eauto using wait_inv_step, close_inv_reachable.
Qed.

(** Once the channel is closed its buffer only shrinks. *)
Lemma closed_results_shrink s s' :
  step f c s s' → closed s = true →
  ∃ taken, results s = taken ++ results s'.
Proof.
  intros Hs Hc.
  step_cases Hs; try congruence; try (by exists []);
    try (destruct (closed s); by exists []).
  exists [res]. by rewrite H.
Qed.

Lemma elem_of_insert_inv {A} (l : list A) i x y :
  y ∈ <[i := x]> l → y = x ∨ y ∈ l.
Proof.
  revert i; induction l as [|a l IH]; intros [|i] H; simpl in *;
    try (by right).
  - apply elem_of_cons in H as [->|H]; [by left|]. right. by right.
  - apply elem_of_cons in H as [->|H]; [right; by left|].
    destruct (IH _ H) as [->|?]; [by left|]. right. by right.
Qed.

(** The callbacks have no visit under way when they start. *)
Lemma pageEffects_no_Visiting r page u d : Visiting u d ∉ pageEffects f r page.
Proof.
  assert (∀ sel attr, Visiting u d ∉ onHTML f sel r attr) as Hon.
  { intros sel attr. unfold onHTML, printResult.
    destruct sel, (resultLine _ _ _ _ _); simpl; intros H;
      repeat (apply elem_of_cons in H as [H|H]; [done|]);
      by apply elem_of_nil in H. }
  assert (∀ sel attrs, Visiting u d ∉ concat (map (onHTML f sel r) attrs)) as Hc.
  { intros sel attrs (effs & Hin & He)%list_elem_of_In%in_concat.
    apply in_map_iff in Hin as (attr & <- & _).
    by apply list_elem_of_In, Hon in He. }
  unfold pageEffects. rewrite !elem_of_app. intros [H|[H|H]]; by eapply Hc.
Qed.

Lemma fetched_inv_request s s0 u d v :
  fetched s0 = fetched s →
  (∀ w, w ∈ workers s0 → worker_depth_ok c w) →
  depth_ok c d →
  fetched_inv c s →
  fetched_inv c (afterScrape (colly.request c u d, v) s0).
Proof.
  intros Hfe Hw0 Hdepth [Hf Hw].
  unfold afterScrape. simpl.
  destruct (colly.request c u d) as [e|r] eqn:E;
    autounfold with state; simpl; [by rewrite Hfe|].
  apply request_inr in E as (Hdr & _ & Hdom).
  rewrite Hfe. split.
  - intros u' d' [H|H]%elem_of_app; [by apply Hf|].
    apply list_elem_of_singleton in H as [= -> ->]. by rewrite Hdr.
  - intros w [H|H]%elem_of_app; [by apply Hw0|].
    apply list_elem_of_singleton in H as ->. split; simpl; [by rewrite Hdr|].
    done.
Qed.

Lemma fetched_inv_worker s i w w' :
  workers s !! i = Some w → colly.Depth (req w') = colly.Depth (req w) →
  (∀ es u d, todo w' = Some es → Visiting u d ∈ es → depth_ok c d) →
  fetched_inv c s → fetched_inv c (setWorker i w' s).
Proof.
  intros Hi Hd Ht [Hf Hw]. split; [done|].
  intros x [->|H]%elem_of_insert_inv; [|by apply Hw].
  split; [|done]. rewrite Hd.
  destruct (Hw w) as [? _]; [eapply list_elem_of_lookup_2, Hi|done].
Qed.

Lemma fetched_inv_ext s s' :
  fetched s' = fetched s → workers s' = workers s →
  fetched_inv c s → fetched_inv c s'.
Proof. unfold fetched_inv. by intros -> ->. Qed.

(** The seed is at depth 1, which every depth bound allows. *)
Lemma depth_ok_1 : depth_ok c 1.
Proof. unfold depth_ok. lia. Qed.

Lemma fetched_inv_step s s' : fetched_inv c s → step f c s s' → fetched_inv c s'.
Proof.
  intros Hinv Hs.
  assert (∀ i w es, workers s !! i = Some w → todo w = Some es →
            ∀ u d, Visiting u d ∈ es → depth_ok c d) as Htodo.
  { intros i w es Hi Ht u d Hin.
    destruct Hinv as [_ Hw].
    eapply (Hw w); [by eapply list_elem_of_lookup_2|done..]. }
  inversion Hs; subst; clear Hs;
    try (by destruct Hinv; split).
  - (* the seed, the mark *)
    eapply fetched_inv_ext; [| |apply (fetched_inv_request s s)]; try done;
      [apply Hinv|apply depth_ok_1].
  - (* the seed with a timeout, the mark *)
    eapply fetched_inv_ext; [| |apply (fetched_inv_request s s)]; try done;
      [apply Hinv|apply depth_ok_1].
  - (* close *)
    destruct Hinv. by destruct (closed s); split.
  - (* response *)
    apply (fetched_inv_worker _ i w); [done|done| |].
    { simpl. intros es u d [= <-] Hin. by apply pageEffects_no_Visiting in Hin. }
    destruct Hinv as [Hf Hw]. split; [|done].
    intros u d [Hu|Hu]%elem_of_app; [by apply Hf|].
    apply list_elem_of_In, in_map_iff in Hu as (h & [= -> <-] & Hh).
    split; [destruct (Hw w) as [? _]; [by eapply list_elem_of_lookup_2|done]|].
    match goal with
    | Hall : Forall _ _ |- _ =>
        eapply Forall_forall in Hall; [|by apply list_elem_of_In];
        unfold colly.followsRedirect in Hall;
        by apply andb_true_iff in Hall as [? _]
    end.
  - (* send *)
    apply (fetched_inv_worker _ i w); [done|done| |by destruct Hinv; split].
    simpl. intros es u d [= <-] Hin. eapply Htodo; [done..|by right].
  - (* handoff *)
    apply (fetched_inv_worker _ i w); [done|done| |by destruct Hinv; split].
    simpl. intros es u d [= <-] Hin. eapply Htodo; [done..|by right].
  - (* late send *)
    apply (fetched_inv_worker _ i w); [done|done| |by destruct Hinv; split].
    simpl. intros es u d [= <-] Hin. eapply Htodo; [done..|by right].
  - (* link, the checks *)
    apply (fetched_inv_worker _ i w); [done|done| |done].
    simpl. intros es u d [= <-] [Hin|Hin]%elem_of_app.
    + unfold visitChecked in Hin.
      destruct (colly.requestCheck _ _ _ _) as [e|v] eqn:E;
        [by apply elem_of_nil in Hin|].
      apply list_elem_of_singleton in Hin as [= -> ->].
      by apply requestCheck_inr in E as (_ & ? & _).
    + eapply Htodo; [done..|by right].
  - (* link, the mark *)
    apply (fetched_inv_request s); [done| | |done].
    + apply (fetched_inv_worker _ i w); [done|done| |done].
      simpl. intros es u' d' [= <-] Hin. eapply Htodo; [done..|by right].
    + eapply Htodo; [done..|by left].
  - (* done *)
    destruct Hinv as [Hf Hw]. split; [done|].
    intros x Hx. eapply Hw, list_elem_of_delete_inv, Hx.
Qed.

Lemma fetched_inv_reachable s : reachable f c s → fetched_inv c s.
Proof.
  apply reachable_ind.
  - split; intros *; simpl; by intros ?%elem_of_nil.
  - intros ? ? _ Hi (_ & _ & Hs). eauto using fetched_inv_step.
Qed.

End invariants.

(** ** Schedules are runs *)

Section schedules.
Variable f : Flags.
Variable c : colly.Collector.

Lemma guard_Some b s s' : guard b s = Some s' → b = true ∧ s' = s.
Proof. destruct b; simpl; [|done]. by intros [= ->]. Qed.

Lemma headEffect_Some i s w e rest :
  headEffect i s = Some (w, e, rest) →
  workers s !! i = Some w ∧ todo w = Some (e :: rest).
Proof.
  unfold headEffect. destruct (workers s !! i) as [w'|]; [|done].
  destruct (todo w') as [[|e' rest']|] eqn:E; try done.
  by intros [= -> -> ->].
Qed.

Local Ltac guarded H :=
  apply guard_Some in H as [H ->];
  repeat (apply andb_true_iff in H as [? H]);
  repeat match goal with
    | Hb : bool_decide _ = true |- _ => apply bool_decide_eq_true in Hb
    | Hb : negb _ = true |- _ => apply negb_true_iff in Hb
    end.

Lemma act_sound a s s' : act f c a s = Some s' → step f c s s'.
Proof.
  destruct a; simpl; intros H.
  - guarded H. constructor; [done|lia].
  - guarded H. by constructor.
  - guarded H. by constructor.
  - guarded H. constructor; [done|lia].
  - guarded H. by constructor.
  - guarded H. by constructor.
  - guarded H. by constructor.
  - guarded H. by constructor.
  - guarded H. by constructor.
  - guarded H. by constructor.
  - destruct (workers s !! i) as [w|] eqn:Ew; [|done].
    destruct (todo w) eqn:Et; [done|]. guarded H.
    apply (step_response _ _ s i w hops base page
             (withURL (req w) (List.last hops (colly.URL (req w))) base));
      try done.
    apply Forall_forall. intros h Hh. eapply forallb_forall in H; [done|].
    by apply list_elem_of_In.
  - destruct (headEffect i s) as [[[w [line|link|u d]] rest]|] eqn:E; try done.
    apply headEffect_Some in E as [? ?]. guarded H.
    eapply step_send; try done. lia.
  - destruct (headEffect i s) as [[[w [line|link|u d]] rest]|] eqn:E; try done.
    apply headEffect_Some in E as [? ?]. guarded H.
    by eapply step_handoff.
  - destruct (headEffect i s) as [[[w [line|link|u d]] rest]|] eqn:E; try done.
    apply headEffect_Some in E as [? ?]. guarded H.
    by eapply step_late_send.
  - destruct (headEffect i s) as [[[w [line|link|u d]] rest]|] eqn:E; try done.
    apply headEffect_Some in E as [? ?]. injection H as <-.
    by eapply step_link.
  - destruct (headEffect i s) as [[[w [line|link|u d]] rest]|] eqn:E; try done.
    apply headEffect_Some in E as [? ?]. injection H as <-.
    by eapply step_link_mark.
  - destruct (workers s !! i) as [w|] eqn:Ew; [|done].
    destruct (todo w) as [[|]|] eqn:Et; try done. injection H as <-.
    by eapply step_done.
  - destruct (results s) as [|res rest] eqn:Er; [done|]. injection H as <-.
    by eapply step_recv.
  - guarded H. by constructor.
Qed.

Lemma exec_sound acts s s' :
  exec f c acts s = Some s' → rtc (run_step f c) s s'.
Proof.
  revert s; induction acts as [|a acts IH]; simpl; intros s H.
  - injection H as <-. constructor.
  - destruct (exited s) eqn:Ee; [done|].
    destruct (panicked s) eqn:Ep; [done|].
    destruct (act f c a s) as [s1|] eqn:Ea; [|done].
    eapply rtc_l; [|by apply IH]. split_and!; try done. by eapply act_sound.
Qed.

Lemma exec_reachable acts s :
  exec f c acts (initial SupStart) = Some s → reachable f c s.
Proof. apply exec_sound. Qed.

End schedules.

(** ** Start-up *)

Lemma run_reachable f acts : reachable f (collectorOf f) (run f acts).
Proof.
  unfold run. destruct (exec _ _ _ _) as [s|] eqn:E; simpl.
  - by eapply exec_reachable.
  - constructor.
Qed.

(** What [main] has done when it gets as far as the crawl. *)
Lemma main_startup_Crawl f headers hostname c :
  main_startup f = Crawl headers hostname c →
  parseHeaders (rawHeaders f) None = Ok headers
  ∧ extractHostname (urll f) = Ok hostname
  ∧ newCollector f headers hostname = Ok c
  ∧ (0 ≤ threads f)%Z
  ∧ chanSizeOK (threads f) = true
  ∧ (subsInScope f = true → regexp.covered (scopePattern hostname) = true).
Proof.
  unfold main_startup.
  destruct (parseHeaders _ _) as [h| |]; try done.
  destruct (chanSizeOK (threads f)) eqn:Et; [|done]. simpl.
  destruct (extractHostname _) as [h'| |]; try done.
  destruct (subsInScope f && negb (regexp.covered (scopePattern h'))) eqn:Es;
    [done|].
  destruct (newCollector _ _ _) as [c'| |] eqn:Ec; try done.
  intros [= -> -> ->]. split_and!; try done.
  - unfold chanSizeOK in Et. lia.
  - intros Hs. rewrite Hs in Es. simpl in Es. by apply negb_false_iff in Es.
Qed.

Lemma newCollector_Ok f headers hostname c :
  newCollector f headers hostname = Ok c →
  colly.MaxDepth c = depth f
  ∧ colly.DisallowedDomains c = []
  ∧ colly.redirectHandler c = disableRedirects f
  ∧ colly.AllowedDomains c =
      (if subsInScope f then [] else allowed_domains headers hostname)
  ∧ (subsInScope f = false → colly.URLFilters c = [])
  ∧ (subsInScope f = true →
       ∃ re, regexp.Compile (scopePattern hostname) = Some re
             ∧ colly.URLFilters c = [re]).
Proof.
  unfold newCollector. destruct (subsInScope f).
  - destruct (regexp.Compile _) as [re|]; [|done].
    intros [= <-]. simpl. split_and!; try done. intros _. by exists re.
  - intros [= <-]. simpl. split_and!; try done.
Qed.

(** ** Depth and scope of the requests (C3, C9) *)

(** C3, as the code has it.  The collector numbers the seed 1 and a link
    one more than the page it is on.  When [-d] is at least 1, no request
    ever made has a depth above it.  (When [-d] is 0 or negative the
    collector applies no limit.) *)
Theorem fetched_within_depth (f : Flags) (headers : Headers) (hostname : string)
    (c : colly.Collector) :
  main_startup f = Crawl headers hostname c →
  (∀ visited u r visited',
     colly.Visit c visited u = (inr r, visited') → colly.Depth r = 1%Z)
  ∧ (∀ visited page link r visited',
       colly.Request_Visit c visited page link = (inr r, visited') →
       colly.Depth r = wrap64 (colly.Depth page + 1))
  ∧ ((0 < depth f)%Z →
     ∀ s u d, reachable f c s → (u, d) ∈ fetched s → (d ≤ depth f)%Z).
Proof.
  intros Hm. apply main_startup_Crawl in Hm as (_ & _ & Hc & _).
  apply newCollector_Ok in Hc as (Hd & _).
  split_and!.
  - intros visited u r visited' H. by apply scrape_inr in H as (? & _).
  - intros visited page link r visited' H. by apply scrape_inr in H as (? & _).
  - intros Hpos s u d Hr Hin.
    destruct (fetched_inv_reachable f c s Hr) as [Hf _].
    destruct (Hf u d Hin) as [Hok _]. rewrite <- Hd. apply Hok. lia.
Qed.

(** The fixture run, with the default [-d 2]: the seed at depth 1 and its
    link at depth 2. *)
Lemma fetched_within_depth_witness :
  main_startup flags0 = Crawl None "h" (collectorOf flags0)
  ∧ map snd (fetched (run flags0 fixtureSchedule)) = [1%Z; 2%Z]
  ∧ ∀ u d, (u, d) ∈ fetched (run flags0 fixtureSchedule) → (d ≤ 2)%Z.
Proof.
  assert (main_startup flags0 = Crawl None "h" (collectorOf flags0)) as Hm
    by (vm_compute; reflexivity).
  split; [exact Hm|]. split; [vm_compute; reflexivity|].
  intros u d.
  destruct (fetched_within_depth flags0 None "h" _ Hm) as (_ & _ & H).
  apply (H ltac:(reflexivity) _ u d (run_reachable flags0 fixtureSchedule)).
Defined.

(** With [-d 0] the link of the seed page, one hop from the seed, is
    requested: its depth exceeds 0 whether the seed counts as 0 or as 1. *)
Lemma depth_0_follows_links :
  depth flagsDepth0 = 0%Z
  ∧ reachable flagsDepth0 (collectorOf flagsDepth0) (run flagsDepth0 linkSchedule)
  ∧ fetched (run flagsDepth0 linkSchedule)
    = [(colly.URL (pageAt "http://h/" 1), 1%Z);
       (colly.URL (pageAt "http://h/a" 2), 2%Z)].
Proof.
  split; [reflexivity|]. split; [apply run_reachable|]. vm_compute. reflexivity.
Qed.

Lemma inList_In x xs : colly.inList x xs = true → x ∈ xs.
Proof.
  unfold colly.inList. intros (y & Hy & ->%String.eqb_eq)%existsb_exists.
  by apply list_elem_of_In.
Qed.

(** C9.  Without [-subs] the collector's allowed domains are the seed's
    hostname followed by the value of the [Host] header when [-h] gives
    one, and every request ever made, redirects included, is for a URL
    whose hostname is one of the two. *)
Theorem fetched_host_allowed (f : Flags) (headers : Headers) (hostname : string)
    (c : colly.Collector) (s : State) (u : url.URL) (d : Z) :
  main_startup f = Crawl headers hostname c →
  subsInScope f = false →
  reachable f c s →
  (u, d) ∈ fetched s →
  extractHostname (urll f) = Ok hostname
  ∧ parseHeaders (rawHeaders f) None = Ok headers
  ∧ colly.AllowedDomains c
    = hostname :: match headers with
                  | Some m => match m !! "Host" with
                              | Some val => [val]
                              | None => []
                              end
                  | None => []
                  end
  ∧ (url.Hostname u = hostname
     ∨ ∃ m, headers = Some m ∧ m !! "Host" = Some (url.Hostname u)).
Proof.
  intros Hm Hsubs Hr Hin.
  apply main_startup_Crawl in Hm as (Hh & Hn & Hc & _).
  apply newCollector_Ok in Hc as (_ & Hdis & _ & Hall & _).
  rewrite Hsubs in Hall. split_and!; try done.
  destruct (fetched_inv_reachable f c s Hr) as [Hf _].
  destruct (Hf u d Hin) as [_ Hok].
  unfold colly.isDomainAllowed in Hok. rewrite Hdis, Hall in Hok. simpl in Hok.
  apply orb_true_iff in Hok as [Hok%String.eqb_eq|Hok%inList_In]; [by left|].
  right.
  destruct headers as [m|]; [|by apply elem_of_nil in Hok].
  destruct (m !! "Host") as [val|] eqn:Ev; [|by apply elem_of_nil in Hok].
  apply list_elem_of_singleton in Hok as ->. by exists m.
Qed.

(** With [-h "Host: example.org"] a link to that host is requested and a
    link to another host is not. *)
Lemma fetched_host_allowed_witness :
  map (λ p, url.Hostname (fst p)) (fetched (run flagsHost hostSchedule))
  = ["h"; "example.org"]
  ∧ ∀ u d, (u, d) ∈ fetched (run flagsHost hostSchedule) →
      url.Hostname u = "h"
      ∨ ∃ m, parseHeaders "Host: example.org" None = Ok (Some m)
             ∧ m !! "Host" = Some (url.Hostname u).
Proof.
  split; [vm_compute; reflexivity|]. intros u d Hin.
  destruct (main_startup flagsHost) as [| | | |headers hostname c] eqn:Hm;
    try (vm_compute in Hm; discriminate).
  assert (c = collectorOf flagsHost) as -> by (unfold collectorOf; by rewrite Hm).
  destruct (fetched_host_allowed flagsHost headers hostname _ _ u d Hm
              ltac:(reflexivity) (run_reachable flagsHost hostSchedule) Hin)
    as (Hn & Hh & _ & [Hu|(m & -> & Hu)]).
  - left. rewrite Hu. vm_compute in Hn. by injection Hn as <-.
  - right. exists m. by split.
Defined.

(** ** The scope pattern of [-subs] (C2) *)

(** C2 at a failing input.  With [-subs] and the seed
    [http://hostname.com/], the links to [nothostname.com] and
    [evil-hostname.com] are refused, as the claim has it, but the link to
    [hostname.com.evil.com] is requested: the pattern asks for a host
    boundary before the hostname only, and [Match] looks for the pattern
    anywhere in the URL. *)
Theorem subs_scope_lets_foreign_host_in :
  scopePattern "hostname.com" = ".*(\.|\/\/)hostname\.com((#|\/|\?).*)?"
  ∧ reachable flagsSubs (collectorOf flagsSubs) (run flagsSubs subsSchedule)
  ∧ map (λ p, url.Hostname (fst p)) (fetched (run flagsSubs subsSchedule))
    = ["hostname.com"; "hostname.com.evil.com"]
  ∧ map (colly.isMatchingFilter (colly.URLFilters (collectorOf flagsSubs)))
      ["http://nothostname.com/"; "http://evil-hostname.com/";
       "http://hostname.com.evil.com/"; "http://evil.com/?next=//hostname.com";
       "http://hostname.community/"]
    = [false; false; true; true; true].
Proof.
  split; [reflexivity|]. split; [apply run_reachable|].
  split; vm_compute; reflexivity.
Qed.

(** ** [-unique] (C4) *)

Lemma consume_unique_inv sm out res sm' out' :
  (∀ x, x ∈ out → x ∈ sm) → NoDup out →
  consume true (sm, out) res = (sm', out') →
  (∀ x, x ∈ out' → x ∈ sm') ∧ NoDup out'.
Proof.
  intros Hsub Hnd. unfold consume, isUnique.
  destruct (bool_decide (res ∈ sm)) eqn:E; intros [= <- <-].
  - done.
  - apply bool_decide_eq_false in E. split.
    + intros x [Hx|Hx%list_elem_of_singleton]%elem_of_app; set_solver.
    + apply NoDup_app. split_and!; [done| |apply NoDup_singleton].
      intros x Hx ->%list_elem_of_singleton. by apply E, Hsub.
Qed.

(** With [-unique] no line is written twice. *)
Lemma written_unique_NoDup received : NoDup (written true received).
Proof.
  unfold written.
  assert (∀ st, (∀ x, x ∈ st.2 → x ∈ st.1) → NoDup st.2 →
            NoDup (fold_left (consume true) received st).2) as H.
  { induction received as [|res received IH]; intros [sm out] Hsub Hnd; [done|].
    change (fold_left (consume true) (res :: received) (sm, out))
      with (fold_left (consume true) received (consume true (sm, out) res)).
    destruct (consume true (sm, out) res) as [sm' out'] eqn:E.
    destruct (consume_unique_inv _ _ _ _ _ Hsub Hnd E) as [Hsub' Hnd'].
    by apply (IH (sm', out')). }
  apply H; simpl; [set_solver|constructor].
Qed.

(** C4 at a failing input.  With [-unique -s], a page that has the same
    URL as an anchor and as a form target gets that URL written twice:
    [isUnique] is given the formatted line, and the two lines differ in
    their source tag. *)
Theorem unique_writes_url_of_two_sources_twice :
  reachable flagsUniqueSource (collectorOf flagsUniqueSource)
    (run flagsUniqueSource uniqueSchedule)
  ∧ exited (run flagsUniqueSource uniqueSchedule) = Some 0%Z
  ∧ stdout (run flagsUniqueSource uniqueSchedule)
    = ["[href] http://h/x"; "[form] http://h/x"]
  ∧ written true ["[href] http://h/x"; "[form] http://h/x"]
    = ["[href] http://h/x"; "[form] http://h/x"].
Proof.
  split; [apply run_reachable|]. split_and!; vm_compute; reflexivity.
Qed.

(** ** The callbacks (C5, C7) *)

Lemma resultLine_None link src showSource showJson r :
  resultLine link src showSource showJson r = None ↔ colly.AbsoluteURL r link = "".
Proof.
  unfold resultLine. destruct (String.eqb_spec (colly.AbsoluteURL r link) "");
    simpl; split; congruence.
Qed.

Lemma printResult_sends link src showSource showJson r line :
  Send line ∈ printResult link src showSource showJson r
  ↔ resultLine link src showSource showJson r = Some line.
Proof.
  unfold printResult. destruct (resultLine _ _ _ _ _) as [l|].
  - rewrite list_elem_of_singleton. split; congruence.
  - split; [by intros ?%elem_of_nil|done].
Qed.

Lemma printResult_no_visit link src showSource showJson r l :
  Visit l ∉ printResult link src showSource showJson r.
Proof.
  unfold printResult. destruct (resultLine _ _ _ _ _).
  - by intros ?%list_elem_of_singleton.
  - by intros ?%elem_of_nil.
Qed.

(** C5, as the code has it.  An anchor produces no Result exactly when
    its [href] resolves to the empty absolute URL; that is the case of a
    value that starts with [#] and of a value that does not parse.  Such
    an anchor adds no request either: the visit it asks for is refused as
    a missing URL. *)
Theorem empty_absolute_url_is_dropped (f : Flags) (c : colly.Collector)
    (visited : gset string) (r : colly.Request) (link : string) :
  ((∀ line, Send line ∉ onHTML f a_href r link) ↔ colly.AbsoluteURL r link = "")
  ∧ (colly.AbsoluteURL r link = "" →
       onHTML f a_href r link = [Visit link]
       ∧ colly.Request_Visit c visited r link = (inl colly.ErrMissingURL, visited))
  ∧ (strings.HasPrefix link "#" = true → colly.AbsoluteURL r link = "")
  ∧ ((∀ u, url.Parse link ≠ Ok u) → colly.AbsoluteURL r link = "").
Proof.
  split_and!.
  - simpl. rewrite <- (resultLine_None link "href" (showSource f) (showJson f)).
    split.
    + intros H. destruct (resultLine _ _ _ _ _) as [l|] eqn:E; [|done].
      exfalso. apply (H l), elem_of_app. left. by apply printResult_sends.
    + intros H line [Hin|Hin]%elem_of_app.
      * apply printResult_sends in Hin. congruence.
      * by apply list_elem_of_singleton in Hin.
  - intros H. split.
    + simpl. unfold printResult.
      by rewrite (proj2 (resultLine_None link "href" _ _ r) H).
    + unfold colly.Request_Visit, colly.scrape, colly.requestCheck.
      by rewrite H.
  - intros H. unfold colly.AbsoluteURL. by rewrite H.
  - intros H. unfold colly.AbsoluteURL, url.ParseRef.
    destruct (strings.HasPrefix link "#"); [done|].
    destruct (url.Parse link) as [u| |]; [by destruct (H u)|done..].
Qed.

(** The two values the claim names both resolve to a URL that is not
    empty, and a Result is sent for each. *)
Lemma javascript_and_empty_href_are_sent :
  onHTML flags0 a_href (pageAt "http://h/dir/page?x=1" 1) "javascript:void(0)"
  = [Send "javascript:void(0)"; Visit "javascript:void(0)"]
  ∧ onHTML flags0 a_href (pageAt "http://h/dir/page?x=1" 1) ""
    = [Send "http://h/dir/page?x=1"; Visit ""].
Proof. split; vm_compute; reflexivity. Qed.

(** C7, as the code has it.  Of the three callbacks only the one of
    [a[href]] asks the collector to visit what it found, once, after its
    Result; the callbacks of [script[src]] and [form[action]] only send a
    Result.  The request that a visit makes is one level below its
    page. *)
Theorem only_anchors_are_visited (f : Flags) (c : colly.Collector)
    (r : colly.Request) (attr : string) :
  (∃ sends, onHTML f a_href r attr = sends ++ [Visit attr]
            ∧ ∀ link, Visit link ∉ sends)
  ∧ (∀ link, Visit link ∉ onHTML f script_src r attr)
  ∧ (∀ link, Visit link ∉ onHTML f form_action r attr)
  ∧ (∀ visited r' visited',
       colly.Request_Visit c visited r attr = (inr r', visited') →
       colly.Depth r' = wrap64 (colly.Depth r + 1)
       ∧ colly.isDomainAllowed c (url.Hostname (colly.URL r')) = true
       ∧ (colly.URLFilters c ≠ [] →
            colly.isMatchingFilter (colly.URLFilters c)
              (colly.AbsoluteURL r attr) = true)).
Proof.
  split_and!.
  - eexists. split; [reflexivity|]. intros link. apply printResult_no_visit.
  - intros link. apply printResult_no_visit.
  - intros link. apply printResult_no_visit.
  - intros visited r' visited' H.
    by apply scrape_inr in H as (? & _ & _ & _ & ? & ?).
Qed.

(** A script of the seed's own host is sent as a Result and nothing is
    asked of the collector, although a visit of it would be accepted. *)
Lemma script_src_is_not_visited :
  onHTML flags0 script_src (pageAt "http://h/" 1) "/b.js" = [Send "http://h/b.js"]
  ∧ onHTML flags0 form_action (pageAt "http://h/" 1) "/c" = [Send "http://h/c"]
  ∧ fst (colly.Request_Visit (collectorOf flags0) ∅ (pageAt "http://h/" 1) "/b.js")
    = inr (pageAt "http://h/b.js" 2)
  ∧ map snd (fetched (run flags0 fixtureSchedule)) = [1%Z; 2%Z]
  ∧ map (λ p, url.String_ (fst p)) (fetched (run flags0 fixtureSchedule))
    = ["http://h/"; "http://h/a"].
Proof. split_and!; vm_compute; reflexivity. Qed.

(** ** Every run can be completed *)

Section completion.
Variable f : Flags.
Variable c : colly.Collector.

Local Notation "s ~>* t" := (rtc (run_step f c) s t) (at level 70).

Lemma live_step s s' :
  exited s = None → panicked s = false → step f c s s' → s ~>* s'.
Proof. intros. apply rtc_once. by split_and!. Qed.

(** With the channel open, the consumer and the fetch goroutines can
    work off everything that is pending; nothing else moves. *)
Local Ltac unfold_weight w :=
  change (workerWeight w)
    with (match todo w with
          | None => 2
          | Some es => 1 + sum_list_with effectWeight es
          end).

Lemma drain_workers n s :
  backlog s ≤ n → closed s = false → exited s = None → panicked s = false →
  ∃ s', s ~>* s' ∧ workers s' = [] ∧ results s' = []
        ∧ sup s' = sup s ∧ inner s' = inner s ∧ closed s' = false
        ∧ exited s' = None ∧ panicked s' = false.
Proof.
  revert s. induction n as [n IH] using lt_wf_ind. intros s Hn Hc He Hp.
  assert (∀ s1, step f c s s1 → backlog s1 < backlog s →
            closed s1 = false → exited s1 = None → panicked s1 = false →
            sup s1 = sup s → inner s1 = inner s →
            ∃ s', s ~>* s' ∧ workers s' = [] ∧ results s' = []
                  ∧ sup s' = sup s ∧ inner s' = inner s ∧ closed s' = false
                  ∧ exited s' = None ∧ panicked s' = false) as Hnext.
  { intros s1 Hs Hlt Hc1 He1 Hp1 Hsup Hin.
    destruct (IH (backlog s1) ltac:(lia) s1 ltac:(lia) Hc1 He1 Hp1)
      as (s' & Hrun & ? & ? & ? & ? & ? & ? & ?).
    exists s'. split_and!; try done; try congruence.
    eapply rtc_l; [|exact Hrun]. by split_and!. }
  destruct (results s) as [|res rest] eqn:Er.
  2:{ apply (Hnext (set_results rest (receive (unique f) res s)));
        [by apply step_recv|..]; try done.
      unfold backlog. simpl. rewrite Er. simpl. lia. }
  destruct (workers s) as [|w ws] eqn:Ew.
  { exists s. split_and!; try done. }
  destruct (todo w) as [[|[line|link|u d] rest]|] eqn:Et.
  - (* the goroutine is done *)
    apply (Hnext (set_workers (delete 0 (workers s)) s));
      [eapply step_done; [by rewrite Ew|done]|..]; try done.
    unfold backlog. simpl. rewrite Ew, Er. simpl.
    unfold_weight w. rewrite Et. simpl. lia.
  - (* a send: handed to the consumer *)
    apply (Hnext (setWorker 0 {| req := req w; todo := Some rest |}
                    (receive (unique f) line s)));
      [eapply step_handoff; [by rewrite Ew|done..]|..]; try done.
    unfold backlog. simpl. rewrite Ew, Er. simpl.
    unfold_weight w. rewrite Et. simpl. lia.
  - (* a visit, the checks *)
    pose proof (step_link f c s 0 w link rest ltac:(by rewrite Ew) Et) as Hs.
    apply (Hnext _ Hs); try done.
    unfold backlog, visitChecked. simpl. rewrite Ew, Er. simpl.
    unfold_weight w. rewrite Et.
    destruct (colly.requestCheck _ _ _ _); simpl; lia.
  - (* a visit, the mark *)
    pose proof (step_link_mark f c s 0 w u d rest ltac:(by rewrite Ew) Et) as Hs.
    destruct (colly.request c u d) as [e|r'].
    + apply (Hnext _ Hs); try done.
      unfold backlog, afterScrape. simpl. rewrite Ew, Er. simpl.
      unfold_weight w. rewrite Et. simpl. lia.
    + apply (Hnext _ Hs); try done.
      unfold backlog, afterScrape. simpl. rewrite Ew, Er. simpl.
      rewrite sum_list_with_app. simpl.
      unfold_weight w. rewrite Et. simpl. lia.
  - (* a response is awaited: it comes back empty *)
    apply (Hnext (setWorker 0
                    {| req := withURL (req w) (colly.URL (req w)) None;
                       todo := Some [] |}
                    (set_fetched (fetched s ++ []) s)));
      [apply (step_response f c s 0 w [] None emptyPage
                (withURL (req w) (colly.URL (req w)) None));
         [by rewrite Ew|done|constructor|done]|..]; try done.
    unfold backlog. simpl. rewrite Ew, Er. simpl.
    unfold_weight w. rewrite Et. simpl. lia.
Qed.

(** With the channel closed, the consumer empties the buffer and
    [main] returns. *)
Lemma drain_results s :
  closed s = true → exited s = None → panicked s = false →
  ∃ s', s ~>* s' ∧ exited s' = Some 0%Z.
Proof.
  remember (results s) as rs eqn:Er. revert s Er.
  induction rs as [|res rest IH]; intros s Er Hc He Hp.
  - exists (set_exited (Some 0%Z) s). split; [|done].
    apply live_step; try done. by apply step_exit.
  - destruct (IH (set_results rest (receive (unique f) res s)))
      as (s' & Hrun & Hex); try done.
    exists s'. split; [|done]. eapply rtc_l; [|exact Hrun].
    split_and!; try done. by apply step_recv.
Qed.

Lemma close_then_exit s :
  sup s = SupClose → closed s = false → exited s = None → panicked s = false →
  ∃ s', s ~>* s' ∧ exited s' = Some 0%Z.
Proof.
  intros Hs Hc He Hp.
  pose proof (step_close f c s Hs) as Hstep. rewrite Hc in Hstep.
  destruct (drain_results
              (set_sup SupDone (set_closed true (set_closes (S (closes s)) s)))
              eq_refl He Hp) as (s' & Hrun & Hex).
  exists s'. split; [|done]. eapply rtc_l; [|exact Hrun]. by split_and!.
Qed.

Lemma select_then_exit s :
  sup s = SupSelect → closed s = false → exited s = None → panicked s = false →
  ∃ s', s ~>* s' ∧ exited s' = Some 0%Z.
Proof.
  intros Hs Hc He Hp.
  destruct (close_then_exit (set_sup SupClose s)) as (s' & Hrun & Hex);
    try done.
  exists s'. split; [|done]. eapply rtc_l; [|exact Hrun].
  split_and!; try done. by apply step_timeout.
Qed.

Lemma wait_then_exit s :
  sup s = SupWait → closed s = false → exited s = None → panicked s = false →
  ∃ s', s ~>* s' ∧ exited s' = Some 0%Z.
Proof.
  intros Hs Hc He Hp.
  destruct (drain_workers (backlog s) s) as
    (s1 & Hrun1 & Hw & _ & Hs1 & _ & Hc1 & He1 & Hp1); try done.
  destruct (close_then_exit (set_sup SupClose s1)) as (s' & Hrun & Hex);
    try done.
  exists s'. split; [|done]. etrans; [exact Hrun1|].
  eapply rtc_l; [|exact Hrun]. split_and!; try done.
  apply step_wait; [congruence|done].
Qed.

Lemma mark_then_exit s :
  sup s = SupMark → closed s = false → exited s = None → panicked s = false →
  ∃ s', s ~>* s' ∧ exited s' = Some 0%Z.
Proof.
  intros Hs Hc He Hp.
  pose proof (step_visit_mark f c s Hs) as Hstep.
  destruct (wait_then_exit
              (set_sup SupWait
                 (afterScrape (colly.request c (urll f) 1,
                               colly.markVisited c (visited s) (urll f)) s)))
    as (s' & Hrun & Hex); try done;
    try (by unfold afterScrape; simpl; destruct (colly.request c (urll f) 1)).
  exists s'. split; [|done]. eapply rtc_l; [|exact Hrun]. by split_and!.
Qed.

Lemma start_then_exit s :
  sup s = SupStart → closed s = false → exited s = None → panicked s = false →
  ∃ s', s ~>* s' ∧ exited s' = Some 0%Z.
Proof.
  intros Hs Hc He Hp. destruct (decide (timeout f = (-1)%Z)) as [Ht|Ht].
  - pose proof (step_visit f c s Hs Ht) as Hstep.
    destruct (colly.requestCheck c (visited s) (urll f) 1) as [e|v].
    + destruct (wait_then_exit (set_sup SupWait s)) as (s' & Hrun & Hex);
        try done.
      exists s'. split; [|done]. eapply rtc_l; [|exact Hrun]. by split_and!.
    + destruct (mark_then_exit (set_sup SupMark s)) as (s' & Hrun & Hex);
        try done.
      exists s'. split; [|done]. eapply rtc_l; [|exact Hrun]. by split_and!.
  - destruct (select_then_exit (set_sup SupSelect (set_inner InnerStart s)))
      as (s' & Hrun & Hex); try done.
    exists s'. split; [|done]. eapply rtc_l; [|exact Hrun].
    split_and!; try done. by apply step_spawn.
Qed.

Lemma sup_not_returned s : reachable f c s → sup s ≠ SupReturned.
Proof.
  revert s. apply (reachable_ind f c (λ s, sup s ≠ SupReturned)); [done|].
  intros s0 s1 _ Hi (_ & _ & Hs). step_cases Hs; congruence.
Qed.

(** From every state of a run, [main] can return, with exit code 0. *)
Lemma can_exit s :
  reachable f c s → ∃ s', s ~>* s' ∧ exited s' = Some 0%Z.
Proof.
  intros Hr. pose proof (sup_not_returned s Hr) as Hnr.
  destruct (close_inv_reachable f c s Hr) as (Hp & Hc & _ & He).
  destruct (exited s) as [code|] eqn:Ex.
  { destruct (He code eq_refl) as [-> _]. exists s. split; [constructor|done]. }
  destruct (closed s) eqn:Ecl.
  { by apply drain_results. }
  destruct (sup s) eqn:Es.
  - done.
  - by apply start_then_exit.
  - by apply mark_then_exit.
  - by apply wait_then_exit.
  - by apply select_then_exit.
  - by apply close_then_exit.
  - destruct Hc as [_ Hc]. by specialize (Hc eq_refl).
Qed.

End completion.

(** ** The [results] channel (C1) *)

(** C1, as the code has it.  In every state of every run no panic has
    gone unrecovered, [close(results)] has run at most once and exactly
    once when the channel is closed, [main] returns only after it has run,
    and once the channel is closed nothing is added to its buffer.  Every
    run can be continued until [main] has returned, the channel closed
    once.  Without [-timeout] no send ever finds the channel closed.  (With a timeout a
    send can find it closed: the panic of that send is recovered in
    [printResult] and the line is dropped.) *)
Theorem results_closed_once (f : Flags) (c : colly.Collector) (s : State) :
  reachable f c s →
  panicked s = false
  ∧ closes s ≤ 1
  ∧ (closed s = true ↔ closes s = 1)
  ∧ (∀ code, exited s = Some code → closes s = 1)
  ∧ (timeout f = (-1)%Z → lateSends s = [])
  ∧ (∀ s', step f c s s' → closed s = true →
       ∃ taken, results s = taken ++ results s')
  ∧ (∃ s', rtc (run_step f c) s s' ∧ exited s' = Some 0%Z ∧ closes s' = 1).
Proof.
  intros Hr. destruct (close_inv_reachable f c s Hr) as (Hp & Hc & Hn & He).
  split_and!.
  - done.
  - rewrite Hn. destruct (closed s); lia.
  - rewrite Hn. destruct (closed s); split; (done || lia).
  - intros code Hx. apply He in Hx as [_ Hx]. by rewrite Hn, Hx.
  - intros Ht. by destruct (wait_inv_reachable f c s Ht Hr) as (_ & _ & ? & _).
  - intros s' Hs Hcl. by eapply closed_results_shrink.
  - destruct (can_exit f c s Hr) as (s' & Hrun & Hex). exists s'.
    split_and!; try done.
    assert (reachable f c s') as Hr' by (unfold reachable; by etrans).
    destruct (close_inv_reachable f c s' Hr') as (_ & _ & Hn' & He').
    destruct (He' _ Hex) as [_ Hcl]. by rewrite Hn', Hcl.
Qed.

(** The fixture run ends with the channel closed once and [main]
    returned. *)
Lemma results_closed_once_witness :
  reachable flags0 (collectorOf flags0) (run flags0 fixtureSchedule)
  ∧ exited (run flags0 fixtureSchedule) = Some 0%Z
  ∧ closes (run flags0 fixtureSchedule) ≤ 1
  ∧ lateSends (run flags0 fixtureSchedule) = [].
Proof.
  pose proof (run_reachable flags0 fixtureSchedule) as Hr.
  destruct (results_closed_once _ _ _ Hr) as (_ & Hle & _ & _ & Hl & _ & _).
  split; [exact Hr|]. split; [vm_compute; reflexivity|].
  split; [exact Hle|]. apply Hl. reflexivity.
Defined.

(** With [-timeout 1] the timer can fire while the callbacks of the seed
    page are still to run: the goroutine of [main] closes the channel and
    the send of [printResult] then finds it closed. *)
Lemma send_finds_results_closed :
  reachable flagsTimeout (collectorOf flagsTimeout)
    (run flagsTimeout timeoutSchedule)
  ∧ closed (run flagsTimeout timeoutSchedule) = true
  ∧ lateSends (run flagsTimeout timeoutSchedule) = ["http://h/a"].
Proof.
  split; [apply run_reachable|]. split; vm_compute; reflexivity.
Qed.

(** ** Exit codes (C6) *)

(** When the seed does not parse, the goroutine of [main] returns
    without closing the channel, no goroutine can move, and [main] waits in
    its [range] loop for ever. *)
Lemma returned_is_stuck f c s :
  rtc (run_step f c) (initial SupReturned) s →
  s = initial SupReturned ∧ exited s = None.
Proof.
  intros H. remember (initial SupReturned) as s0 eqn:E.
  induction H as [|x y z (_ & _ & Hs) _ _]; [by subst|].
  subst x. exfalso. inversion Hs; subst; simpl in *; try done;
    by match goal with H : [] !! _ = Some _ |- _ => rewrite lookup_nil in H end.
Qed.





(** A seed that does not parse: the goroutine returns, nothing exits. *)
Example unparsable_seed_returns :
  main_startup (with_urll "://h" flags0) = Returned.
Proof. vm_compute. reflexivity. Qed.

(** ** The consumer loops and [isUnique] *)

Section consumer.
Variable f : Flags.
Variable c : colly.Collector.

Lemma unique_inv_receive res s :
  unique_inv f s → unique_inv f (receive (unique f) res s).
Proof.
  unfold unique_inv, receive, consume, isUnique.
  destruct (unique f); [|done]. intros [Hnd Hsm].
  destruct (bool_decide (res ∈ sm s)) eqn:E; simpl; [done|].
  apply bool_decide_eq_false in E. split.
  - apply NoDup_app. split_and!; [done| |apply NoDup_singleton].
    intros x Hx ->%list_elem_of_singleton. by apply E, Hsm.
  - intros x. rewrite elem_of_union, elem_of_singleton, elem_of_app,
      list_elem_of_singleton, Hsm. tauto.
Qed.

Lemma unique_inv_ext s s' :
  sm s' = sm s → stdout s' = stdout s → unique_inv f s → unique_inv f s'.
Proof. unfold unique_inv. by intros -> ->. Qed.

Lemma unique_inv_step s s' : unique_inv f s → step f c s s' → unique_inv f s'.
Proof.
  intros Hi Hs.
  inversion Hs; subst; clear Hs;
    lazymatch goal with
    | |- context [receive ?u ?l s] =>
        apply (unique_inv_ext (receive u l s)); [| |by apply unique_inv_receive]
    | _ => apply (unique_inv_ext s); [| |done]
    end;
    autounfold with state; simpl; repeat case_match; done.
Qed.

Lemma unique_inv_reachable s : reachable f c s → unique_inv f s.
Proof.
  apply reachable_ind.
  - unfold unique_inv. simpl. destruct (unique f); [|done].
    split; [constructor|]. intros x. set_solver.
  - intros ? ? _ Hi (_ & _ & Hs). eauto using unique_inv_step.
Qed.

(** What a step does to the lines written and waiting. *)
Lemma kept_step s s' :
  unique_inv f s → step f c s s' →
  stdout s `prefix_of` stdout s'
  ∧ (∀ x, x ∈ stdout s ++ results s → x ∈ stdout s' ++ results s')
  ∧ (unique f = false →
       stdout s ++ results s `prefix_of` stdout s' ++ results s').
Proof.
  intros Hi Hs.
  assert (∀ res, stdout (receive (unique f) res s)
                 = stdout s ++ (if unique f && bool_decide (res ∈ sm s)
                                then [] else [res])) as Hrecv.
  { intros res. unfold receive, consume, isUnique. simpl.
    destruct (unique f); [|done]. simpl.
    destruct (bool_decide (res ∈ sm s)); simpl; [|done].
    by rewrite app_nil_r. }
  assert (∀ res, unique f && bool_decide (res ∈ sm s) = true → res ∈ stdout s)
    as Hold.
  { intros res [Hu Hin%bool_decide_eq_true]%andb_true_iff.
    unfold unique_inv in Hi. rewrite Hu in Hi. by apply Hi. }
  assert (∀ t, stdout t = stdout s → results t = results s →
            stdout s `prefix_of` stdout t
            ∧ (∀ x, x ∈ stdout s ++ results s → x ∈ stdout t ++ results t)
            ∧ (unique f = false →
                 stdout s ++ results s `prefix_of` stdout t ++ results t))
    as Hframe by (by intros t -> ->).
  inversion Hs; subst; clear Hs;
    try (apply Hframe; autounfold with state; simpl; repeat case_match; done).
  - (* send *)
    simpl. split_and!; [done| |].
    + intros x. rewrite !elem_of_app. tauto.
    + intros _. rewrite (assoc app). by apply prefix_app_r.
  - (* handoff *)
    change (stdout (setWorker i {| req := req w; todo := Some rest |}
                      (receive (unique f) line s)))
      with (stdout (receive (unique f) line s)).
    change (results (setWorker i {| req := req w; todo := Some rest |}
                       (receive (unique f) line s)))
      with (results s).
    rewrite Hrecv. split_and!.
    + by apply prefix_app_r.
    + intros x. rewrite !elem_of_app. tauto.
    + intros ->. simpl. match goal with H : results s = [] |- _ => rewrite H end.
      rewrite !app_nil_r. by apply prefix_app_r.
  - (* receive *)
    change (stdout (set_results rest (receive (unique f) res s)))
      with (stdout (receive (unique f) res s)).
    change (results (set_results rest (receive (unique f) res s))) with rest.
    rewrite Hrecv. match goal with H : results s = _ |- _ => rewrite H end.
    split_and!.
    + by apply prefix_app_r.
    + intros x. rewrite !elem_of_app, elem_of_cons.
      intros [?|[->|?]]; [tauto| |tauto].
      destruct (unique f && bool_decide (res ∈ sm s)) eqn:E.
      * left. left. by apply Hold.
      * left. right. by apply list_elem_of_singleton.
    + intros ->. simpl. by rewrite <- (assoc app).
Qed.

Lemma kept_run s s' :
  reachable f c s → rtc (run_step f c) s s' →
  stdout s `prefix_of` stdout s'
  ∧ (∀ x, x ∈ stdout s ++ results s → x ∈ stdout s' ++ results s')
  ∧ (unique f = false →
       stdout s ++ results s `prefix_of` stdout s' ++ results s').
Proof.
  intros Hr Hrun. induction Hrun as [s|s t s' Hst Hrun IH]; [done|].
  assert (reachable f c t) as Ht by (unfold reachable; by eapply rtc_r).
  destruct (IH Ht) as (H1 & H2 & H3).
  destruct Hst as (_ & _ & Hst).
  destruct (kept_step s t (unique_inv_reachable s Hr) Hst) as (K1 & K2 & K3).
  split_and!.
  - by etrans.
  - auto.
  - intros Hu. etrans; [by apply K3|by apply H3].
Qed.

Lemma exit_inv_reachable s : reachable f c s → exit_inv s.
Proof.
  apply reachable_ind; [done|].
  intros s1 s2 _ _ (Hx & _ & Hs) code.
  inversion Hs; subst; clear Hs;
    try (autounfold with state; simpl; repeat case_match;
         simpl; congruence).
  done.
Qed.

End consumer.

(** ** Lines on their way to standard output *)

Section held_lines.
Variable f : Flags.
Variable c : colly.Collector.

Lemma pendingIn_insert ws i w e rest line :
  ws !! i = Some w → todo w = Some (e :: rest) → pendingIn ws line →
  pendingIn (<[i := {| req := req w; todo := Some rest |}]> ws) line
  ∨ e = Send line.
Proof.
  intros Hi Ht (j & w0 & effs & Hj & Ht0 & Hin).
  destruct (decide (j = i)) as [->|Hne].
  - rewrite Hi in Hj. injection Hj as <-. rewrite Ht in Ht0.
    injection Ht0 as <-. apply elem_of_cons in Hin as [->|Hin]; [by right|].
    left. exists i, {| req := req w; todo := Some rest |}, rest.
    split; [|done]. apply list_lookup_insert_eq. by eapply lookup_lt_Some.
  - left. exists j, w0, effs. split; [|done].
    by rewrite list_lookup_insert_ne.
Qed.

Lemma pendingIn_checked ws i w link rest v line :
  ws !! i = Some w → todo w = Some (Visit link :: rest) → pendingIn ws line →
  pendingIn (<[i := {| req := req w;
                       todo := Some (visitChecked c v (req w) link ++ rest) |}]>
               ws) line.
Proof.
  intros Hi Ht (j & w0 & effs & Hj & Ht0 & Hin).
  destruct (decide (j = i)) as [->|Hne].
  - rewrite Hi in Hj. injection Hj as <-. rewrite Ht in Ht0.
    injection Ht0 as <-. apply elem_of_cons in Hin as [?|Hin]; [done|].
    exists i, {| req := req w;
                 todo := Some (visitChecked c v (req w) link ++ rest) |},
      (visitChecked c v (req w) link ++ rest).
    split; [|split; [done|]].
    + apply list_lookup_insert_eq. by eapply lookup_lt_Some.
    + apply elem_of_app. by right.
  - exists j, w0, effs. split; [|done].
    by rewrite list_lookup_insert_ne.
Qed.

Lemma pendingIn_replace_idle ws i w w' line :
  ws !! i = Some w → todo w = None → pendingIn ws line →
  pendingIn (<[i := w']> ws) line.
Proof.
  intros Hi Ht (j & w0 & effs & Hj & Ht0 & Hin).
  destruct (decide (j = i)) as [->|Hne].
  - rewrite Hi in Hj. injection Hj as <-. congruence.
  - exists j, w0, effs. split; [|done]. by rewrite list_lookup_insert_ne.
Qed.

Lemma pendingIn_delete ws i w line :
  ws !! i = Some w → todo w = Some [] → pendingIn ws line →
  pendingIn (delete i ws) line.
Proof.
  intros Hi Ht (j & w0 & effs & Hj & Ht0 & Hin).
  destruct (decide (j = i)) as [->|Hne].
  - rewrite Hi in Hj. injection Hj as <-. rewrite Ht in Ht0.
    injection Ht0 as <-. by apply elem_of_nil in Hin.
  - destruct (decide (j < i)) as [Hlt|Hge].
    + exists j, w0, effs. split; [|done]. by rewrite list_lookup_delete_lt.
    + destruct j as [|j']; [lia|]. exists j', w0, effs. split; [|done].
      rewrite list_lookup_delete_ge by lia. done.
Qed.

Lemma pendingIn_app ws ws' line :
  pendingIn ws line → pendingIn (ws ++ ws') line.
Proof.
  intros (j & w0 & effs & Hj & Ht0 & Hin). exists j, w0, effs.
  split; [|done]. by apply lookup_app_l_Some.
Qed.

Lemma pendingIn_afterScrape res s0 line :
  pendingIn (workers s0) line → pendingIn (workers (afterScrape res s0)) line.
Proof.
  unfold afterScrape. destruct res as [[e|r] v]; simpl; [done|].
  apply pendingIn_app.
Qed.

Lemma receive_keeps res s :
  unique_inv f s →
  (∀ x, x ∈ stdout s → x ∈ stdout (receive (unique f) res s))
  ∧ res ∈ stdout (receive (unique f) res s).
Proof.
  unfold unique_inv, receive, consume, isUnique. simpl.
  destruct (unique f); simpl.
  - intros [_ Hsm]. destruct (bool_decide (res ∈ sm s)) eqn:E; simpl.
    + apply bool_decide_eq_true in E. split; [done|]. by apply Hsm.
    + split; [intros x Hx|]; apply elem_of_app; [by left|right].
      by apply list_elem_of_singleton.
  - intros _. split; [intros x Hx|]; apply elem_of_app; [by left|right].
    by apply list_elem_of_singleton.
Qed.

Lemma afterScrape_proj res s0 :
  results (afterScrape res s0) = results s0
  ∧ stdout (afterScrape res s0) = stdout s0
  ∧ lateSends (afterScrape res s0) = lateSends s0.
Proof. unfold afterScrape. by destruct res as [[e|r] v]. Qed.

Lemma held_step s s' line :
  unique_inv f s → held s line → step f c s s' → held s' line.
Proof.
  intros Hu Hh Hs. unfold held in *.
  assert (∀ l, (∀ x, x ∈ stdout s → x ∈ stdout (receive (unique f) l s))
               ∧ l ∈ stdout (receive (unique f) l s)) as Hrecv
    by (intros l; by apply receive_keeps).
  inversion Hs; subst; clear Hs; try done;
    try match goal with
      | Hw : workers s !! _ = Some _, Ht : todo _ = Some (_ :: _) |- _ =>
          pose proof (λ Hp, pendingIn_insert _ _ _ _ _ line Hw Ht Hp) as Hins
      end.
  - (* visit, the mark *)
    destruct (afterScrape_proj (colly.request c (urll f) 1,
                                colly.markVisited c (visited s) (urll f)) s)
      as (E1 & E2 & E3).
    simpl. rewrite E1, E2, E3.
    destruct Hh as [Hp|Hh]; [left; by apply pendingIn_afterScrape|by right].
  - (* inner visit, the mark *)
    destruct (afterScrape_proj (colly.request c (urll f) 1,
                                colly.markVisited c (visited s) (urll f)) s)
      as (E1 & E2 & E3).
    simpl. rewrite E1, E2, E3.
    destruct Hh as [Hp|Hh]; [left; by apply pendingIn_afterScrape|by right].
  - (* close *) by destruct (closed s).
  - (* response *)
    simpl. destruct Hh as [Hp|Hh]; [left|by right].
    by eapply pendingIn_replace_idle.
  - (* send *)
    simpl. destruct Hh as [Hp|[Hr|Hh]]; [|right; left|by right; right].
    + destruct (Hins Hp) as [?|[= <-]]; [by left|].
      right. left. apply elem_of_app. right. by apply list_elem_of_singleton.
    + apply elem_of_app. by left.
  - (* handoff *)
    match goal with
    | |- context [receive (unique f) ?l s] => destruct (Hrecv l) as [Hk Hin]
    end.
    match goal with
    | |- pendingIn (workers (setWorker ?i ?w' ?t)) _ ∨ _ =>
        change (pendingIn (<[i := w']> (workers s)) line ∨ line ∈ results s
                ∨ line ∈ stdout t ∨ line ∈ lateSends s)
    end.
    destruct Hh as [Hp|[Hr|[Ho|Hl]]].
    + destruct (Hins Hp) as [?|[= <-]]; [by left|]. right. right. by left.
    + by right; left.
    + right. right. left. by apply Hk.
    + by right; right; right.
  - (* late send *)
    simpl. destruct Hh as [Hp|[Hr|[Ho|Hl]]].
    + destruct (Hins Hp) as [?|[= <-]]; [by left|].
      right. right. right. apply elem_of_app. right.
      by apply list_elem_of_singleton.
    + by right; left.
    + by right; right; left.
    + right. right. right. apply elem_of_app. by left.
  - (* link, the checks *)
    simpl. destruct Hh as [Hp|Hh]; [left|by right].
    by eapply pendingIn_checked.
  - (* link, the mark *)
    match goal with
    | |- context [afterScrape ?r ?s0] =>
        destruct (afterScrape_proj r s0) as (E1 & E2 & E3);
        rewrite E1, E2, E3
    end.
    simpl. destruct Hh as [Hp|Hh]; [left|by right].
    apply pendingIn_afterScrape. simpl. by destruct (Hins Hp).
  - (* done *)
    simpl. destruct Hh as [Hp|Hh]; [left|by right].
    by eapply pendingIn_delete.
  - (* receive *)
    match goal with
    | |- context [receive (unique f) ?l s] => destruct (Hrecv l) as [Hk Hin]
    end.
    match goal with
    | Hres : results s = _ :: ?rest |- context [set_results ?rest ?t] =>
        change (pendingIn (workers s) line ∨ line ∈ rest
                ∨ line ∈ stdout t ∨ line ∈ lateSends s);
        rewrite Hres in Hh
    end.
    destruct Hh as [Hp|[Hr|[Ho|Hl]]].
    + by left.
    + apply elem_of_cons in Hr as [->|Hr]; [by right; right; left|].
      by right; left.
    + right. right. left. by apply Hk.
    + by right; right; right.
Qed.

Lemma held_run s s' line :
  reachable f c s → rtc (run_step f c) s s' → held s line → held s' line.
Proof.
  intros Hr Hrun. induction Hrun as [s|s t s' Hst Hrun IH]; [done|].
  intros Hh. apply IH.
  - unfold reachable. by eapply rtc_r.
  - destruct Hst as (_ & _ & Hst).
    eapply held_step; [by apply (unique_inv_reachable f c)|done|done].
Qed.

End held_lines.

(** ** Results and scope (C8) *)

(** Every effect of a callback on an element of the page is among the
    effects of the page. *)
Lemma pageEffects_elem f sel r page attr e :
  attr ∈ selected sel page → e ∈ onHTML f sel r attr → e ∈ pageEffects f r page.
Proof.
  intros Ha He.
  assert (e ∈ concat (map (onHTML f sel r) (selected sel page))) as Hin.
  { apply list_elem_of_In, in_concat. exists (onHTML f sel r attr).
    split; [|by apply list_elem_of_In].
    apply in_map_iff. exists attr. split; [done|]. by apply list_elem_of_In. }
  unfold pageEffects. rewrite !elem_of_app. destruct sel; tauto.
Qed.

(** Without [-timeout], what is on its way when [main] returns has been
    written. *)
Lemma held_exit f c s line code :
  timeout f = (-1)%Z → reachable f c s → held s line →
  exited s = Some code → line ∈ stdout s.
Proof.
  intros Ht Hr Hh Hx.
  destruct (exit_inv_reachable f c s Hr code Hx) as [He Hc].
  destruct (close_inv_reachable f c s Hr) as (_ & Hcl & _).
  destruct (wait_inv_reachable f c s Ht Hr) as (_ & _ & Hl & Hw).
  destruct Hh as [(i & w & effs & Hi & _)|[Hin|[Hin|Hin]]].
  - rewrite Hw in Hi; [by rewrite lookup_nil in Hi|]. right. by apply Hcl.
  - rewrite He in Hin. by apply elem_of_nil in Hin.
  - done.
  - rewrite Hl in Hin. by apply elem_of_nil in Hin.
Qed.

(** C8, as the code has it.  Whatever the collector's scope, an element
    of any of the three selectors whose attribute resolves to an absolute
    URL that is not empty has a Result built from its source and that URL,
    in the format the flags choose; sending it is the first thing its
    callback does, and only the callback of [a[href]] then asks for a visit,
    which alone depends on the scope.  From the arrival of the page on, the
    Result is always still to be sent, in the buffer of [results], written,
    or dropped by a send that found the channel closed.  Without [-timeout]
    it is written by the time [main] returns, and [main] can return.  (With
    [-timeout] it can be lost: [main] closes the channel and returns
    without waiting for the callbacks.) *)
Theorem result_sent_whatever_the_scope (f : Flags) (c : colly.Collector)
    (sel : Selector) (r : colly.Request) (attr : string) :
  colly.AbsoluteURL r attr ≠ "" →
  let line :=
    if showJson f then
      json.Marshal {| Source := sourceName sel; URL := colly.AbsoluteURL r attr |}
    else if showSource f then
      "[" +:+ sourceName sel +:+ "] " +:+ colly.AbsoluteURL r attr
    else colly.AbsoluteURL r attr in
  onHTML f sel r attr
  = Send line :: match sel with a_href => [Visit attr] | _ => [] end
  ∧ ∀ page s i w s',
      attr ∈ selected sel page →
      reachable f c s →
      workers s !! i = Some w → todo w = Some (pageEffects f r page) →
      rtc (run_step f c) s s' →
      held s' line
      ∧ (timeout f = (-1)%Z →
           (∀ code, exited s' = Some code → line ∈ stdout s')
           ∧ ∃ s'', rtc (run_step f c) s' s'' ∧ exited s'' = Some 0%Z
                    ∧ line ∈ stdout s'').
Proof.
  intros Hne line.
  assert (∀ src, printResult attr src (showSource f) (showJson f) r
                 = [Send (if showJson f then
                            json.Marshal {| Source := src;
                                            URL := colly.AbsoluteURL r attr |}
                          else if showSource f then
                            "[" +:+ src +:+ "] " +:+ colly.AbsoluteURL r attr
                          else colly.AbsoluteURL r attr)]) as Hp.
  { intros src. unfold printResult, resultLine.
    destruct (String.eqb_spec (colly.AbsoluteURL r attr) ""); [done|]. done. }
  assert (onHTML f sel r attr
          = Send line :: match sel with a_href => [Visit attr] | _ => [] end)
    as Hon.
  { destruct sel; simpl onHTML; by rewrite Hp. }
  split; [exact Hon|].
  intros page s i w s' Ha Hr Hi Ht Hrun.
  assert (held s line) as Hh.
  { left. exists i, w, (pageEffects f r page). split_and!; try done.
    apply (pageEffects_elem f sel r page attr); [done|]. rewrite Hon. by left. }
  assert (reachable f c s') as Hr' by (unfold reachable; by etrans).
  pose proof (held_run f c s s' line Hr Hrun Hh) as Hh'.
  split; [done|]. intros Ht1. split.
  - intros code Hx. by eapply held_exit.
  - destruct (can_exit f c s' Hr') as (s'' & Hrun' & Hx).
    exists s''. split_and!; try done.
    eapply (held_exit f c); [done| |by eapply held_run|done].
    unfold reachable. by etrans.
Qed.

(** A form whose target is on another host than the seed: the collector
    would refuse to visit it, and from the arrival of the page the run can
    be completed with its Result written. *)
Lemma result_sent_whatever_the_scope_witness :
  colly.AbsoluteURL (pageAt "http://h/" 1) "http://other.org/login"
  = "http://other.org/login"
  ∧ fst (colly.Request_Visit (collectorOf flags0) ∅ (pageAt "http://h/" 1)
           "http://other.org/login")
    = inl colly.ErrForbiddenDomain
  ∧ ∃ s'', rtc (run_step flags0 (collectorOf flags0))
             (run flags0 offScopeSchedule) s''
           ∧ exited s'' = Some 0%Z
           ∧ "http://other.org/login" ∈ stdout s''.
Proof.
  split; [vm_compute; reflexivity|]. split; [vm_compute; reflexivity|].
  destruct (result_sent_whatever_the_scope flags0 (collectorOf flags0)
              form_action (pageAt "http://h/" 1) "http://other.org/login")
    as [_ H].
  - vm_compute. discriminate.
  - destruct (workers (run flags0 offScopeSchedule)) as [|w ws] eqn:E;
      [vm_compute in E; discriminate|].
    destruct (H (onePage [] [] ["http://other.org/login"])
                (run flags0 offScopeSchedule) 0 w (run flags0 offScopeSchedule))
      as [_ H'].
    + left.
    + apply run_reachable.
    + by rewrite E.
    + vm_compute in E. by injection E as <- _.
    + constructor.
    + exact (proj2 (H' eq_refl)).
Defined.

(** With [-timeout 1] the timer can fire while the callbacks of the seed
    page are still to run.  The anchor of that page resolves to
    [http://h/a], and its Result is never written: [main] returns before it
    is sent, or its send finds the channel closed and the line is dropped. *)
Lemma timeout_loses_a_result :
  colly.AbsoluteURL (pageAt "http://h/" 1) "/a" = "http://h/a"
  ∧ reachable flagsTimeout (collectorOf flagsTimeout)
      (run flagsTimeout timeoutExitSchedule)
  ∧ todo <$> workers (run flagsTimeout timeoutExitSchedule)
    = [Some [Send "http://h/a"; Visit "/a"]]
  ∧ exited (run flagsTimeout timeoutExitSchedule) = Some 0%Z
  ∧ stdout (run flagsTimeout timeoutExitSchedule) = []
  ∧ reachable flagsTimeout (collectorOf flagsTimeout)
      (run flagsTimeout (timeoutSchedule ++ [AExit]))
  ∧ lateSends (run flagsTimeout (timeoutSchedule ++ [AExit])) = ["http://h/a"]
  ∧ exited (run flagsTimeout (timeoutSchedule ++ [AExit])) = Some 0%Z
  ∧ stdout (run flagsTimeout (timeoutSchedule ++ [AExit])) = [].
Proof.
  split; [vm_compute; reflexivity|]. split; [apply run_reachable|].
  split; [vm_compute; reflexivity|]. split; [vm_compute; reflexivity|].
  split; [vm_compute; reflexivity|]. split; [apply run_reachable|].
  split_and!; vm_compute; reflexivity.
Qed.

(** * Further properties of the program *)

(** ** Where the lines come from *)

Section lines.
Variable f : Flags.
Variable c : colly.Collector.














End lines.

(** ** The seed and the visited store *)

Section seed.
Variable f : Flags.
Variable c : colly.Collector.

Lemma idle_inv_step e s s' :
  (colly.Visit c ∅ (urll f)).1 = inl e →
  idle_inv f c s → step f c s s' → idle_inv f c s'.
Proof.
  intros Hseed (H1 & H2 & H3 & H4 & Hf & Hw & Hr & Ho & Hl) Hs.
  assert (∀ v, colly.requestCheck c ∅ (urll f) 1 = inr v →
            ∃ e', colly.request c (urll f) 1 = inl e') as Hpass.
  { intros v Hv. unfold colly.Visit in Hseed.
    rewrite scrape_split, Hv in Hseed. simpl in Hseed. by exists e. }
  unfold idle_inv.
  inversion Hs; subst; clear Hs;
    try (match goal with
         | H : workers s !! _ = Some _ |- _ => by rewrite Hw, lookup_nil in H
         | H : results s = _ :: _ |- _ => by rewrite Hr in H
         end).
  all: try (match goal with
            | |- context [colly.requestCheck _ (visited _) _ _] =>
                rewrite H3 in * by auto;
                destruct (colly.requestCheck c ∅ (urll f) 1) as [e'|v] eqn:Echeck;
                [|destruct (Hpass v eq_refl) as [e' He']]
            | |- context [afterScrape (colly.request _ _ _, _)] =>
                destruct H4 as [e' He']; [by auto|];
                unfold afterScrape; rewrite He'
            end).
  all: try destruct (closed s); simpl.
  all: split_and!; try done.
  all: intros [E|E]; try congruence.
  all: try (by eexists).
  all: try (by apply H4; auto).
  all: try (by apply H3; auto).
  all: try (by apply H1; auto).
  all: try (by apply H2; auto).
  all: try (exfalso; rewrite H1 in * by auto; congruence).
  all: try (exfalso; destruct H2 as [? ?]; [by auto|congruence]).
Qed.

Lemma idle_inv_reachable e s :
  (colly.Visit c ∅ (urll f)).1 = inl e → reachable f c s → idle_inv f c s.
Proof.
  intros Hseed. apply reachable_ind.
  - unfold idle_inv. simpl. split_and!; try done; by intros [?|?].
  - intros ? ? _ Hi (_ & _ & Hs). eauto using idle_inv_step.
Qed.

Lemma markVisited_sub v u : v ⊆ colly.markVisited c v u.
Proof.
  unfold colly.markVisited. destruct (colly.AllowURLRevisit c); [done|].
  apply union_subseteq_r.
Qed.

Lemma markVisited_in v u :
  colly.AllowURLRevisit c = false → u ∈ colly.markVisited c v u.
Proof.
  unfold colly.markVisited. intros ->. apply elem_of_union_l.
  by apply elem_of_singleton.
Qed.

Lemma requestCheck_again v u d :
  colly.AllowURLRevisit c = false → u ∈ v →
  ∃ e, colly.requestCheck c v u d = inl e.
Proof.
  intros Ha Hin. unfold colly.requestCheck. rewrite Ha. simpl.
  rewrite (bool_decide_eq_true_2 _ Hin).
  repeat (case_match; simpl; try done); by eexists.
Qed.

Lemma scrape_again v u d :
  colly.AllowURLRevisit c = false → u ∈ v →
  ∃ e, colly.scrape c v u d = (inl e, v).
Proof.
  intros Ha Hin. unfold colly.scrape.
  destruct (requestCheck_again v u d Ha Hin) as [e ->]. by exists e.
Qed.

Lemma afterScrape_visited res s : visited (afterScrape res s) = res.2.
Proof. unfold afterScrape. by destruct res as [[?|?] ?]. Qed.

Lemma visited_step s s' : step f c s s' → visited s ⊆ visited s'.
Proof.
  intros Hs. inversion Hs; subst; clear Hs; try done;
    try (by destruct (closed s)).
  - change (visited s ⊆ visited (afterScrape
              (colly.request c (urll f) 1,
               colly.markVisited c (visited s) (urll f)) s)).
    rewrite afterScrape_visited. apply markVisited_sub.
  - change (visited s ⊆ visited (afterScrape
              (colly.request c (urll f) 1,
               colly.markVisited c (visited s) (urll f)) s)).
    rewrite afterScrape_visited. apply markVisited_sub.
  - rewrite afterScrape_visited. apply markVisited_sub.
Qed.

Lemma visited_run s s' : rtc (run_step f c) s s' → visited s ⊆ visited s'.
Proof.
  induction 1 as [|s t s' (_ & _ & Hst) _ IH]; [done|].
  etrans; [by apply visited_step|done].
Qed.

End seed.

Lemma newCollector_fixed f headers hostname c :
  newCollector f headers hostname = Ok c →
  colly.AllowURLRevisit c = false
  ∧ colly.DisallowedURLFilters c = []
  ∧ colly.Async c = true
  ∧ colly.Headers c = headers
  ∧ colly.Parallelism c = threads f.
Proof.
  unfold newCollector. destruct (subsInScope f).
  - destruct (regexp.Compile _); [|done]. by intros [= <-].
  - by intros [= <-].
Qed.

(** ** The lines written *)

(** X1.  With [-unique] the lines written are the lines received with every
    repeat of an earlier line left out: no line twice, the same lines as
    received, in the order of their first arrival.  Without it every line
    received is written, in the order received. *)
Theorem unique_output_keeps_first_occurrences (received : list string) :
  NoDup (written true received)
  ∧ (∀ x, x ∈ written true received ↔ x ∈ received)
  ∧ written true received `sublist_of` received
  ∧ (∀ res, written true (received ++ [res])
            = written true received
              ++ (if bool_decide (res ∈ received) then [] else [res]))
  ∧ written false received = received.
Proof.
  assert (∀ l, let st := fold_left (consume true) l (∅, []) in
               (∀ x, x ∈ st.1 ↔ x ∈ l) ∧ (∀ x, x ∈ st.2 ↔ x ∈ l)) as Hst.
  { induction l as [|res l IH] using rev_ind; simpl.
    - split; intros x; set_solver.
    - rewrite fold_left_app. simpl.
      destruct (fold_left (consume true) l (∅, [])) as [sm out].
      destruct IH as [H1 H2]. simpl in *. unfold isUnique.
      destruct (bool_decide (res ∈ sm)) eqn:E; simpl.
      + apply bool_decide_eq_true in E. apply H1 in E.
        split; intros x; rewrite elem_of_app, list_elem_of_singleton;
          [rewrite H1|rewrite H2]; (split; [tauto|by intros [?| ->]]).
      + split; intros x; rewrite ?elem_of_union, ?elem_of_singleton,
          !elem_of_app, !list_elem_of_singleton; [rewrite H1|rewrite H2];
          tauto. }
  assert (∀ l res, written true (l ++ [res])
                   = written true l
                     ++ (if bool_decide (res ∈ l) then [] else [res])) as Hsnoc.
  { intros l res. unfold written. rewrite fold_left_app. simpl.
    destruct (Hst l) as [H1 _].
    destruct (fold_left (consume true) l (∅, [])) as [sm out]. simpl in *.
    unfold isUnique.
    rewrite (bool_decide_ext (res ∈ sm) (res ∈ l) (H1 res)).
    destruct (bool_decide (res ∈ l)); simpl; [by rewrite app_nil_r|done]. }
  split_and!.
  - apply written_unique_NoDup.
  - apply (Hst received).
  - induction received as [|res l IH] using rev_ind; [done|].
    rewrite Hsnoc. destruct (bool_decide (res ∈ l)).
    + rewrite app_nil_r. by apply sublist_inserts_r.
    + by apply sublist_app.
  - apply Hsnoc.
  - unfold written. induction received as [|res l IH] using rev_ind; [done|].
    rewrite fold_left_app. simpl.
    destruct (fold_left (consume false) l (∅, [])) as [sm out]. simpl in *.
    by rewrite IH.
Qed.

(** X2.  What has been written stays written, and a line in the buffer of
    [results] stays there until the consumer takes it: at any later point of
    the run it is in the buffer or written, and once [main] has returned it
    is written.  Without [-unique] the lines written, followed by the buffer,
    only ever grow at the end: lines are written in the order in which they
    entered the channel. *)
Theorem buffered_lines_are_written_in_order (f : Flags) (c : colly.Collector)
    (s s' : State) :
  reachable f c s → rtc (run_step f c) s s' →
  stdout s `prefix_of` stdout s'
  ∧ (∀ x, x ∈ stdout s ++ results s → x ∈ stdout s' ++ results s')
  ∧ (unique f = false →
       stdout s ++ results s `prefix_of` stdout s' ++ results s')
  ∧ (∀ code, exited s' = Some code → ∀ x, x ∈ results s → x ∈ stdout s').
Proof.
  intros Hr Hrun. destruct (kept_run f c s s' Hr Hrun) as (H1 & H2 & H3).
  split_and!; try done. intros code Hx x Hin.
  assert (reachable f c s') as Hr' by (unfold reachable; by etrans).
  destruct (exit_inv_reachable f c s' Hr' code Hx) as [He _].
  specialize (H2 x). rewrite He, app_nil_r in H2. apply H2, elem_of_app.
  by right.
Qed.

(** The fixture run, from the point where its three lines are in the
    buffer to the end. *)
Lemma buffered_lines_are_written_in_order_witness :
  results (run flags0 (take 9 fixtureSchedule))
  = ["http://h/a"; "http://h/b.js"; "http://h/c"]
  ∧ stdout (run flags0 fixtureSchedule)
    = ["http://h/a"; "http://h/b.js"; "http://h/c"]
  ∧ stdout (run flags0 (take 9 fixtureSchedule)) ++
      results (run flags0 (take 9 fixtureSchedule))
    `prefix_of` stdout (run flags0 fixtureSchedule) ++
                  results (run flags0 fixtureSchedule).
Proof.
  split; [vm_compute; reflexivity|]. split; [vm_compute; reflexivity|].
  apply (buffered_lines_are_written_in_order flags0 (collectorOf flags0)
           (run flags0 (take 9 fixtureSchedule)) (run flags0 fixtureSchedule)).
  - apply run_reachable.
  - apply (exec_sound _ _ (drop 9 fixtureSchedule)). vm_compute. reflexivity.
  - reflexivity.
Defined.

(** X3.  With [-unique], at every point of every run no line has been
    written twice, and the map [sm] holds exactly the lines written. *)
Theorem unique_writes_no_line_twice (f : Flags) (c : colly.Collector)
    (s : State) :
  reachable f c s → unique f = true →
  NoDup (stdout s) ∧ ∀ x, x ∈ sm s ↔ x ∈ stdout s.
Proof.
  intros Hr Hu. pose proof (unique_inv_reachable f c s Hr) as H.
  unfold unique_inv in H. by rewrite Hu in H.
Qed.

Lemma unique_writes_no_line_twice_witness :
  stdout (run flagsUniqueSource uniqueSchedule)
  = ["[href] http://h/x"; "[form] http://h/x"]
  ∧ NoDup (stdout (run flagsUniqueSource uniqueSchedule)).
Proof.
  split; [vm_compute; reflexivity|].
  apply (unique_writes_no_line_twice flagsUniqueSource
           (collectorOf flagsUniqueSource)).
  - apply run_reachable.
  - reflexivity.
Defined.

(** X4.  Without [-timeout], [main] returns only when every fetch
    goroutine has ended, the channel is closed and its buffer is empty, and
    no send has found the channel closed: every line sent has been taken by
    the consumer. *)
Theorem main_returns_after_the_crawl (f : Flags) (c : colly.Collector)
    (s : State) (code : Z) :
  reachable f c s → timeout f = (-1)%Z → exited s = Some code →
  workers s = [] ∧ results s = [] ∧ lateSends s = [] ∧ closed s = true
  ∧ sup s = SupDone.
Proof.
  intros Hr Ht Hx.
  destruct (exit_inv_reachable f c s Hr code Hx) as [He Hc].
  destruct (close_inv_reachable f c s Hr) as (_ & Hcl & _).
  destruct (wait_inv_reachable f c s Ht Hr) as (_ & _ & Hl & Hw).
  apply Hcl in Hc as Hd. split_and!; try done. apply Hw. by right.
Qed.

Lemma main_returns_after_the_crawl_witness :
  exited (run flags0 fixtureSchedule) = Some 0%Z
  ∧ workers (run flags0 fixtureSchedule) = []
  ∧ results (run flags0 fixtureSchedule) = []
  ∧ lateSends (run flags0 fixtureSchedule) = []
  ∧ closed (run flags0 fixtureSchedule) = true
  ∧ sup (run flags0 fixtureSchedule) = SupDone.
Proof.
  split; [vm_compute; reflexivity|].
  apply (main_returns_after_the_crawl flags0 (collectorOf flags0) _ 0%Z).
  - apply run_reachable.
  - reflexivity.
  - vm_compute. reflexivity.
Defined.



(** ** The seed *)

(** X6.  When the collector refuses the seed (an empty [-u], a seed that
    the scope pattern of [-subs] does not match), no request is made in the
    whole run and nothing is written. *)
Theorem refused_seed_writes_nothing (f : Flags) (c : colly.Collector)
    (e : colly.Error) (s : State) :
  (colly.Visit c ∅ (urll f)).1 = inl e → reachable f c s →
  fetched s = [] ∧ workers s = [] ∧ results s = [] ∧ stdout s = []
  ∧ lateSends s = [].
Proof.
  intros He Hr.
  by destruct (idle_inv_reachable f c e s He Hr) as (_ & _ & _ & _ & ?).
Qed.

(** [-subs -u http://user@h.org/]: the hostname is [h.org], and the
    seed has neither [.h.org] nor [//h.org] in it. *)
Lemma refused_seed_writes_nothing_witness :
  extractHostname (urll flagsSubsUser) = Ok "h.org"
  ∧ (colly.Visit (collectorOf flagsSubsUser) ∅ (urll flagsSubsUser)).1
    = inl colly.ErrNoURLFiltersMatch
  ∧ exited (run flagsSubsUser noSeedSchedule) = Some 0%Z
  ∧ fetched (run flagsSubsUser noSeedSchedule) = []
  ∧ workers (run flagsSubsUser noSeedSchedule) = []
  ∧ results (run flagsSubsUser noSeedSchedule) = []
  ∧ stdout (run flagsSubsUser noSeedSchedule) = []
  ∧ lateSends (run flagsSubsUser noSeedSchedule) = [].
Proof.
  split; [vm_compute; reflexivity|].
  assert ((colly.Visit (collectorOf flagsSubsUser) ∅ (urll flagsSubsUser)).1
          = inl colly.ErrNoURLFiltersMatch) as E by (vm_compute; reflexivity).
  split; [exact E|]. split; [vm_compute; reflexivity|].
  apply (refused_seed_writes_nothing flagsSubsUser (collectorOf flagsSubsUser)
           _ _ E).
  apply run_reachable.
Defined.

(** X7.  Without [-subs] a seed that is not empty is always requested: it
    parses (or [main] would not have got to the crawl), its hostname is the
    first allowed domain, and it is at depth 1, which no [-d] excludes.  The
    request is for the seed, under the scheme [http] when it has none. *)
Theorem seed_is_requested_without_subs (f : Flags) (headers : Headers)
    (hostname : string) (c : colly.Collector) :
  main_startup f = Crawl headers hostname c →
  subsInScope f = false → urll f ≠ "" →
  ∃ u, url.Parse (urll f) = Ok u
       ∧ url.Hostname u = hostname
       ∧ colly.Visit c ∅ (urll f)
         = (inr {| colly.URL := if String.eqb (url.Scheme u) ""
                                then colly.withScheme u "http" else u;
                   colly.Depth := 1; colly.baseURL := None |},
            {[urll f]}).
Proof.
  intros Hm Hsubs Hne.
  apply main_startup_Crawl in Hm as (_ & Hh & Hc & _).
  destruct (newCollector_Ok _ _ _ _ Hc) as (Hd & Hdis & _ & Hall & Hfil & _).
  destruct (newCollector_fixed _ _ _ _ Hc) as (Hrev & Hdf & _).
  rewrite Hsubs in Hall. specialize (Hfil Hsubs).
  unfold extractHostname in Hh.
  destruct (url.Parse (urll f)) as [u| |] eqn:Eu; [|done..].
  injection Hh as Hh. exists u. split; [done|]. split; [done|].
  unfold colly.Visit, colly.scrape, colly.request, colly.requestCheck.
  rewrite (proj2 (String.eqb_neq _ _) Hne), Hdf, Hfil, Hrev, Eu. simpl.
  assert (((0 <? colly.MaxDepth c)%Z && (colly.MaxDepth c <? 1)%Z) = false)
    as -> by (apply andb_false_iff; lia).
  assert (colly.isDomainAllowed c
            (url.Hostname (if String.eqb (url.Scheme u) ""
                           then colly.withScheme u "http" else u)) = true)
    as ->.
  { assert (url.Hostname (if String.eqb (url.Scheme u) ""
                          then colly.withScheme u "http" else u) = hostname)
      as -> by (by destruct (String.eqb (url.Scheme u) "")).
    unfold colly.isDomainAllowed, allowed_domains in *.
    rewrite Hdis, Hall. simpl. by rewrite String.eqb_refl. }
  simpl. by rewrite (right_id_L ∅ (∪)).
Qed.

Lemma seed_is_requested_without_subs_witness :
  ∃ u, url.Parse (urll flags0) = Ok u
       ∧ url.Hostname u = "h"
       ∧ colly.Visit (collectorOf flags0) ∅ (urll flags0)
         = (inr {| colly.URL := if String.eqb (url.Scheme u) ""
                                then colly.withScheme u "http" else u;
                   colly.Depth := 1; colly.baseURL := None |},
            {[urll flags0]}).
Proof.
  apply (seed_is_requested_without_subs flags0 None "h" (collectorOf flags0)).
  - vm_compute. reflexivity.
  - reflexivity.
  - discriminate.
Defined.

(** X8.  The visited store only grows, a visit that has passed the
    checks marks its URL, and a visit of that URL whose check comes after
    the mark is refused, at whatever depth, and starts no fetch.  The check
    and the mark are two steps, though: two fetch goroutines that have the
    same link checked before either has marked it both get it requested, as
    in the run [raceSchedule], where [/c] is requested twice. *)
Theorem visit_after_the_mark_is_refused (f : Flags) (headers : Headers)
    (hostname : string) (c : colly.Collector) :
  main_startup f = Crawl headers hostname c →
  (∀ s s', rtc (run_step f c) s s' → visited s ⊆ visited s')
  ∧ (∀ v u, u ∈ colly.markVisited c v u)
  ∧ (∀ v u d r v', colly.scrape c v u d = (inr r, v') → u ∈ v')
  ∧ (∀ s s' u d,
       rtc (run_step f c) s s' → u ∈ visited s →
       ∃ e, colly.requestCheck c (visited s') u d = inl e
            ∧ colly.scrape c (visited s') u d = (inl e, visited s'))
  ∧ (∀ s s' r link,
       rtc (run_step f c) s s' → colly.AbsoluteURL r link ∈ visited s →
       visitChecked c (visited s') r link = [])
  ∧ map (λ p, url.String_ p.1) (fetched (run flagsRace raceSchedule))
    = ["http://h/"; "http://h/a"; "http://h/b"; "http://h/c"; "http://h/c"].
Proof.
  intros Hm. apply main_startup_Crawl in Hm as (_ & _ & Hc & _).
  destruct (newCollector_fixed _ _ _ _ Hc) as (Hrev & _).
  assert (∀ s s' u d,
            rtc (run_step f c) s s' → u ∈ visited s →
            ∃ e, colly.requestCheck c (visited s') u d = inl e) as Hagain.
  { intros s s' u d Hrun Hin. apply requestCheck_again; [done|].
    by apply (visited_run f c s s' Hrun). }
  split_and!.
  - apply visited_run.
  - intros v u. by apply markVisited_in.
  - intros v u d r v'. unfold colly.scrape.
    destruct (colly.requestCheck c v u d) as [e|v0] eqn:E; [done|].
    intros [= _ <-].
    apply requestCheck_inr in E as (_ & _ & _ & _ & ->).
    by apply markVisited_in.
  - intros s s' u d Hrun Hin.
    destruct (Hagain s s' u d Hrun Hin) as [e He]. exists e.
    split; [done|]. unfold colly.scrape. by rewrite He.
  - intros s s' r link Hrun Hin. unfold visitChecked.
    by destruct (Hagain s s' _ (wrap64 (colly.Depth r + 1)) Hrun Hin)
      as [e ->].
  - vm_compute. reflexivity.
Qed.

(** After the fixture run a second visit of the link [/a] is refused. *)
Lemma visit_after_the_mark_is_refused_witness :
  colly.scrape (collectorOf flags0) (visited (run flags0 fixtureSchedule))
    "http://h/a" 2
  = (inl colly.ErrAlreadyVisited, visited (run flags0 fixtureSchedule))
  ∧ ∀ v u d r v',
      colly.scrape (collectorOf flags0) v u d = (inr r, v') → u ∈ v'.
Proof.
  split; [vm_compute; reflexivity|].
  apply (visit_after_the_mark_is_refused flags0 None "h" (collectorOf flags0)).
  vm_compute. reflexivity.
Defined.

(** ** The matcher of [regexp] and the language of an expression *)

Module regexp_facts.
Import regexp strings_facts.

Lemma eqb_eq r s : eqb r s = true → r = s.
Proof.
  revert s; induction r as [| |c| | |r1 IH1 r2 IH2|r1 IH1 r2 IH2|r IH];
    intros []; simpl; try done.
  - by intros ->%Ascii.eqb_eq.
  - intros [H1 H2]%andb_true_iff. f_equal; auto.
  - intros [H1 H2]%andb_true_iff. f_equal; auto.
  - intros H. f_equal; auto.
Qed.

Lemma app_nil_inv a b : a +:+ b = "" → a = "" ∧ b = "".
Proof. destruct a; [by rewrite app_nil_l|by rewrite app_cons]. Qed.

Lemma app_cons_inv a b c s :
  a +:+ b = String c s →
  (a = "" ∧ b = String c s) ∨ (∃ a', a = String c a' ∧ s = a' +:+ b).
Proof.
  destruct a as [|d a']; [rewrite app_nil_l; by left|].
  rewrite app_cons. intros [= -> <-]. right. by exists a'.
Qed.

Lemma nullable_lang r : nullable r = true ↔ regexp_lang r "".
Proof.
  induction r as [| |c| | |r1 IH1 r2 IH2|r1 IH1 r2 IH2|r IH]; simpl.
  - done.
  - done.
  - done.
  - split; [done|]. by intros (c & ? & _).
  - split; [done|]. by intros (c & ?).
  - rewrite andb_true_iff, IH1, IH2. split.
    + intros [H1 H2]. by exists "", "".
    + intros (a & b & [-> ->]%eq_sym%app_nil_inv & H1 & H2). done.
  - by rewrite orb_true_iff, IH1, IH2.
  - split; [|done]. intros _. constructor.
Qed.

Lemma lang_mkConcat r1 r2 s :
  regexp_lang (mkConcat r1 r2) s ↔ regexp_lang (Concat r1 r2) s.
Proof.
  assert (∀ r, regexp_lang r s ↔ regexp_lang (Concat EmptyMatch r) s) as Hl.
  { intros r. simpl. split.
    - intros H. exists "", s. by rewrite app_nil_l.
    - intros (a & b & -> & -> & H). by rewrite app_nil_l. }
  assert (∀ r, regexp_lang r s ↔ regexp_lang (Concat r EmptyMatch) s) as Hr.
  { intros r. simpl. split.
    - intros H. exists s, "". by rewrite app_nil_r.
    - intros (a & b & -> & H & ->). by rewrite app_nil_r. }
  assert (∀ r, False ↔ regexp_lang (Concat NoMatch r) s) as Hnl.
  { intros r. simpl. split; [done|]. by intros (a & b & _ & [] & _). }
  assert (∀ r, False ↔ regexp_lang (Concat r NoMatch) s) as Hnr.
  { intros r. simpl. split; [done|]. by intros (a & b & _ & _ & []). }
  destruct r1; try apply Hnl; try apply Hl;
    destruct r2; try apply Hnr; try apply Hr; done.
Qed.

Lemma lang_mkAlternate r1 r2 s :
  regexp_lang (mkAlternate r1 r2) s ↔ regexp_lang r1 s ∨ regexp_lang r2 s.
Proof.
  assert (regexp_lang (if eqb r1 r2 then r1 else Alternate r1 r2) s
          ↔ regexp_lang r1 s ∨ regexp_lang r2 s) as H.
  { destruct (eqb r1 r2) eqn:E; [|done]. apply eqb_eq in E as ->. tauto. }
  destruct r1; try (simpl; tauto); destruct r2; try (simpl; tauto);
    exact H.
Qed.

Lemma star_cons L c s :
  regexp_star L (String c s)
  ↔ ∃ a b, s = a +:+ b ∧ L (String c a) ∧ regexp_star L b.
Proof.
  split.
  - intros H. remember (String c s) as t eqn:E. revert E.
    induction H as [|a b Ha Hb IH]; [done|].
    intros [[-> ->]|(a' & -> & ->)]%app_cons_inv.
    + by apply IH.
    + by exists a', b.
  - intros (a & b & -> & Ha & Hb). rewrite <- app_cons. by constructor.
Qed.

Lemma lang_deriv c r s :
  regexp_lang (deriv c r) s ↔ regexp_lang r (String c s).
Proof.
  revert s; induction r as [| |d| | |r1 IH1 r2 IH2|r1 IH1 r2 IH2|r IH];
    intros s; simpl.
  - done.
  - done.
  - destruct (Ascii.eqb_spec c d) as [->|Hne]; simpl.
    + split; [by intros ->|by intros [= ->]].
    + split; [done|]. by intros [= ? _].
  - destruct (Ascii.eqb_spec c "010"%char) as [->|Hne]; simpl.
    + split; [done|]. by intros (c' & [= <- _] & ?).
    + split; [intros ->; by exists c|by intros (c' & [= _ ->] & _)].
  - split; [intros ->; by exists c|by intros (c' & [= _ ->])].
  - assert (regexp_lang (mkConcat (deriv c r1) r2) s
            ↔ ∃ a' b, s = a' +:+ b ∧ regexp_lang r1 (String c a')
                      ∧ regexp_lang r2 b) as Hc.
    { rewrite lang_mkConcat. simpl. split.
      - intros (a & b & -> & Ha & Hb). exists a, b. by rewrite <- IH1.
      - intros (a & b & -> & Ha & Hb). exists a, b. by rewrite IH1. }
    assert ((∃ a b, String c s = a +:+ b ∧ regexp_lang r1 a ∧ regexp_lang r2 b)
            ↔ (regexp_lang r1 "" ∧ regexp_lang r2 (String c s))
              ∨ ∃ a' b, s = a' +:+ b ∧ regexp_lang r1 (String c a')
                        ∧ regexp_lang r2 b) as ->.
    { split.
      - intros (a & b & [[-> ->]|(a' & -> & ->)]%eq_sym%app_cons_inv & Ha & Hb).
        + by left.
        + right. by exists a', b.
      - intros [[Ha Hb]|(a' & b & -> & Ha & Hb)].
        + exists "", (String c s). by rewrite app_nil_l.
        + exists (String c a'), b. by rewrite app_cons. }
    destruct (nullable r1) eqn:En.
    + rewrite lang_mkAlternate, Hc, IH2.
      apply nullable_lang in En. tauto.
    + rewrite Hc. split; [tauto|]. intros [[Hn _]|?]; [|done].
      apply nullable_lang in Hn. congruence.
  - by rewrite lang_mkAlternate, IH1, IH2.
  - rewrite lang_mkConcat, star_cons. simpl. split.
    + intros (a & b & -> & Ha & Hb). exists a, b. by rewrite <- IH.
    + intros (a & b & -> & Ha & Hb). exists a, b. by rewrite IH.
Qed.

(** The matcher decides membership in the language. *)
Lemma matches_lang r s : matches r s = true ↔ regexp_lang r s.
Proof.
  revert r; induction s as [|c s IH]; intros r; simpl.
  - apply nullable_lang.
  - by rewrite IH, lang_deriv.
Qed.

Lemma star_any s : regexp_star (regexp_lang AnyByte) s.
Proof.
  induction s as [|c s IH]; [constructor|].
  change (String c s) with (String c "" +:+ s). constructor; [|done].
  by exists c.
Qed.

(** [Match] looks for a match of the expression anywhere in the text. *)
Lemma Match_spec re u :
  Match re u = true ↔ ∃ a m b, u = a +:+ m +:+ b ∧ regexp_lang re m.
Proof.
  unfold Match. rewrite matches_lang. simpl. split.
  - intros (a & mb & -> & _ & m & b & -> & Hm & _). by exists a, m, b.
  - intros (a & m & b & -> & Hm). exists a, (m +:+ b).
    split; [done|]. split; [apply star_any|]. exists m, b.
    split; [done|]. split; [done|apply star_any].
Qed.

(** *** The parser on the scope pattern *)

Lemma parseAlt_S n s :
  parseAlt (S n) s
  = match parseCat n s with
    | Some (r1, String c rest) =>
        if Ascii.eqb c "|" then
          match parseAlt n rest with
          | Some (r2, rest') => Some (Alternate r1 r2, rest')
          | None => None
          end
        else Some (r1, String c rest)
    | other => other
    end.
Proof. reflexivity. Qed.

Lemma parseCat_S n s :
  parseCat (S n) s
  = match s with
    | EmptyString => Some (EmptyMatch, s)
    | String c _ =>
        if Ascii.eqb c "|" || Ascii.eqb c ")" then Some (EmptyMatch, s)
        else
          match parseRepeat n s with
          | Some (r1, rest) =>
              match parseCat n rest with
              | Some (r2, rest') => Some (Concat r1 r2, rest')
              | None => None
              end
          | None => None
          end
    end.
Proof. reflexivity. Qed.

Lemma parseRepeat_S n s :
  parseRepeat (S n) s
  = match parseAtom n s with
    | Some (r, String c rest) =>
        if url.oneOf c "*+?" then
          let r' := if Ascii.eqb c "*" then Star r
                    else if Ascii.eqb c "+" then Plus r else Quest r in
          let rest' := if strings.HasPrefix rest "?" then strings.drop 1 rest else rest in
          match rest' with
          | String d _ => if url.oneOf d "*+?" then None else Some (r', rest')
          | EmptyString => Some (r', rest')
          end
        else Some (r, String c rest)
    | other => other
    end.
Proof. reflexivity. Qed.

Lemma parseAtom_S n s :
  parseAtom (S n) s
  = match s with
    | EmptyString => None
    | String c rest =>
        if Ascii.eqb c "(" then
          if strings.HasPrefix rest "?" then None
          else
            match parseAlt n rest with
            | Some (r, String d rest') =>
                if Ascii.eqb d ")" then Some (r, rest') else None
            | _ => None
            end
        else if Ascii.eqb c "." then Some (AnyNotNL, rest)
        else if Ascii.eqb c "\" then
          match rest with
          | String d rest' => if isPunct d then Some (Literal d, rest') else None
          | EmptyString => None
          end
        else if isMeta c then None
        else Some (Literal c, rest)
    end.
Proof. reflexivity. Qed.

(** More fuel does not change a result. *)
Lemma parse_mono_S n :
  (∀ s x, parseAlt n s = Some x → parseAlt (S n) s = Some x)
  ∧ (∀ s x, parseCat n s = Some x → parseCat (S n) s = Some x)
  ∧ (∀ s x, parseRepeat n s = Some x → parseRepeat (S n) s = Some x)
  ∧ (∀ s x, parseAtom n s = Some x → parseAtom (S n) s = Some x).
Proof.
  induction n as [|n (IHa & IHc & IHr & IHt)]; [done|].
  split_and!; intros s x.
  - rewrite (parseAlt_S (S n)), (parseAlt_S n).
    destruct (parseCat n s) as [[r1 [|ch rest]]|] eqn:E; [| |done].
    + by rewrite (IHc _ _ E).
    + rewrite (IHc _ _ E). destruct (Ascii.eqb ch "|"); [|done].
      destruct (parseAlt n rest) as [[r2 rest']|] eqn:E2; [|done].
      by rewrite (IHa _ _ E2).
  - rewrite (parseCat_S (S n)), (parseCat_S n).
    destruct s as [|ch s']; [done|].
    destruct (Ascii.eqb ch "|" || Ascii.eqb ch ")"); [done|].
    destruct (parseRepeat n (String ch s')) as [[r1 rest]|] eqn:E; [|done].
    rewrite (IHr _ _ E).
    destruct (parseCat n rest) as [[r2 rest']|] eqn:E2; [|done].
    by rewrite (IHc _ _ E2).
  - rewrite (parseRepeat_S (S n)), (parseRepeat_S n).
    destruct (parseAtom n s) as [[r1 [|ch rest]]|] eqn:E; [| |done].
    + by rewrite (IHt _ _ E).
    + by rewrite (IHt _ _ E).
  - rewrite (parseAtom_S (S n)), (parseAtom_S n).
    destruct s as [|ch rest]; [done|].
    destruct (Ascii.eqb ch "("); [|done].
    destruct (strings.HasPrefix rest "?"); [done|].
    destruct (parseAlt n rest) as [[r1 [|d rest']]|] eqn:E; [done| |done].
    by rewrite (IHa _ _ E).
Qed.

Lemma parseCat_mono n m s x :
  n ≤ m → parseCat n s = Some x → parseCat m s = Some x.
Proof.
  induction 1 as [|m _ IH]; [done|]. intros H.
  by apply (parse_mono_S m), IH.
Qed.

Lemma parseAlt_mono n m s x :
  n ≤ m → parseAlt n s = Some x → parseAlt m s = Some x.
Proof.
  induction 1 as [|m _ IH]; [done|]. intros H.
  by apply (parse_mono_S m), IH.
Qed.

Lemma parseCat_step n s r1 rest r2 rest' d s' :
  s = String d s' → Ascii.eqb d "|" || Ascii.eqb d ")" = false →
  parseRepeat n s = Some (r1, rest) → parseCat n rest = Some (r2, rest') →
  parseCat (S n) s = Some (Concat r1 r2, rest').
Proof. intros -> Hd Hr Hc. by rewrite parseCat_S, Hd, Hr, Hc. Qed.

Lemma parseRepeat_plain n s r d rest :
  parseAtom n s = Some (r, String d rest) → url.oneOf d "*+?" = false →
  parseRepeat (S n) s = Some (r, String d rest).
Proof. intros Ha Hd. by rewrite parseRepeat_S, Ha, Hd. Qed.

Lemma parseAtom_paren n rest r rest' :
  strings.HasPrefix rest "?" = false →
  parseAlt n rest = Some (r, String ")" rest') →
  parseAtom (S n) (String "(" rest) = Some (r, rest').
Proof. intros H1 H2. by rewrite parseAtom_S, (Ascii.eqb_refl "("), H1, H2. Qed.

(** A text that starts with a byte that ends neither a sequence nor
    repeats what is before it. *)
Lemma starts_plain_facts d :
  negb (isMeta d) || Ascii.eqb d "\" || Ascii.eqb d "(" = true →
  url.oneOf d "*+?" = false
  ∧ Ascii.eqb d "|" || Ascii.eqb d ")" = false.
Proof. by destruct d as [[] [] [] [] [] [] [] []]. Qed.

Lemma plain_byte_facts c :
  isMeta c = false →
  Ascii.eqb c "(" = false ∧ Ascii.eqb c "." = false ∧ Ascii.eqb c "\" = false.
Proof. by destruct c as [[] [] [] [] [] [] [] []]. Qed.

Lemma escaped_starts_plain h d X :
  plainHost h = true →
  negb (isMeta d) || Ascii.eqb d "\" || Ascii.eqb d "(" = true →
  ∃ d' X', strings.ReplaceAll1 h "." "\." +:+ String d X = String d' X'
           ∧ negb (isMeta d') || Ascii.eqb d' "\" || Ascii.eqb d' "(" = true.
Proof.
  destruct h as [|c h']; simpl.
  - intros _ Hd. exists d, X. by rewrite app_nil_l.
  - intros [Hc _]%andb_true_iff _.
    destruct (Ascii.eqb_spec c ".") as [->|Hne]; simpl in Hc.
    + eexists "\"%char, _. split; [by rewrite !app_cons|done].
    + eexists c, _. split; [by rewrite !app_cons|]. by rewrite Hc.
Qed.

(** The escaped hostname is parsed into its literals. *)
Lemma parseCat_literals h :
  plainHost h = true →
  ∀ n d X K rest,
    negb (isMeta d) || Ascii.eqb d "\" || Ascii.eqb d "(" = true →
    2 ≤ n → parseCat n (String d X) = Some (K, rest) →
    parseCat (n + String.length h)
      (strings.ReplaceAll1 h "." "\." +:+ String d X)
    = Some (literals h K, rest).
Proof.
  induction h as [|c h' IH]; intros Hp n d X K rest Hd Hn HK.
  - simpl. by rewrite app_nil_l, Nat.add_0_r.
  - simpl in Hp. apply andb_true_iff in Hp as [Hc Hp].
    destruct (escaped_starts_plain h' d X Hp Hd) as (d' & X' & EX & Hd').
    destruct (starts_plain_facts d' Hd') as [Hrep _].
    specialize (IH Hp n d X K rest Hd Hn HK).
    simpl. rewrite Nat.add_succ_r.
    destruct (n + String.length h') as [|[|m]] eqn:Em; [lia|lia|].
    destruct (Ascii.eqb_spec c ".") as [->|Hne]; simpl in Hc.
    + rewrite !app_cons, app_nil_l.
      eapply parseCat_step; [done|done| |exact IH].
      rewrite EX. apply parseRepeat_plain; [|done].
      by rewrite parseAtom_S.
    + rewrite !app_cons, app_nil_l. apply negb_true_iff in Hc.
      destruct (plain_byte_facts c Hc) as (H1 & H2 & H3).
      destruct (starts_plain_facts c) as [_ Hend]; [by rewrite Hc|].
      eapply parseCat_step; [done|done| |exact IH].
      rewrite EX. apply parseRepeat_plain; [|done].
      by rewrite parseAtom_S, H1, H2, H3, Hc.
Qed.

Lemma length_escaped h :
  String.length h ≤ String.length (strings.ReplaceAll1 h "." "\.").
Proof.
  induction h as [|c h IH]; simpl; [done|].
  rewrite length_app. destruct (Ascii.eqb c "."); simpl; lia.
Qed.

(** The scope pattern of a plain hostname compiles, to [scopeRegexp],
    when it is valid UTF-8. *)
Lemma Compile_scopePattern h :
  plainHost h = true →
  Compile (scopePattern h)
  = if utf8.ValidString (scopePattern h) then Some (scopeRegexp h) else None.
Proof.
  intros Hp. unfold Compile.
  destruct (utf8.ValidString (scopePattern h)); [|done].
  unfold scopePattern.
  set (esc := strings.ReplaceAll1 h "." "\.").
  set (fuel := 4 * String.length _ + 8).
  assert (33 + String.length h ≤ fuel) as Hfuel.
  { unfold fuel. rewrite !length_app. pose proof (length_escaped h).
    fold esc in H. simpl. lia. }
  assert (parseAlt (33 + String.length h)
            (".*(\.|\/\/)" +:+ esc +:+ "((#|\/|\?).*)?")
          = Some (scopeRegexp h, "")) as H.
  { pose proof (parseCat_literals h Hp 20 "(" "(#|\/|\?).*)?" _ ""
                  eq_refl ltac:(lia) eq_refl) as Hlit.
    fold esc in Hlit.
    destruct (escaped_starts_plain h "(" "(#|\/|\?).*)?" Hp eq_refl)
      as (d & X & EX & Hd). fold esc in EX.
    destruct (starts_plain_facts d Hd) as [Hrep Hend].
    change (33 + String.length h) with (S (S (S (30 + String.length h)))).
    rewrite parseAlt_S.
    assert (parseCat (S (S (30 + String.length h)))
              (".*(\.|\/\/)" +:+ esc +:+ "((#|\/|\?).*)?")
            = Some (scopeRegexp h, "")) as ->; [|done].
    change ("((#|\/|\?).*)?") with (String "(" "(#|\/|\?).*)?") in *.
    eapply parseCat_step; [reflexivity|done|reflexivity|].
    eapply parseCat_step; [reflexivity|done| |].
    - rewrite EX.
      change (30 + String.length h) with (S (S (28 + String.length h))).
      eapply parseRepeat_plain; [|exact Hrep].
      apply parseAtom_paren; [reflexivity|].
      apply (parseAlt_mono 7); [lia|reflexivity].
    - rewrite <- EX. eapply parseCat_mono; [|exact Hlit]. lia. }
  by rewrite (parseAlt_mono _ _ _ _ Hfuel H).
Qed.

(** *** The language of the scope pattern *)

Lemma lang_literals h K s :
  regexp_lang (literals h K) s ↔ ∃ t, s = h +:+ t ∧ regexp_lang K t.
Proof.
  revert s; induction h as [|c h IH]; intros s; simpl.
  - split; [intros H; exists s; by rewrite app_nil_l|].
    intros (t & -> & H). by rewrite app_nil_l.
  - split.
    + intros (a & b & -> & -> & (t & -> & H)%IH). exists t.
      by rewrite !app_cons, app_nil_l.
    + intros (t & -> & H). exists (String c ""), (h +:+ t).
      rewrite !app_cons, app_nil_l. split; [done|]. split; [done|].
      apply IH. by exists t.
Qed.

Lemma scope_lang_occurs h m :
  regexp_lang (scopeRegexp h) m →
  ∃ x t, m = x +:+ ("." +:+ h) +:+ t ∨ m = x +:+ ("//" +:+ h) +:+ t.
Proof.
  unfold scopeRegexp. simpl.
  intros (x & y & -> & _ & sep & z & -> & Hsep & (t & -> & _)%lang_literals).
  exists x, t. destruct Hsep as [(a & b & -> & -> & ->)|
                                  (a & b & -> & -> & a' & b' & -> & -> & ->)].
  - left. by repeat first [rewrite app_cons|rewrite app_nil_l].
  - right. by repeat first [rewrite app_cons|rewrite app_nil_l].
Qed.

Lemma scope_lang_least h :
  regexp_lang (scopeRegexp h) ("." +:+ h)
  ∧ regexp_lang (scopeRegexp h) ("//" +:+ h).
Proof.
  assert (∀ sep,
            regexp_lang
              (Alternate (Concat (Literal ".") EmptyMatch)
                 (Concat (Literal "/") (Concat (Literal "/") EmptyMatch))) sep →
            regexp_lang (scopeRegexp h) (sep +:+ h)) as H.
  { intros sep Hsep. exists "", (sep +:+ h). rewrite app_nil_l.
    split; [done|]. split; [constructor|]. exists sep, h.
    split; [done|]. split; [done|]. apply lang_literals. exists "".
    rewrite app_nil_r. split; [done|]. exists "", "". split; [done|].
    split; [by right|done]. }
  split; apply H; simpl.
  - left. by exists ".", "".
  - right. exists "/", "/". split; [done|]. split; [done|]. by exists "/", "".
Qed.

(** The expression of the scope pattern finds a match in [u] exactly when
    [u] has the hostname in it right after a dot or two slashes. *)
Lemma Match_scopeRegexp h u :
  Match (scopeRegexp h) u = true
  ↔ strings.occurs u ("." +:+ h) ∨ strings.occurs u ("//" +:+ h).
Proof.
  rewrite Match_spec. unfold strings.occurs. split.
  - intros (a & m & b & -> & (x & t & [-> | ->])%scope_lang_occurs);
      [left|right]; exists (a +:+ x), (t +:+ b); by rewrite !app_assoc.
  - destruct (scope_lang_least h) as [H1 H2].
    intros [(a & b & ->)|(a & b & ->)]; eauto.
Qed.

End regexp_facts.

(** ** The scope of [-subs] *)

(** X9.  With [-subs] and a hostname whose bytes the pattern takes
    literally, the collector has no allowed domains and one URL filter, and
    the filter accepts a URL exactly when the URL has the hostname in it,
    anywhere, right after a dot or after two slashes.  A link that is not
    empty, not yet visited and within the depth is requested exactly when
    it passes that test and parses: the host of the link is not looked at. *)
Theorem subs_scope_is_a_substring_test (f : Flags) (headers : Headers)
    (hostname : string) (c : colly.Collector) :
  main_startup f = Crawl headers hostname c →
  subsInScope f = true → plainHost hostname = true →
  colly.AllowedDomains c = []
  ∧ colly.URLFilters c = [scopeRegexp hostname]
  ∧ ∀ u,
      (colly.isMatchingFilter (colly.URLFilters c) u = true
       ↔ strings.occurs u ("." +:+ hostname)
         ∨ strings.occurs u ("//" +:+ hostname))
      ∧ ∀ visited d,
          u ≠ "" → u ∉ visited → ((0 < depth f)%Z → (d ≤ depth f)%Z) →
          ((∃ r v', colly.scrape c visited u d = (inr r, v'))
           ↔ (strings.occurs u ("." +:+ hostname)
              ∨ strings.occurs u ("//" +:+ hostname))
             ∧ ∃ p, url.Parse u = Ok p).
Proof.
  intros Hm Hsubs Hp.
  apply main_startup_Crawl in Hm as (_ & _ & Hc & _).
  destruct (newCollector_Ok _ _ _ _ Hc) as (Hd & Hdis & _ & Hall & _ & Hfil).
  destruct (newCollector_fixed _ _ _ _ Hc) as (Hrev & Hdf & _).
  rewrite Hsubs in Hall. destruct (Hfil Hsubs) as (re & Hre & Hf).
  rewrite (regexp_facts.Compile_scopePattern _ Hp) in Hre.
  destruct (utf8.ValidString (scopePattern hostname)); [|done].
  injection Hre as <-.
  assert (∀ u, colly.isMatchingFilter (colly.URLFilters c) u = true
               ↔ strings.occurs u ("." +:+ hostname)
                 ∨ strings.occurs u ("//" +:+ hostname)) as Hmatch.
  { intros u. rewrite Hf. unfold colly.isMatchingFilter. simpl.
    by rewrite orb_false_r, regexp_facts.Match_scopeRegexp. }
  split; [done|]. split; [done|]. intros u. split; [done|].
  intros visited d Hne Hnv Hdepth.
  unfold colly.scrape, colly.request, colly.requestCheck.
  rewrite (proj2 (String.eqb_neq _ _) Hne), Hdf, Hrev.
  assert (((0 <? colly.MaxDepth c)%Z && (colly.MaxDepth c <? d)%Z) = false)
    as -> by (rewrite Hd; apply andb_false_iff; lia).
  rewrite (bool_decide_eq_false_2 _ Hnv). simpl.
  rewrite <- Hmatch.
  destruct (colly.isMatchingFilter (colly.URLFilters c) u) eqn:Em.
  - rewrite Hf. simpl. unfold colly.isDomainAllowed. rewrite Hdis, Hall. simpl.
    destruct (url.Parse u) as [p| |]; split.
    + intros _. split; [done|]. by exists p.
    + intros _. by eexists _, _.
    + by intros (r & v' & ?).
    + by intros [_ [p ?]].
    + by intros (r & v' & ?).
    + by intros [_ [p ?]].
  - rewrite Hf. simpl. split.
    + by intros (r & v' & ?).
    + by intros [? _].
Qed.

(** [-subs -u http://hostname.com/]: a link to another host that names
    the seed's host in its query is in scope. *)
Lemma subs_scope_is_a_substring_test_witness :
  colly.URLFilters (collectorOf flagsSubs) = [scopeRegexp "hostname.com"]
  ∧ (colly.isMatchingFilter (colly.URLFilters (collectorOf flagsSubs))
       "http://evil.com/?next=//hostname.com" = true
     ↔ strings.occurs "http://evil.com/?next=//hostname.com" ".hostname.com"
       ∨ strings.occurs "http://evil.com/?next=//hostname.com" "//hostname.com").
Proof.
  destruct (subs_scope_is_a_substring_test flagsSubs None "hostname.com"
              (collectorOf flagsSubs)) as (_ & Hf & H).
  - vm_compute. reflexivity.
  - reflexivity.
  - reflexivity.
  - split; [exact Hf|]. apply (H "http://evil.com/?next=//hostname.com").
Defined.

(** ** Start-up never panics on ordinary input *)

Module url_facts.
Import url.










End url_facts.



(** ** The headers stored *)

Lemma trimWith_fix len fuel s : len s = 0 → strings.trimWith len fuel s = s.
Proof. intros H. destruct fuel; [done|]. simpl. by rewrite H. Qed.

(** Trimming what is trimmed changes nothing. *)
Lemma TrimSpace_idem s :
  strings.TrimSpace (strings.TrimSpace s) = strings.TrimSpace s.
Proof.
  destruct (strings_facts.TrimSpace_spec s) as (_ & _ & _ & _ & _ & H1 & H2).
  set (t := strings.TrimSpace s) in *.
  unfold strings.TrimSpace at 1, strings.TrimRight, strings.TrimLeft.
  rewrite (trimWith_fix _ _ t H1), (trimWith_fix _ _ _ H2).
  apply strings_facts.rev_involutive.
Qed.

Lemma entries_add_lookup m0 es m k v :
  entries_add m0 es m → m !! k = Some v →
  m0 !! k = Some v
  ∨ ∃ e a b,
      e ∈ es
      ∧ (strings.first_cut ": " e a b
         ∨ (¬ strings.occurs e ": " ∧ strings.first_cut ":" e a b))
      ∧ k = strings.TrimSpace a ∧ v = strings.TrimSpace b.
Proof.
  induction 1 as [|m0 e es m1 m2 He Hes IH]; [by left|].
  intros [Hk|(e' & a & b & Hin & Hcut & -> & ->)]%IH.
  - destruct He as [a b Hc|a b Hn Hc|Hn].
    + destruct (decide (k = strings.TrimSpace a)) as [->|Hne].
      * rewrite lookup_insert_eq in Hk. injection Hk as <-. right.
        exists e, a, b. split; [by left|]. split; [by left|done].
      * rewrite lookup_insert_ne in Hk by done. by left.
    + destruct (decide (k = strings.TrimSpace a)) as [->|Hne].
      * rewrite lookup_insert_eq in Hk. injection Hk as <-. right.
        exists e, a, b. split; [by left|]. split; [by right|done].
      * rewrite lookup_insert_ne in Hk by done. by left.
    + by left.
  - right. exists e', a, b. split; [by right|done].
Qed.

(** X11.  Every header that [parseHeaders] stores comes from one entry of
    the [;;]-separated list: its name and value are the two sides of the
    first [": "] of the entry, or of its first [":"] when it has no [": "],
    and both are stored trimmed, so that trimming them again changes
    nothing. *)
Theorem stored_headers_are_trimmed_entries (rawHeaders : string)
    (headers : Headers) (m : gmap string string) (k v : string) :
  rawHeaders ≠ "" → parseHeaders rawHeaders headers = Ok (Some m) →
  m !! k = Some v →
  strings.TrimSpace k = k ∧ strings.TrimSpace v = v
  ∧ ∃ e a b,
      e ∈ strings.Split rawHeaders ";;"
      ∧ (strings.first_cut ": " e a b
         ∨ (¬ strings.occurs e ": " ∧ strings.first_cut ":" e a b))
      ∧ k = strings.TrimSpace a ∧ v = strings.TrimSpace b.
Proof.
  intros Hne Hp Hk.
  destruct (parseHeaders_entries rawHeaders headers) as (Herr & _ & _ & Hok).
  assert (strings.occurs rawHeaders ":") as Hocc.
  { destruct (strings.Contains rawHeaders ":") eqn:E.
    - by apply strings_facts.Contains_true.
    - exfalso. apply strings_facts.Contains_false in E.
      destruct (proj2 Herr (conj Hne E)) as [msg Hm]. congruence. }
  destruct (Hok Hne Hocc) as (_ & _ & m' & Hm' & Hadd).
  rewrite Hp in Hm'. injection Hm' as <-.
  destruct (entries_add_lookup _ _ _ _ _ Hadd Hk)
    as [Hk0|(e & a & b & Hin & Hcut & -> & ->)]; [by rewrite lookup_empty in Hk0|].
  split; [apply TrimSpace_idem|]. split; [apply TrimSpace_idem|].
  by exists e, a, b.
Qed.

(** [-h "Cookie: a=b;; Host :h.org "]: the entry of [Host] has no
    [": "]; it is cut at its colon and both sides are trimmed. *)
Lemma stored_headers_are_trimmed_entries_witness :
  ∃ m, parseHeaders "Cookie: a=b;; Host :h.org " None = Ok (Some m)
       ∧ m !! "Host" = Some "h.org"
       ∧ strings.TrimSpace "Host" = "Host"
       ∧ strings.TrimSpace "h.org" = "h.org".
Proof.
  set (m := match parseHeaders "Cookie: a=b;; Host :h.org " None with
            | Ok (Some m) => m
            | _ => ∅
            end).
  assert (parseHeaders "Cookie: a=b;; Host :h.org " None = Ok (Some m)) as Hp
    by (vm_compute; reflexivity).
  assert (m !! "Host" = Some "h.org") as Hk by (vm_compute; reflexivity).
  exists m. split; [exact Hp|]. split; [exact Hk|].
  destruct (stored_headers_are_trimmed_entries
              "Cookie: a=b;; Host :h.org " None m "Host" "h.org"
              ltac:(done) Hp Hk) as (H1 & H2 & _).
  by split.
Defined.

(** ** [extractHostname] on an ordinary URL *)

Module plain_facts.
Import strings strings_facts url.

Lemma allBytes_app P a b : allBytes P (a +:+ b) = allBytes P a && allBytes P b.
Proof.
  induction a as [|c a IH]; [by rewrite app_nil_l|].
  rewrite ?app_cons. simpl. by rewrite IH, andb_assoc.
Qed.

Lemma allBytes_impl (P Q : ascii → bool) s :
  (∀ c, P c = true → Q c = true) → allBytes P s = true → allBytes Q s = true.
Proof.
  intros H. induction s as [|c s IH]; [done|]. simpl.
  intros [Hc Hs]%andb_true_iff. by rewrite (H c Hc), IH.
Qed.

Lemma HasPrefix_nil s : HasPrefix s "" = true.
Proof. by destruct s. Qed.

Lemma Index_byte_none c s :
  allBytes (λ d, negb (Ascii.eqb d c)) s = true → Index s (String c "") = None.
Proof.
  induction s as [|d s IH]; [done|]. simpl.
  intros [Hd Hs]%andb_true_iff. apply negb_true_iff in Hd.
  by rewrite Hd, IH.
Qed.

Lemma Index_byte_app c a b :
  allBytes (λ d, negb (Ascii.eqb d c)) a = true →
  Index (a +:+ String c b) (String c "") = Some (String.length a).
Proof.
  induction a as [|d a IH].
  - intros _. rewrite app_nil_l. simpl.
    by rewrite Ascii.eqb_refl, HasPrefix_nil.
  - simpl. intros [Hd Hs]%andb_true_iff. apply negb_true_iff in Hd.
    rewrite ?app_cons. simpl. by rewrite Hd, IH.
Qed.

Lemma LastIndex_byte_none c s :
  allBytes (λ d, negb (Ascii.eqb d c)) s = true →
  LastIndex s (String c "") = None.
Proof.
  induction s as [|d s IH]; [done|]. simpl.
  intros [Hd Hs]%andb_true_iff. apply negb_true_iff in Hd.
  by rewrite IH, Hd.
Qed.

Lemma LastIndex_byte_app c a b :
  allBytes (λ d, negb (Ascii.eqb d c)) b = true →
  LastIndex (a +:+ String c b) (String c "") = Some (String.length a).
Proof.
  intros Hb. induction a as [|d a IH].
  - rewrite app_nil_l. simpl.
    by rewrite (LastIndex_byte_none c b Hb), Ascii.eqb_refl, HasPrefix_nil.
  - rewrite ?app_cons. simpl. by rewrite IH.
Qed.

Lemma HasPrefix_byte_none c s :
  allBytes (λ d, negb (Ascii.eqb d c)) s = true →
  HasPrefix s (String c "") = false.
Proof.
  destruct s as [|d s]; [done|]. simpl.
  intros [Hd _]%andb_true_iff. apply negb_true_iff in Hd. by rewrite Hd.
Qed.

Lemma Count_byte_none c s :
  allBytes (λ d, negb (Ascii.eqb d c)) s = true → Count s (String c "") = 0.
Proof.
  intros H. unfold Count. destruct (String.length s); [done|]. simpl.
  by rewrite (Index_byte_none c s H).
Qed.

Lemma no_CTL s :
  allBytes (λ c, negb (nat_of_ascii c <? 32) && negb (nat_of_ascii c =? 127)) s
  = true →
  stringContainsCTLByte s = false.
Proof.
  induction s as [|c s IH]; [done|]. simpl.
  intros [[H1 H2]%andb_true_iff Hs]%andb_true_iff.
  apply negb_true_iff in H1, H2. by rewrite H1, H2, IH.
Qed.

Lemma getSchemeFrom_alpha s1 rest i rawURL :
  allBytes isAlpha s1 = true →
  getSchemeFrom (s1 +:+ String ":" rest) i rawURL
  = if i + String.length s1 =? 0 then Err "missing protocol scheme"
    else Ok (take (i + String.length s1) rawURL,
             drop (S (i + String.length s1)) rawURL).
Proof.
  revert i; induction s1 as [|c s1 IH]; intros i.
  - intros _. rewrite app_nil_l, Nat.add_0_r. done.
  - simpl. intros [Hc Hs]%andb_true_iff. rewrite ?app_cons. simpl.
    rewrite Hc, (IH (S i) Hs). by rewrite Nat.add_succ_r.
Qed.

Lemma unescape_plain mode s :
  allBytes (λ c, negb (Ascii.eqb c "%")
                 && negb (isHostMode mode && (nat_of_ascii c <? 128)
                          && shouldEscape c encodeHost)
                 && negb (Ascii.eqb c "+"
                          && match mode with
                             | encodeQueryComponent => true
                             | _ => false
                             end)) s = true →
  unescape s mode = Ok s.
Proof.
  induction s as [|c s IH]; [done|]. simpl.
  intros [[[H1 H2]%andb_true_iff H3]%andb_true_iff Hs]%andb_true_iff.
  apply negb_true_iff in H1, H2, H3. by rewrite H1, H2, (IH Hs), H3.
Qed.

Lemma escape_plain mode s :
  allBytes (λ c, negb (shouldEscape c mode)) s = true → escape s mode = s.
Proof.
  induction s as [|c s IH]; [done|]. simpl.
  intros [H1 Hs]%andb_true_iff. apply negb_true_iff in H1.
  by rewrite H1, (IH Hs), app_cons, app_nil_l.
Qed.

Ltac bytes_from P :=
  apply (allBytes_impl P); [by intros [[] [] [] [] [] [] [] []]|done].

Lemma port_bytes port :
  validOptionalPort port = true →
  port = "" ∨ ∃ ds, port = String ":" ds ∧ allBytes isDigit ds = true.
Proof.
  destruct port as [|c ds]; [by left|]. simpl.
  intros [->%Ascii.eqb_eq Hd]%andb_true_iff. right. exists ds. split; [done|].
  induction ds as [|d ds IH]; [done|]. simpl in *.
  apply andb_true_iff in Hd as [-> Hd]. by rewrite IH.
Qed.

(** An ordinary URL is parsed into its parts. *)
Lemma Parse_plain scheme host port path :
  scheme ≠ "" → allBytes isAlpha scheme = true →
  allBytes hostByte host = true → validOptionalPort port = true →
  plainPath path = true →
  Parse (scheme +:+ "://" +:+ host +:+ port +:+ path)
  = Ok (plainURL scheme host port path).
Proof.
  intros Hne Hs Hh Hport Hpath.
  apply andb_true_iff in Hpath as [Hstart Hpath].
  set (urlByte := λ c, pathByte c || Ascii.eqb c ":").
  set (authByte := λ c, hostByte c || Ascii.eqb c ":").
  assert (allBytes authByte (host +:+ port) = true) as Hauth.
  { rewrite allBytes_app. apply andb_true_iff. split; [bytes_from hostByte|].
    destruct (port_bytes port Hport) as [->|(ds & -> & Hds)]; [done|].
    simpl. bytes_from isDigit. }
  set (R := "//" +:+ host +:+ port +:+ path).
  assert (allBytes urlByte R = true) as HR.
  { assert (R = "//" +:+ (host +:+ port) +:+ path) as ->
      by (unfold R; by rewrite app_assoc).
    rewrite (allBytes_app _ "//"), (allBytes_app _ (host +:+ port)).
    apply andb_true_iff; split; [done|].
    apply andb_true_iff; split; [bytes_from authByte|bytes_from pathByte]. }
  set (raw := scheme +:+ "://" +:+ host +:+ port +:+ path).
  assert (raw = scheme +:+ String ":" R) as Eraw by done.
  assert (allBytes urlByte raw = true) as Hraw.
  { rewrite Eraw, allBytes_app. apply andb_true_iff. split; [bytes_from isAlpha|].
    change (allBytes urlByte (String ":" R))
      with (urlByte ":"%char && allBytes urlByte R).
    by rewrite HR. }
  unfold Parse.
  unfold Cut. rewrite (Index_byte_none "#"%char raw) by bytes_from urlByte.
  assert (parse raw false = Ok (plainURL scheme host port path)) as ->; [|done].
  assert (R = String "/" (String "/" ((host +:+ port) +:+ path))) as ER
    by (unfold R; by rewrite app_assoc).
  clearbody raw R. unfold parse.
  rewrite (no_CTL raw) by bytes_from urlByte.
  rewrite andb_false_r.
  assert (String.eqb raw "*" = false) as ->.
  { rewrite Eraw. destruct scheme as [|c s']; [done|]. rewrite app_cons. simpl.
    simpl in Hs. apply andb_true_iff in Hs as [Hc _].
    destruct (Ascii.eqb_spec c "*") as [->|]; done. }
  assert (getScheme raw = Ok (scheme, R)) as ->.
  { unfold getScheme. rewrite Eraw at 1. rewrite getSchemeFrom_alpha by done.
    rewrite Nat.add_0_l. destruct (String.length scheme =? 0) eqn:E0.
    { apply Nat.eqb_eq in E0. by destruct scheme. }
    by rewrite Eraw, take_app, <- Nat.add_1_r, drop_add, drop_app. }
  rewrite (Count_byte_none "?"%char R) by bytes_from urlByte.
  rewrite andb_false_r.
  unfold Cut. rewrite (Index_byte_none "?"%char R) by bytes_from urlByte.
  assert (HasPrefix R "/" = true) as ->
    by (rewrite ER; simpl; by rewrite ?HasPrefix_nil).
  assert (HasPrefix R "//" = true) as ->
    by (rewrite ER; simpl; by rewrite ?HasPrefix_nil).
  assert (nonEmpty (ToLower scheme) = true) as -> by (by destruct scheme).
  simpl. rewrite ER.
  assert (match Index ((host +:+ port) +:+ path) "/" with
          | Some i => (take i ((host +:+ port) +:+ path),
                       drop i ((host +:+ port) +:+ path))
          | None => ((host +:+ port) +:+ path, "")
          end = (host +:+ port, path)) as ->.
  { destruct path as [|c p].
    - rewrite app_nil_r, (Index_byte_none "/"%char) by bytes_from authByte.
      done.
    - simpl in Hstart.
      destruct (Ascii.eqb_spec c "/") as [->|]; [|done].
      rewrite (Index_byte_app "/"%char) by bytes_from authByte.
      by rewrite take_app, drop_app. }
  assert (parseHost (host +:+ port) = Ok (host +:+ port)) as Hph.
  { unfold parseHost.
    rewrite (HasPrefix_byte_none "["%char) by bytes_from authByte.
    rewrite (unescape_plain encodeHost) by bytes_from authByte.
    destruct (port_bytes port Hport) as [->|(ds & -> & Hds)].
    - rewrite app_nil_r, (LastIndex_byte_none ":"%char) by bytes_from hostByte.
      done.
    - rewrite (LastIndex_byte_app ":"%char) by bytes_from isDigit.
      by rewrite drop_app, Hport. }
  unfold parseAuthority.
  rewrite (LastIndex_byte_none "@"%char) by bytes_from authByte.
  rewrite Hph. unfold setPath.
  rewrite (unescape_plain encodePath) by bytes_from pathByte.
  rewrite (escape_plain encodePath) by bytes_from pathByte.
  by rewrite String.eqb_refl.
Qed.

Lemma Hostname_plain scheme host port path :
  allBytes hostByte host = true → validOptionalPort port = true →
  Hostname (plainURL scheme host port path) = host.
Proof.
  intros Hh Hport. unfold Hostname, splitHost, plainURL. simpl.
  assert (match LastIndex (host +:+ port) ":" with
          | Some colon =>
              if validOptionalPort (drop colon (host +:+ port))
              then take colon (host +:+ port) else host +:+ port
          | None => host +:+ port
          end = host) as ->.
  { destruct (port_bytes port Hport) as [->|(ds & -> & Hds)].
    - rewrite app_nil_r, (LastIndex_byte_none ":"%char) by bytes_from hostByte.
      done.
    - rewrite (LastIndex_byte_app ":"%char) by bytes_from isDigit.
      by rewrite drop_app, Hport, take_app. }
  by rewrite (HasPrefix_byte_none "["%char) by bytes_from hostByte.
Qed.


End plain_facts.

(** X13.  For an ordinary URL, a scheme of letters, [://], a host of
    letters, digits, [-], [.], [_] and [~], an optional port, and a path
    that is empty or starts with [/] and has such bytes and slashes,
    [extractHostname] returns the host, without the port, in the letter case
    it was written in. *)
Theorem extractHostname_of_ordinary_url (scheme host port path : string) :
  scheme ≠ "" → allBytes url.isAlpha scheme = true →
  allBytes hostByte host = true → url.validOptionalPort port = true →
  plainPath path = true →
  url.Parse (scheme +:+ "://" +:+ host +:+ port +:+ path)
  = Ok (plainURL scheme host port path)
  ∧ extractHostname (scheme +:+ "://" +:+ host +:+ port +:+ path) = Ok host.
Proof.
  intros Hne Hs Hh Hport Hpath.
  pose proof (plain_facts.Parse_plain _ _ _ _ Hne Hs Hh Hport Hpath) as Hp.
  split; [done|]. unfold extractHostname. rewrite Hp.
  by rewrite plain_facts.Hostname_plain.
Qed.

Lemma extractHostname_of_ordinary_url_witness :
  extractHostname "HTTPS://Example.com:8443/a/b.html" = Ok "Example.com".
Proof.
  by apply (extractHostname_of_ordinary_url "HTTPS" "Example.com" ":8443"
              "/a/b.html").
Defined.

(** ** The scope pattern of an ordinary host *)

Module scope_facts.
Import strings strings_facts.









End scope_facts.



(** ** Fragments *)

Module fragment_facts.
Import strings strings_facts url plain_facts.

Lemma Parse_no_hash l :
  allBytes (λ d, negb (Ascii.eqb d "#")) l = true → Parse l = parse l false.
Proof.
  intros H. unfold Parse, Cut. rewrite (Index_byte_none "#"%char l H).
  by destruct (parse l false).
Qed.

Lemma Parse_fragment l fr :
  allBytes (λ d, negb (Ascii.eqb d "#")) l = true →
  Parse (l +:+ "#" +:+ fr)
  = match Parse l with
    | Ok u => if String.eqb fr "" then Ok u else setFragment u fr
    | other => other
    end.
Proof.
  intros H. rewrite (Parse_no_hash l H). unfold Parse, Cut.
  change ("#" +:+ fr) with (String "#" fr).
  rewrite (Index_byte_app "#"%char l fr H), take_app, drop_add, drop_app.
  done.
Qed.

Lemma setFragment_noFragment u fr u' :
  setFragment u fr = Ok u' → noFragment u' = noFragment u.
Proof.
  unfold setFragment. destruct (unescape fr encodeFragment); [|done..].
  by intros [= <-].
Qed.

Lemma setPath__noFragment u v p :
  noFragment u = noFragment v →
  noFragment (setPath_ u p) = noFragment (setPath_ v p).
Proof.
  intros H. unfold setPath_, setPath.
  destruct (unescape p encodePath).
  all: destruct u, v; unfold noFragment in *; simpl in *.
  all: injection H as -> -> -> -> -> -> -> -> ->; done.
Qed.

Lemma ResolveReference_noFragment b u v :
  noFragment u = noFragment v →
  noFragment (ResolveReference b u) = noFragment (ResolveReference b v).
Proof.
  intros H. destruct u, v. unfold noFragment in H. simpl in H.
  injection H as -> -> -> -> -> -> -> -> ->.
  unfold ResolveReference, EscapedPath. simpl.
  repeat case_match; try done; by apply setPath__noFragment.
Qed.

(** The text of a URL whose fragment has been cleared. *)
Lemma String_withoutFragment u scheme :
  String_ (if String.eqb (Scheme (colly.withoutFragment u)) "//"
           then colly.withScheme (colly.withoutFragment u) scheme
           else colly.withoutFragment u)
  = String_ (if String.eqb (Scheme (noFragment u)) "//"
             then colly.withScheme (noFragment u) scheme
             else noFragment u).
Proof. destruct u. simpl. by destruct (String.eqb _ "//"). Qed.

End fragment_facts.

(** X15.  A fragment makes no difference: a link with a well-formed
    fragment after a reference that is not empty resolves to the same
    absolute URL as the reference alone, so it gets the same Result, and a
    visit of it is the visit of the same URL (refused when that URL was
    accepted before). *)
Theorem fragment_makes_no_difference (r : colly.Request) (l fr : string) :
  l ≠ "" → allBytes (λ d, negb (Ascii.eqb d "#")) l = true →
  (∃ t, url.unescape fr url.encodeFragment = Ok t) →
  colly.AbsoluteURL r (l +:+ "#" +:+ fr) = colly.AbsoluteURL r l
  ∧ (∀ f sel, sentLines (onHTML f sel r (l +:+ "#" +:+ fr))
              = sentLines (onHTML f sel r l))
  ∧ (∀ c visited, colly.Request_Visit c visited r (l +:+ "#" +:+ fr)
                  = colly.Request_Visit c visited r l).
Proof.
  intros Hne Hl [t Ht].
  assert (colly.AbsoluteURL r (l +:+ "#" +:+ fr) = colly.AbsoluteURL r l) as E.
  { unfold colly.AbsoluteURL.
    assert (strings.HasPrefix (l +:+ "#" +:+ fr) "#" = false
            ∧ strings.HasPrefix l "#" = false) as [-> ->].
    { destruct l as [|ch l']; [done|]. rewrite strings_facts.app_cons.
      simpl in *. apply andb_true_iff in Hl as [Hc _].
      apply negb_true_iff in Hc. by rewrite Hc. }
    unfold url.ParseRef. rewrite (fragment_facts.Parse_fragment l fr Hl).
    destruct (url.Parse l) as [u|e|e]; [|done..].
    destruct (String.eqb fr ""); [done|].
    destruct (url.setFragment u fr) as [u'|e|e] eqn:Ef.
    - apply fragment_facts.setFragment_noFragment in Ef.
      rewrite !fragment_facts.String_withoutFragment.
      by rewrite (fragment_facts.ResolveReference_noFragment _ u' u Ef).
    - unfold url.setFragment in Ef. by rewrite Ht in Ef.
    - unfold url.setFragment in Ef. by rewrite Ht in Ef. }
  split; [done|]. split.
  - intros f sel.
    assert (∀ src, printResult (l +:+ "#" +:+ fr) src (showSource f) (showJson f) r
                   = printResult l src (showSource f) (showJson f) r) as Hp.
    { intros src. unfold printResult, resultLine. by rewrite E. }
    destruct sel; unfold onHTML; rewrite Hp; [|done..].
    unfold sentLines. by rewrite !omap_app.
  - intros c visited. unfold colly.Request_Visit. by rewrite E.
Qed.

Lemma fragment_makes_no_difference_witness :
  colly.AbsoluteURL (pageAt "http://h/dir/" 1) "../a#top" = "http://h/a"
  ∧ colly.AbsoluteURL (pageAt "http://h/dir/" 1) "../a" = "http://h/a"
  ∧ colly.AbsoluteURL (pageAt "http://h/dir/" 1) ("../a" +:+ "#" +:+ "top")
    = colly.AbsoluteURL (pageAt "http://h/dir/" 1) "../a".
Proof.
  split; [vm_compute; reflexivity|]. split; [vm_compute; reflexivity|].
  apply (fragment_makes_no_difference (pageAt "http://h/dir/" 1) "../a" "top").
  - done.
  - reflexivity.
  - by exists "top".
Defined.

(** ** What [-unique] tells apart *)

(** X16.  Without [-json], two elements get the same line exactly when
    they resolve to the same absolute URL and, with [-s], have the same
    source: [-unique] keeps one line per URL without [-s], and one per
    source and URL with it. *)
Theorem unique_key_is_source_and_url (showSource : bool)
    (sel1 sel2 : Selector) (r1 r2 : colly.Request) (a1 a2 line : string) :
  resultLine a1 (sourceName sel1) showSource false r1 = Some line →
  (resultLine a2 (sourceName sel2) showSource false r2 = Some line
   ↔ colly.AbsoluteURL r2 a2 = colly.AbsoluteURL r1 a1
     ∧ (showSource = true → sel2 = sel1)).
Proof.
  unfold resultLine.
  destruct (String.eqb_spec (colly.AbsoluteURL r1 a1) "") as [|Hne1]; [done|].
  simpl. intros [= <-]. split.
  - destruct (String.eqb_spec (colly.AbsoluteURL r2 a2) ""); [done|]. simpl.
    destruct showSource.
    + destruct sel1, sel2; simpl; rewrite !strings_facts.app_cons;
        intros [= H]; try done;
        rewrite ?strings_facts.app_nil_l in H; by simplify_eq.
    + by intros [= ->].
  - intros [-> Hs].
    destruct (String.eqb_spec (colly.AbsoluteURL r1 a1) ""); [done|]. simpl.
    destruct showSource; [|done]. by rewrite (Hs eq_refl).
Qed.

(** [-s]: the same URL as an anchor and as a form target gives two
    lines. *)
Lemma unique_key_is_source_and_url_witness :
  resultLine "/x" "href" true false (pageAt "http://h/" 1)
  = Some "[href] http://h/x"
  ∧ (resultLine "/x" "form" true false (pageAt "http://h/" 1)
     = Some "[href] http://h/x"
     ↔ colly.AbsoluteURL (pageAt "http://h/" 1) "/x"
       = colly.AbsoluteURL (pageAt "http://h/" 1) "/x"
       ∧ (true = true → form_action = a_href)).
Proof.
  assert (resultLine "/x" (sourceName a_href) true false (pageAt "http://h/" 1)
          = Some "[href] http://h/x") as E by (vm_compute; reflexivity).
  split; [exact E|].
  exact (unique_key_is_source_and_url true a_href form_action _ _ "/x" "/x" _ E).
Defined.

(** ** No Result is lost on the way *)


